(** * The indexing core of hdoc: Indexer post-passes and AST matchers

    A shallow embedding of [Indexer.cpp], [Matchers.hpp] and [Matchers.cpp].
    The in-memory Index is a record of five databases; each database maps a
    SymbolID to a symbol.  The post-passes are state transformers on the
    Index; the match callbacks are state transformers that read a model of
    the AST node they are handed. *)

From Stdlib Require Import ZArith String Ascii List Lia DecimalString.
From stdpp Require Import gmap strings list fin_maps.

Local Open Scope Z_scope.

(** ** Strings as [std::string] *)

Module Str.

Definition npos : Z := 2 ^ 64 - 1.

Definition size (s : string) : Z := Z.of_nat (String.length s).

(** [s.find(sub)]: position of the first occurrence, [None] for [npos]. *)
Definition find (s sub : string) : option nat := String.index 0 sub s.

(** [s.find(sub) != std::string::npos] *)
Definition contains (s sub : string) : bool :=
  match find s sub with Some _ => true | None => false end.

(** [size_t] subtraction. *)
Definition sub64 (a b : Z) : Z := (a - b) mod 2 ^ 64.
Definition add64 (a b : Z) : Z := (a + b) mod 2 ^ 64.

(** [s.substr(pos, count)]: throws [std::out_of_range] ([None]) when
    [pos > size()], otherwise the characters [pos, min(pos+count, size())). *)
Definition substr (s : string) (pos count : Z) : option string :=
  if size s <? pos then None
  else Some (String.substring (Z.to_nat pos)
               (Z.to_nat (Z.min count (size s - pos))) s).

(** [s.substr(pos)], with the default [count = npos]. *)
Definition substr_from (s : string) (pos : Z) : option string :=
  substr s pos npos.

(** [s.starts_with(p)] *)
Definition starts_with (s p : string) : bool := String.prefix p s.

End Str.

(** ** Data model *)

(** Modelled from the spec: the declarations of [types/Symbols.hpp],
    [types/Index.hpp] and [types/Config.hpp] (SymbolID, the symbol structs,
    Database, Index and Config) are not part of the sources; the types of
    this section follow the data model of the specification and the field
    names the code uses.  Field names carry a short prefix where two structs
    share a name; the fields of the [Symbol] base are a record of their own,
    as the helpers and [isChild] take a [Symbol&].  Unsigned 64-bit fields
    ([postTemplate], [nameStart], [numMatches]) are integers in [0, 2^64).

    A SymbolID is compared through [raw()]; the default-constructed value is
    the null ID. *)
Definition SymbolID : Type := Z.
Definition nullID : SymbolID := 0.

(** [clang::AccessSpecifier] *)
Inductive AccessSpecifier : Type :=
  | AS_public | AS_protected | AS_private | AS_none.

Global Instance AccessSpecifier_eq_dec : EqDecision AccessSpecifier.
Proof. solve_decision. Defined.

Record TypeRef : Type := mkTypeRef {
  tr_name : string;
  tr_id   : SymbolID }.

Record Symbol : Type := mkSymbol {
  ID                 : SymbolID;
  name               : string;
  fullyQualifiedName : string;
  declFile           : string;
  declLine           : Z;
  parentNamespaceID  : SymbolID;
  docCommentBrief    : string;
  docCommentLong     : string;
  access             : AccessSpecifier }.

Record FunctionParam : Type := mkFunctionParam {
  fp_name         : string;
  fp_type         : TypeRef;
  fp_defaultValue : string }.

Inductive TemplateType : Type :=
  | TemplateTypeParameter | NonTypeTemplate | TemplateTemplateType.

Record TemplateParam : Type := mkTemplateParam {
  templateType       : TemplateType;
  tp_name            : string;
  tp_type            : string;
  tp_defaultValue    : string;
  isTypename         : bool;
  isParameterPack    : bool }.

Inductive RefQualifier : Type := RQ_None | RQ_LValue | RQ_RValue.
Inductive StorageClass : Type :=
  | SC_None | SC_Extern | SC_Static | SC_PrivateExtern | SC_Auto | SC_Register.

Record FunctionQualifiers : Type := mkFunctionQualifiers {
  isVariadic : bool;  isVirtual : bool;   isConstexpr : bool;
  isConsteval : bool; isInline : bool;    isNoDiscard : bool;
  isNoExcept : bool;  isNoReturn : bool;  isConst : bool;
  isVolatile : bool;  isRestrict : bool;  isExplicit : bool;
  isCtorOrDtor : bool; isConversionOp : bool;
  refQualifier : RefQualifier;
  storageClass : StorageClass;
  hasTrailingReturn : bool }.

Record FunctionSymbol : Type := mkFunctionSymbol {
  f_sym            : Symbol;
  f_proto          : string;
  postTemplate     : Z;
  nameStart        : Z;
  returnType       : TypeRef;
  params           : list FunctionParam;
  f_templateParams : list TemplateParam;
  f_quals          : FunctionQualifiers;
  f_isRecordMember : bool }.

Record MemberVariable : Type := mkMemberVariable {
  mv_name         : string;
  mv_type         : TypeRef;
  mv_defaultValue : string;
  mv_access       : AccessSpecifier;
  mv_isStatic     : bool;
  mv_docComment   : string }.

Record BaseRecord : Type := mkBaseRecord {
  br_id     : SymbolID;
  br_access : AccessSpecifier;
  br_name   : string }.

Record RecordSymbol : Type := mkRecordSymbol {
  r_sym            : Symbol;
  r_type           : string;
  r_proto          : string;
  r_templateParams : list TemplateParam;
  baseRecords      : list BaseRecord;
  methodIDs        : list SymbolID;
  aliasIDs         : list SymbolID;
  vars             : list MemberVariable }.

Record EnumMember : Type := mkEnumMember {
  em_name       : string;
  em_value      : Z;
  em_docComment : string }.

Record EnumSymbol : Type := mkEnumSymbol {
  e_sym   : Symbol;
  e_type  : string;
  members : list EnumMember }.

Record NamespaceSymbol : Type := mkNamespaceSymbol {
  n_sym         : Symbol;
  ns_records    : list SymbolID;
  ns_enums      : list SymbolID;
  ns_namespaces : list SymbolID;
  ns_usings     : list SymbolID }.

Record AliasSymbol : Type := mkAliasSymbol {
  a_sym            : Symbol;
  target           : TypeRef;
  a_isRecordMember : bool }.

Record Database (T : Type) : Type := mkDatabase {
  entries    : gmap SymbolID T;
  numMatches : Z }.
Arguments mkDatabase {T} _ _.
Arguments entries {T} _.
Arguments numMatches {T} _.

Record Index : Type := mkIndex {
  functions  : Database FunctionSymbol;
  records    : Database RecordSymbol;
  enums      : Database EnumSymbol;
  namespaces : Database NamespaceSymbol;
  aliases    : Database AliasSymbol }.

Record Config : Type := mkConfig {
  rootDir              : string;
  ignorePaths          : list string;
  ignoreNamespaces     : list string;
  ignorePrivateMembers : bool }.

(** *** Database operations

    Modelled from the spec: the member functions of [Database<T>]
    ([types/Index.hpp]) are not part of the sources; [contains], [reserve]
    (create an empty placeholder) and [update] are as the specification
    describes them, [erase] and the iteration are those of the [entries]
    map. *)

Module Db.
Section ops.
Context {T : Type}.

Definition contains (db : Database T) (id : SymbolID) : bool :=
  bool_decide (is_Some (entries db !! id)).

(** [reserve(id)] creates a default-constructed placeholder. *)
Definition reserve (dflt : T) (id : SymbolID) (db : Database T) : Database T :=
  mkDatabase (<[id := dflt]> (entries db)) (numMatches db).

Definition update (id : SymbolID) (v : T) (db : Database T) : Database T :=
  mkDatabase (<[id := v]> (entries db)) (numMatches db).

Definition erase (id : SymbolID) (db : Database T) : Database T :=
  mkDatabase (delete id (entries db)) (numMatches db).

(** [numMatches++] on the 64-bit counter. *)
Definition countMatch (db : Database T) : Database T :=
  mkDatabase (entries db) ((numMatches db + 1) mod 2 ^ 64).

(** The keys in the order in which a range-for over [entries] visits
    them. *)
Definition keys (db : Database T) : list SymbolID :=
  (map_to_list (entries db)).*1.

(** The values in iteration order. *)
Definition values (db : Database T) : list T :=
  (map_to_list (entries db)).*2.

(** Mutation of the entry stored under [k] through a reference. *)
Definition modify (k : SymbolID) (g : T -> T) (db : Database T) : Database T :=
  mkDatabase (alter g k (entries db)) (numMatches db).
End ops.
End Db.

(** *** Field updates *)

Definition set_tr_id (i : SymbolID) (t : TypeRef) : TypeRef :=
  mkTypeRef (tr_name t) i.
Definition set_tr_name (s : string) (t : TypeRef) : TypeRef :=
  mkTypeRef s (tr_id t).

Definition set_name (s : string) (y : Symbol) : Symbol :=
  mkSymbol (ID y) s (fullyQualifiedName y) (declFile y) (declLine y) (parentNamespaceID y)
           (docCommentBrief y) (docCommentLong y) (access y).
Definition set_access (a : AccessSpecifier) (y : Symbol) : Symbol :=
  mkSymbol (ID y) (name y) (fullyQualifiedName y) (declFile y) (declLine y) (parentNamespaceID y)
           (docCommentBrief y) (docCommentLong y) a.
Definition set_ID (i : SymbolID) (y : Symbol) : Symbol :=
  mkSymbol i (name y) (fullyQualifiedName y) (declFile y) (declLine y) (parentNamespaceID y)
           (docCommentBrief y) (docCommentLong y) (access y).

Definition set_functions (d : Database FunctionSymbol) (i : Index) : Index :=
  mkIndex d (records i) (enums i) (namespaces i) (aliases i).
Definition set_records (d : Database RecordSymbol) (i : Index) : Index :=
  mkIndex (functions i) d (enums i) (namespaces i) (aliases i).
Definition set_enums (d : Database EnumSymbol) (i : Index) : Index :=
  mkIndex (functions i) (records i) d (namespaces i) (aliases i).
Definition set_namespaces (d : Database NamespaceSymbol) (i : Index) : Index :=
  mkIndex (functions i) (records i) (enums i) d (aliases i).
Definition set_aliases (d : Database AliasSymbol) (i : Index) : Index :=
  mkIndex (functions i) (records i) (enums i) (namespaces i) d.

(** A range-for over a list of keys, threading the state. *)
Definition for_each {A S : Type} (l : list A) (body : A -> S -> S) (s : S) : S :=
  foldl (fun acc a => body a acc) s l.

Fixpoint for_each_try {A S : Type} (l : list A) (body : A -> S -> option S)
    (s : S) : option S :=
  match l with
  | [] => Some s
  | a :: l' =>
      match body a s with
      | Some s' => for_each_try l' body s'
      | None => None
      end
  end.

(** ** Indexer.cpp: the post-passes *)

Module Indexer.

(** Check if a symbol is a child of the given namespace. *)
Definition isChild (ns s : Symbol) : bool :=
  parentNamespaceID s =? ID ns.

(** *** resolveNamespaces *)

Definition push_records (i : SymbolID) (ns : NamespaceSymbol) : NamespaceSymbol :=
  mkNamespaceSymbol (n_sym ns) (ns_records ns ++ [i]) (ns_enums ns)
                    (ns_namespaces ns) (ns_usings ns).
Definition push_enums (i : SymbolID) (ns : NamespaceSymbol) : NamespaceSymbol :=
  mkNamespaceSymbol (n_sym ns) (ns_records ns) (ns_enums ns ++ [i])
                    (ns_namespaces ns) (ns_usings ns).
Definition push_namespaces (i : SymbolID) (ns : NamespaceSymbol) : NamespaceSymbol :=
  mkNamespaceSymbol (n_sym ns) (ns_records ns) (ns_enums ns)
                    (ns_namespaces ns ++ [i]) (ns_usings ns).
Definition push_usings (i : SymbolID) (ns : NamespaceSymbol) : NamespaceSymbol :=
  mkNamespaceSymbol (n_sym ns) (ns_records ns) (ns_enums ns)
                    (ns_namespaces ns) (ns_usings ns ++ [i]).

(** One inner loop: every entry [v] that is a child of [ns] has its ID
    appended to one child vector of [ns]. *)
Definition addChildren {T : Type} (sym : T -> Symbol)
    (push : SymbolID -> NamespaceSymbol -> NamespaceSymbol)
    (db : Database T) (ns : NamespaceSymbol) : NamespaceSymbol :=
  for_each (Db.values db)
    (fun v ns => if isChild (n_sym ns) (sym v) then push (ID (sym v)) ns else ns)
    ns.

(** The body of the outer loop, run on the namespace [ns] while the Index
    is [idx]; the inner loops only read [ID] and [parentNamespaceID], which
    the pass never writes. *)
Definition resolveNamespace (idx : Index) (ns : NamespaceSymbol) : NamespaceSymbol :=
  let ns := addChildren r_sym push_records (records idx) ns in
  let ns := addChildren e_sym push_enums (enums idx) ns in
  let ns := addChildren n_sym push_namespaces (namespaces idx) ns in
  addChildren a_sym push_usings (aliases idx) ns.

Definition resolveNamespaces (idx : Index) : Index :=
  for_each (Db.keys (namespaces idx))
    (fun k i => set_namespaces (Db.modify k (resolveNamespace i) (namespaces i)) i)
    idx.

(** *** updateRecordNames *)

Definition set_r_proto (p : string) (c : RecordSymbol) : RecordSymbol :=
  mkRecordSymbol (r_sym c) (r_type c) p (r_templateParams c) (baseRecords c)
                 (methodIDs c) (aliasIDs c) (vars c).

(** The [switch] on the access type of a base. *)
Definition accessKeyword (a : AccessSpecifier) : string :=
  match a with
  | AS_public => "public "
  | AS_private => "private "
  | AS_protected => "protected "
  | AS_none => ""
  end.

(** One iteration of the loop over [c.baseRecords]; the state is the
    [uint64_t count] and the proto built so far. *)
Definition appendBase (b : BaseRecord) (st : Z * string) : Z * string :=
  let '(count, proto) := st in
  let proto := if 0 <? count then proto +:+ ", " else proto in
  let proto := proto +:+ accessKeyword (br_access b) in
  let proto := proto +:+ br_name b in
  ((count + 1) mod 2 ^ 64, proto).

Definition updateRecordName (c : RecordSymbol) : RecordSymbol :=
  if 0 <? Z.of_nat (length (baseRecords c)) then
    set_r_proto (for_each (baseRecords c) appendBase (0, r_proto c +:+ " : ")).2 c
  else c.

Definition updateRecordNames (idx : Index) : Index :=
  for_each (Db.keys (records idx))
    (fun k i => set_records (Db.modify k updateRecordName (records i)) i)
    idx.

(** *** pruneMethods *)

Definition isOrphan (idx : Index) (v : FunctionSymbol) : bool :=
  f_isRecordMember v && negb (Db.contains (records idx) (parentNamespaceID (f_sym v))).

Definition toBePruned (idx : Index) : list SymbolID :=
  (filter (fun kv => isOrphan idx kv.2 = true) (map_to_list (entries (functions idx)))).*1.

Definition pruneMethods (idx : Index) : Index :=
  for_each (toBePruned idx)
    (fun deadSymbolID i => set_functions (Db.erase deadSymbolID (functions i)) i)
    idx.

(** *** pruneTypeRefs *)

Definition haveId (idx : Index) (id : SymbolID) : bool :=
  Db.contains (records idx) id || Db.contains (enums idx) id
  || Db.contains (aliases idx) id.

Definition pruneRef (idx : Index) (t : TypeRef) : TypeRef :=
  if negb (haveId idx (tr_id t)) then set_tr_id nullID t else t.

Definition set_fp_type (t : TypeRef) (p : FunctionParam) : FunctionParam :=
  mkFunctionParam (fp_name p) t (fp_defaultValue p).
Definition set_mv_type (t : TypeRef) (v : MemberVariable) : MemberVariable :=
  mkMemberVariable (mv_name v) t (mv_defaultValue v) (mv_access v)
                   (mv_isStatic v) (mv_docComment v).
Definition set_returnType (t : TypeRef) (f : FunctionSymbol) : FunctionSymbol :=
  mkFunctionSymbol (f_sym f) (f_proto f) (postTemplate f) (nameStart f) t
    (params f) (f_templateParams f) (f_quals f) (f_isRecordMember f).
Definition set_params (ps : list FunctionParam) (f : FunctionSymbol) : FunctionSymbol :=
  mkFunctionSymbol (f_sym f) (f_proto f) (postTemplate f) (nameStart f)
    (returnType f) ps (f_templateParams f) (f_quals f) (f_isRecordMember f).
Definition set_vars (vs : list MemberVariable) (c : RecordSymbol) : RecordSymbol :=
  mkRecordSymbol (r_sym c) (r_type c) (r_proto c) (r_templateParams c)
                 (baseRecords c) (methodIDs c) (aliasIDs c) vs.
Definition set_target (t : TypeRef) (a : AliasSymbol) : AliasSymbol :=
  mkAliasSymbol (a_sym a) t (a_isRecordMember a).

(** The body of the loop over the functions. *)
Definition pruneFunction (idx : Index) (v : FunctionSymbol) : FunctionSymbol :=
  let v := set_returnType (pruneRef idx (returnType v)) v in
  set_params (map (fun param => set_fp_type (pruneRef idx (fp_type param)) param)
                  (params v)) v.

Definition pruneRecord (idx : Index) (v : RecordSymbol) : RecordSymbol :=
  set_vars (map (fun var => set_mv_type (pruneRef idx (mv_type var)) var) (vars v)) v.

Definition pruneAlias (idx : Index) (v : AliasSymbol) : AliasSymbol :=
  set_target (pruneRef idx (target v)) v.

(** The lambda [haveId] captures [this]: every iteration consults the
    Index as it is at that moment. *)
Definition pruneTypeRefs (idx : Index) : Index :=
  let idx := for_each (Db.keys (functions idx))
    (fun k i => set_functions (Db.modify k (pruneFunction i) (functions i)) i) idx in
  let idx := for_each (Db.keys (records idx))
    (fun k i => set_records (Db.modify k (pruneRecord i) (records i)) i) idx in
  for_each (Db.keys (aliases idx))
    (fun k i => set_aliases (Db.modify k (pruneAlias i) (aliases i)) i) idx.

End Indexer.

(** *** updateMemberFunctions *)

Module MemberFunctions.
Section with_replaceAll.

(** [hdoc::utils::replaceAll(str, from, to)] of [support/StringUtils.hpp],
    which is not part of the sources. *)
Variable replaceAll : string -> string -> string -> string.

(** [std::to_string(i)] *)
Definition to_string (i : nat) : string :=
  NilZero.string_of_uint (Nat.to_uint i).

Definition placeholder (i : nat) : string :=
  "type-parameter-0-" +:+ to_string i.

(** The lambda [fixTypeParam], for the record [c] captured by reference:
    one [replaceAll] per template parameter, in index order. *)
Definition fixTypeParam (c : RecordSymbol) (s : string) : string :=
  for_each (zip (seq 0 (length (r_templateParams c))) (r_templateParams c))
    (fun ip s => replaceAll s (placeholder ip.1) (tp_name ip.2))
    s.

Definition set_f_name (s : string) (f : FunctionSymbol) : FunctionSymbol :=
  mkFunctionSymbol (set_name s (f_sym f)) (f_proto f) (postTemplate f)
    (nameStart f) (returnType f) (params f) (f_templateParams f) (f_quals f)
    (f_isRecordMember f).
Definition set_f_proto (p : string) (pt ns : Z) (f : FunctionSymbol) : FunctionSymbol :=
  mkFunctionSymbol (f_sym f) p pt ns (returnType f) (params f)
    (f_templateParams f) (f_quals f) (f_isRecordMember f).

Definition fixParam (c : RecordSymbol) (param : FunctionParam) : FunctionParam :=
  mkFunctionParam (fp_name param)
    (set_tr_name (fixTypeParam c (tr_name (fp_type param))) (fp_type param))
    (fixTypeParam c (fp_defaultValue param)).

(** The three parts the proto is split into; [None] when a [substr]
    throws. *)
Definition splitProto (f : FunctionSymbol) : option (string * string * string) :=
  templatePart ← Str.substr (f_proto f) 0 (postTemplate f);
  preNamePart ← Str.substr (f_proto f) (postTemplate f)
                   (Str.sub64 (nameStart f) (postTemplate f));
  restPart ← Str.substr_from (f_proto f) (nameStart f);
  Some (templatePart, preNamePart, restPart).

(** The body of the inner loop, for a method [f] that is in the Index. *)
Definition updateMemberFunction (c : RecordSymbol) (f : FunctionSymbol)
    : option FunctionSymbol :=
  '(templatePart, preNamePart, restPart) ← splitProto f;
  let name := name (f_sym f) in
  let templatePart := fixTypeParam c templatePart in
  let preNamePart := fixTypeParam c preNamePart in
  let restPart := fixTypeParam c restPart in
  let name := fixTypeParam c name in
  let newProto := templatePart +:+ preNamePart +:+ restPart in
  let f :=
    if bool_decide (newProto ≠ f_proto f) then
      set_f_name name
        (set_f_proto (templatePart +:+ preNamePart +:+ restPart)
           (Str.size templatePart)
           (Str.add64 (Str.size templatePart) (Str.size preNamePart)) f)
    else f in
  Some (Indexer.set_params (map (fixParam c) (params f)) f).

(** One iteration of the inner loop over [c.methodIDs]. *)
Definition visitMethod (c : RecordSymbol) (symbol : SymbolID) (idx : Index)
    : option Index :=
  if negb (Db.contains (functions idx) symbol) then Some idx
  else
    match entries (functions idx) !! symbol with
    | None => None
    | Some f =>
        f' ← updateMemberFunction c f;
        Some (set_functions (Db.update symbol f' (functions idx)) idx)
    end.

Definition updateMemberFunctions (idx : Index) : option Index :=
  for_each_try (Db.values (records idx))
    (fun c i => for_each_try (methodIDs c) (visitMethod c) i)
    idx.

End with_replaceAll.
End MemberFunctions.

(** ** The front end's AST, as far as the matchers query it

    Every node is a record of the answers the code obtains from it.  A
    pointer to a declaration is the declaration's record; the code never
    holds a null [res] when a callback runs. *)

Module Clang.

(** The chain of [DeclContext]s followed by [getParent()], ending in the
    translation unit, whose parent is null. *)
Inductive DeclContext : Type :=
  | TranslationUnitDecl
  | NamespaceDecl (isAnonymousNamespace : bool) (nameAsString : string)
                  (parent : DeclContext)
  | CXXRecordContext (nameAsString : string) (parent : DeclContext)
  | FunctionContext (parent : DeclContext)
  | OtherContext (parent : DeclContext).

Definition isFunctionOrMethod (dc : DeclContext) : bool :=
  match dc with FunctionContext _ => true | _ => false end.

(** An expression, handed only to [exprToString]. *)
Definition Expr : Type := string.

(** A comment is the list of its children; a paragraph carries what
    [getParaCommentContents] is given. *)
Inductive CommentChild : Type :=
  | ParagraphComment (paragraph : string)
  | OtherBlock.
Definition Comment : Type := list CommentChild.

(** What every [clang::Decl] / [clang::NamedDecl] answers. *)
Record Decl : Type := mkDecl {
  getDeclContext            : DeclContext;
  expansionLocIsValid       : bool;
  fileEntryName             : option string;
  sourceRangeIsValid        : bool;
  isImplicit                : bool;
  isExpansionInSystemHeader : bool;
  isTemplateInstantiation   : bool;
  isInstantiated            : bool;
  hasAnonymousNamespaceAncestor : bool;
  getAccess                 : AccessSpecifier;
  isCXXClassMember          : bool;
  getNameAsString           : string;
  getQualifiedNameAsString  : string;
  getCommentForDecl         : option Comment }.

(** A tag declaration together with the answer of
    [getNonSpecializedVersionOfDecl] for it. *)
Record TagDecl : Type := mkTagDecl {
  tagDecl        : Decl;
  nonSpecialized : option Decl }.

Record QualType : Type := mkQualType {
  getAsString        : string;
  getAsTagDecl       : option TagDecl;
  isPointerType      : bool;
  pointeeAsTagDecl   : option TagDecl;
  isReferenceType    : bool;
  nonReferenceAsTagDecl : option TagDecl }.

Inductive DefaultArg : Type :=
  | UninstantiatedDefaultArg (e : Expr)
  | InstantiatedDefaultArg (e : Expr).

Record ParmVarDecl : Type := mkParmVarDecl {
  parmName       : string;
  parmType       : QualType;
  parmDefaultArg : option DefaultArg }.

Inductive TemplateParamDecl : Type :=
  | TemplateTypeParmDecl (isParameterPack wasDeclaredWithTypename : bool)
      (nameAsString : string) (defaultArgument : option QualType)
  | NonTypeTemplateParmDecl (isParameterPack : bool) (nameAsString : string)
      (defaultArgument : option Expr) (type : QualType)
  | TemplateTemplateParmDecl (sourceText : string) (nameAsString : string)
      (isParameterPack : bool).

Record FunctionDecl : Type := mkFunctionDecl {
  fd_decl                 : Decl;
  isDeletedAsWritten      : bool;
  isCXXDeductionGuideDecl : bool;
  isStatic                : bool;
  (** [dyn_cast<CXXConversionDecl>], with its [isExplicit()] *)
  asCXXConversionDecl     : option bool;
  (** [dyn_cast<CXXConstructorDecl>], with its [isExplicit()] *)
  asCXXConstructorDecl    : option bool;
  isCXXDestructorDecl     : bool;
  fd_isVariadic           : bool;
  isVirtualAsWritten      : bool;
  isConstexprSpecified    : bool;
  isExplicitlyDefaulted   : bool;
  fd_isConsteval          : bool;
  isInlineSpecified       : bool;
  hasWarnUnusedResultAttr : bool;
  isNoexceptExceptionSpec : bool;
  fd_isNoReturn           : bool;
  getStorageClass         : StorageClass;
  (** [getAs<FunctionProtoType>]: ref qualifier, trailing return *)
  asFunctionProtoType     : option (RefQualifier * bool);
  (** [getAs<FunctionType>]: const, volatile, restrict *)
  asFunctionType          : option (bool * bool * bool);
  parameters              : list ParmVarDecl;
  getDescribedFunctionTemplate : option (list TemplateParamDecl);
  getReturnType           : QualType }.

Record UsingShadow : Type := mkUsingShadow {
  getUnderlyingDecl : Decl }.

(** Which of the three alias node classes a [NamedDecl] is, if any. *)
Inductive NamedDeclKind : Type :=
  | UsingDecl (shadows : list UsingShadow)
  | UsingShadowDecl (getTargetDecl : Decl)
  | TypeAliasDecl (getUnderlyingType : QualType)
  | OtherNamedDecl.

Record NamedDecl : Type := mkNamedDecl {
  nd_decl : Decl;
  nd_kind : NamedDeclKind }.

Record FieldDecl : Type := mkFieldDecl {
  field_access             : AccessSpecifier;
  field_name               : string;
  getInClassInitializer    : option Expr;
  isAnonymousStructOrUnion : bool;
  field_type               : QualType;
  field_comment            : option Comment }.

Record VarDecl : Type := mkVarDecl {
  var_access  : AccessSpecifier;
  var_name    : string;
  getInit     : option Expr;
  var_type    : QualType;
  var_comment : option Comment }.

Record CXXMethodDecl : Type := mkCXXMethodDecl {
  method_decl      : Decl;
  getCanonicalDecl : Decl }.

(** The members [res->decls()] yields, by the casts the code tries. *)
Inductive MemberDecl : Type :=
  | MemberFunctionTemplate (d : Decl)
  | MemberUsingShadow (d : Decl)
  | MemberUsing (d : Decl)
  | MemberTypeAlias (d : Decl)
  | MemberVar (v : VarDecl)
  | MemberOther.

Record CXXBaseSpecifier : Type := mkCXXBaseSpecifier {
  (** [base.getType()->getAsCXXRecordDecl()], with [isInStdNamespace()] *)
  getAsCXXRecordDecl : option (Decl * bool);
  getAccessSpecifier : AccessSpecifier }.

(** [dyn_cast<TemplateTypeParmType>] of a type template argument. *)
Record TemplateTypeParmType : Type := mkTemplateTypeParmType {
  getIdentifier : option string;
  getDeclName   : option string;
  getIndex      : nat }.

Record TemplateArgument : Type := mkTemplateArgument {
  printed              : string;
  isTypeArgument       : bool;
  asTemplateTypeParm   : option TemplateTypeParmType }.

Record ClassTemplateSpecializationDecl : Type := mkSpecialization {
  hasTypeAsWritten : bool;
  getTemplateArgs  : list TemplateArgument }.

Record CXXRecordDecl : Type := mkCXXRecordDecl {
  rd_decl                     : Decl;
  isDefinition                : bool;
  isCompleteDefinition        : bool;
  getTypedefNameForAnonDecl   : option string;
  asSpecialization            : option ClassTemplateSpecializationDecl;
  methods                     : list CXXMethodDecl;
  decls                       : list MemberDecl;
  isThisDeclarationADefinition : bool;
  bases                       : list CXXBaseSpecifier;
  getKindName                 : string;
  getDescribedTemplateParams  : option (list TemplateParamDecl);
  fields                      : list FieldDecl }.

Record EnumConstantDecl : Type := mkEnumConstantDecl {
  ec_name    : string;
  getInitVal : Z;
  ec_comment : option Comment }.

Record EnumDecl : Type := mkEnumDecl {
  ed_decl               : Decl;
  ed_isDefinition       : bool;
  isScoped              : bool;
  isScopedUsingClassTag : bool;
  enumerators           : list EnumConstantDecl }.

Record NamespaceNode : Type := mkNamespaceNode {
  nsd_decl : Decl }.

End Clang.

(** ** Matchers.hpp and Matchers.cpp *)

Module Matchers.
Import Clang.

(** Modelled from the spec: the default member initialisers of
    [types/Symbols.hpp] are not part of the sources; in a
    default-constructed symbol strings are empty, IDs null, flags false,
    offsets zero and the access [AS_none]. *)
Definition default_TypeRef : TypeRef := mkTypeRef "" nullID.
Definition default_Symbol : Symbol :=
  mkSymbol nullID "" "" "" 0 nullID "" "" AS_none.
Definition default_FunctionQualifiers : FunctionQualifiers :=
  mkFunctionQualifiers false false false false false false false false false
    false false false false false RQ_None SC_None false.
Definition default_FunctionSymbol : FunctionSymbol :=
  mkFunctionSymbol default_Symbol "" 0 0 default_TypeRef [] []
    default_FunctionQualifiers false.
Definition default_RecordSymbol : RecordSymbol :=
  mkRecordSymbol default_Symbol "" "" [] [] [] [] [].
Definition default_EnumSymbol : EnumSymbol := mkEnumSymbol default_Symbol "" [].
Definition default_NamespaceSymbol : NamespaceSymbol :=
  mkNamespaceSymbol default_Symbol [] [] [] [].
Definition default_AliasSymbol : AliasSymbol :=
  mkAliasSymbol default_Symbol default_TypeRef false.
Definition default_TemplateParam : TemplateParam :=
  mkTemplateParam TemplateTypeParameter "" "" "" false false.

(** *** utils::isEnclosingNamespaceInList

    The [while (parent)] loop, started at [decl->getDeclContext()]. *)
Fixpoint enclosingNamespaceInList (parent : DeclContext) (list : list string)
    : bool :=
  match parent with
  | TranslationUnitDecl => false
  | NamespaceDecl isAnonymous nm parent' =>
      if isAnonymous then enclosingNamespaceInList parent' list
      else if existsb (fun substr => Str.contains nm substr) list then true
      else enclosingNamespaceInList parent' list
  | CXXRecordContext _ parent'
  | FunctionContext parent'
  | OtherContext parent' => enclosingNamespaceInList parent' list
  end.

Definition isEnclosingNamespaceInList (decl : Decl) (list : list string) : bool :=
  enclosingNamespaceInList (getDeclContext decl) list.

Section callbacks.

(** [std::filesystem::relative(path, base).string()] *)
Variable relative : string -> string -> string.
(** [std::regex_replace(s, std::regex(re), fmt)] *)
Variable regex_replace : string -> string -> string -> string.

(** The helpers of [MatcherUtils.hpp], which is not part of the sources.
    Those that fill a symbol take the [Symbol] base by reference. *)
Variable isInIgnoreList : Decl -> Config -> bool.
Variable isInAnonymousNamespace : Decl -> bool.
Variable buildID : Decl -> SymbolID.
Variable fillOutSymbol : Symbol -> Decl -> string -> Symbol.
Variable fillNamespace : Symbol -> Decl -> Config -> Symbol.
Variable processSymbolComment : Symbol -> Comment -> Symbol.
Variable getFunctionSignature : FunctionSymbol -> FunctionSymbol * string.
Variable getRecordProto : RecordSymbol -> string.
Variable exprToString : Expr -> string.
Variable getParaCommentContents : string -> string.

(** *** AST_MATCHER_P(clang::Decl, shouldBeIgnored, cfg) *)
Definition shouldBeIgnored (cfg : Config) (Node : Decl) : bool :=
  let ignoreList := ignorePaths cfg in
  if Z.of_nat (length ignoreList) =? 0 then false
  else if negb (expansionLocIsValid Node) then false
  else
    match fileEntryName Node with
    | None => false
    | Some fileName =>
        let filename := relative fileName (rootDir cfg) in
        if existsb (fun substr => Str.contains filename substr) ignoreList
        then true
        else isEnclosingNamespaceInList Node (ignoreNamespaces cfg)
    end.

(** The part of [unless(anyOf(...))] the five matchers share. *)
Definition excluded (cfg : Config) (d : Decl) : bool :=
  hasAnonymousNamespaceAncestor d || isImplicit d
  || isExpansionInSystemHeader d || shouldBeIgnored cfg d.

Definition RecordMatcher_getMatcher (cfg : Config) (r : CXXRecordDecl) : bool :=
  isDefinition r
  && negb (excluded cfg (rd_decl r) || isTemplateInstantiation (rd_decl r)
           || isInstantiated (rd_decl r)).
Definition FunctionMatcher_getMatcher (cfg : Config) (f : FunctionDecl) : bool :=
  negb (excluded cfg (fd_decl f) || isTemplateInstantiation (fd_decl f)
        || isInstantiated (fd_decl f)).
Definition UsingMatcher_getMatcher (cfg : Config) (n : NamedDecl) : bool :=
  negb (excluded cfg (nd_decl n) || isInstantiated (nd_decl n)).
Definition EnumMatcher_getMatcher (cfg : Config) (e : EnumDecl) : bool :=
  ed_isDefinition e && negb (excluded cfg (ed_decl e)).
Definition NamespaceMatcher_getMatcher (cfg : Config) (n : NamespaceNode) : bool :=
  negb (excluded cfg (nsd_decl n)).

(** *** getTypeSymbolID *)
Definition getTypeSymbolID (typ : QualType) : SymbolID :=
  let ret :=
    match getAsTagDecl typ with
    | Some decl => Some decl
    | None =>
        if isPointerType typ && bool_decide (is_Some (pointeeAsTagDecl typ))
        then pointeeAsTagDecl typ
        else if isReferenceType typ
                && bool_decide (is_Some (nonReferenceAsTagDecl typ))
        then nonReferenceAsTagDecl typ
        else None
    end in
  match ret with
  | None => nullID
  | Some t =>
      match nonSpecialized t with
      | Some nonspec => buildID nonspec
      | None => buildID (tagDecl t)
      end
  end.

(** The test on private members that every site repeats. *)
Definition isIgnoredPrivate (cfg : Config) (a : AccessSpecifier) : bool :=
  bool_decide (a = AS_private) && ignorePrivateMembers cfg.

Definition attachComment (y : Symbol) (d : Decl) : Symbol :=
  match getCommentForDecl d with
  | Some comment => processSymbolComment y comment
  | None => y
  end.

(** *** Template parameters *)

Definition defaultTypeString (o : option QualType) : string :=
  match o with Some t => getAsString t | None => "" end.
Definition defaultExprString (o : option Expr) : string :=
  match o with Some e => exprToString e | None => "" end.

(** The two cases [FunctionMatcher::run] distinguishes; a template
    template parameter is pushed as default-constructed. *)
Definition functionTemplateParam (parameterDecl : TemplateParamDecl) : TemplateParam :=
  match parameterDecl with
  | TemplateTypeParmDecl pack withTypename nm dflt =>
      mkTemplateParam TemplateTypeParameter nm "" (defaultTypeString dflt)
                      withTypename pack
  | NonTypeTemplateParmDecl pack nm dflt ty =>
      mkTemplateParam NonTypeTemplate nm (getAsString ty)
                      (defaultExprString dflt) false pack
  | TemplateTemplateParmDecl _ _ _ => default_TemplateParam
  end.

(** The three cases of [RecordMatcher::run]; for a template template
    parameter a string literal is assigned to [isParameterPack], which
    converts to [true]. *)
Definition recordTemplateParam (paramDecl : TemplateParamDecl) : TemplateParam :=
  match paramDecl with
  | TemplateTypeParmDecl pack withTypename nm dflt =>
      mkTemplateParam TemplateTypeParameter nm "" (defaultTypeString dflt)
                      withTypename pack
  | NonTypeTemplateParmDecl pack nm dflt ty =>
      mkTemplateParam NonTypeTemplate nm (getAsString ty)
                      (defaultExprString dflt) false pack
  | TemplateTemplateParmDecl src nm _ =>
      mkTemplateParam TemplateTemplateType nm src "" false true
  end.

(** *** FunctionMatcher::run *)

Definition functionParam (i : ParmVarDecl) : FunctionParam :=
  mkFunctionParam (parmName i)
    (mkTypeRef (getAsString (parmType i)) (getTypeSymbolID (parmType i)))
    match parmDefaultArg i with
    | Some (UninstantiatedDefaultArg e) => exprToString e
    | Some (InstantiatedDefaultArg e) => exprToString e
    | None => ""
    end.

Definition functionQualifiers (res : FunctionDecl) : FunctionQualifiers :=
  let conv := asCXXConversionDecl res in
  let ctor := asCXXConstructorDecl res in
  let fp := asFunctionProtoType res in
  let ft := asFunctionType res in
  {| isVariadic := fd_isVariadic res;
     isVirtual := isVirtualAsWritten res;
     isConstexpr := isConstexprSpecified res && negb (isExplicitlyDefaulted res);
     isConsteval := fd_isConsteval res;
     isInline := isInlineSpecified res;
     isNoDiscard := hasWarnUnusedResultAttr res;
     isNoExcept := isNoexceptExceptionSpec res;
     isNoReturn := fd_isNoReturn res;
     isConst := match ft with Some (c, _, _) => c | None => false end;
     isVolatile := match ft with Some (_, v, _) => v | None => false end;
     isRestrict := match ft with Some (_, _, r) => r | None => false end;
     isExplicit :=
       match ctor with
       | Some e => e
       | None => match conv with Some e => e | None => false end
       end;
     isCtorOrDtor :=
       bool_decide (is_Some ctor) || isCXXDestructorDecl res;
     isConversionOp := bool_decide (is_Some conv);
     refQualifier := match fp with Some (q, _) => q | None => RQ_None end;
     storageClass := getStorageClass res;
     hasTrailingReturn := match fp with Some (_, t) => t | None => false end |}.

(** The symbol built for an accepted function. *)
Definition functionSymbol (cfg : Config) (res : FunctionDecl) (id : SymbolID)
    : FunctionSymbol :=
  let d := fd_decl res in
  let q := functionQualifiers res in
  let y := fillOutSymbol (set_ID id default_Symbol) d (rootDir cfg) in
  let y := set_access (getAccess d) y in
  let y := attachComment y d in
  let y := if isCtorOrDtor q then set_name (regex_replace (name y) "<.*>" "") y
           else y in
  let rt := if isCtorOrDtor q then default_TypeRef
            else mkTypeRef (getAsString (getReturnType res))
                           (getTypeSymbolID (getReturnType res)) in
  let tps := match getDescribedFunctionTemplate res with
             | Some ps => map functionTemplateParam ps
             | None => []
             end in
  let f := mkFunctionSymbol y "" 0 0 rt (map functionParam (parameters res))
             tps q false in
  let '(f, proto) := getFunctionSignature f in
  mkFunctionSymbol (fillNamespace (f_sym f) d cfg) proto (postTemplate f)
    (nameStart f) (returnType f) (params f) (f_templateParams f) (f_quals f)
    (isCXXClassMember d).

(** The condition under which the callback returns after counting. *)
Definition FunctionMatcher_ignores (cfg : Config) (res : FunctionDecl) : bool :=
  let d := fd_decl res in
  isInIgnoreList d cfg || negb (sourceRangeIsValid d)
  || (isStatic res && negb (isCXXClassMember d))
  || isInAnonymousNamespace d
  || isIgnoredPrivate cfg (getAccess d).

Definition FunctionMatcher_run (cfg : Config) (res : FunctionDecl)
    (index : Index) : Index :=
  if isDeletedAsWritten res then index
  else if isCXXDeductionGuideDecl res then index
  else
    let index := set_functions (Db.countMatch (functions index)) index in
    if FunctionMatcher_ignores cfg res then index
    else
      let id := buildID (fd_decl res) in
      if Db.contains (functions index) id then index
      else
        let index :=
          set_functions (Db.reserve default_FunctionSymbol id (functions index))
                        index in
        let f := functionSymbol cfg res id in
        set_functions (Db.update (ID (f_sym f)) f (functions index)) index.

(** *** UsingMatcher::run *)

Definition isAlias (k : NamedDeclKind) : bool :=
  match k with OtherNamedDecl => false | _ => true end.

(** The target of an alias; for a [UsingDecl] every shadow overwrites the
    target, so the last one stays. *)
Definition aliasTarget (k : NamedDeclKind) (t : TypeRef) : TypeRef :=
  match k with
  | UsingDecl shadows =>
      for_each shadows
        (fun shadow _ =>
           mkTypeRef (getQualifiedNameAsString (getUnderlyingDecl shadow))
                     (buildID (getUnderlyingDecl shadow)))
        t
  | UsingShadowDecl targetDecl =>
      mkTypeRef (getQualifiedNameAsString targetDecl) (buildID targetDecl)
  | TypeAliasDecl underlying =>
      mkTypeRef (getAsString underlying) (getTypeSymbolID underlying)
  | OtherNamedDecl => t
  end.

Definition aliasSymbol (cfg : Config) (res : NamedDecl) (id : SymbolID)
    : AliasSymbol :=
  let d := nd_decl res in
  let y := fillOutSymbol (set_ID id default_Symbol) d (rootDir cfg) in
  let isRecordMember := isCXXClassMember d in
  let y := if isRecordMember then set_access (getAccess d) y else y in
  let tgt := aliasTarget (nd_kind res) default_TypeRef in
  let y := attachComment y d in
  mkAliasSymbol (fillNamespace y d cfg) tgt isRecordMember.

Definition UsingMatcher_ignores (cfg : Config) (res : NamedDecl) : bool :=
  let d := nd_decl res in
  isInIgnoreList d cfg || negb (sourceRangeIsValid d)
  || isIgnoredPrivate cfg (getAccess d).

Definition UsingMatcher_run (cfg : Config) (res : NamedDecl) (index : Index)
    : Index :=
  if negb (isAlias (nd_kind res)) then index
  else if isFunctionOrMethod (getDeclContext (nd_decl res)) then index
  else
    let index := set_aliases (Db.countMatch (aliases index)) index in
    if UsingMatcher_ignores cfg res then index
    else
      let id := buildID (nd_decl res) in
      if Db.contains (aliases index) id then index
      else
        let index :=
          set_aliases (Db.reserve default_AliasSymbol id (aliases index)) index in
        let a := aliasSymbol cfg res id in
        set_aliases (Db.update (ID (a_sym a)) a (aliases index)) index.

(** *** templateArgsToStrings *)

Definition nextFallback (c : ascii) : ascii :=
  let c' := ascii_of_nat (S (nat_of_ascii c)) in
  if (nat_of_ascii "Z" <? nat_of_ascii c')%nat then "A"%char else c'.

Definition typeParameterName (arg : TemplateArgument) (record : RecordSymbol)
    : string :=
  if isTypeArgument arg then
    match asTemplateTypeParm arg with
    | Some templateType =>
        let replacement :=
          match getIdentifier templateType with
          | Some id => id
          | None => default "" (getDeclName templateType)
          end in
        if String.eqb replacement "" then
          match r_templateParams record !! getIndex templateType with
          | Some p => tp_name p
          | None => ""
          end
        else replacement
    | None => ""
    end
  else "".

(** One iteration of the loop over the arguments; the state is
    [fallbackName] and the vector built so far. *)
Definition templateArgToString (record : RecordSymbol) (arg : TemplateArgument)
    (st : ascii * list string) : ascii * list string :=
  let '(fallbackName, ret) := st in
  let result := printed arg in
  if Str.starts_with result "type-parameter-" then
    let replacement := typeParameterName arg record in
    if String.eqb replacement "" then
      (nextFallback fallbackName, ret ++ [String fallbackName ""])
    else (fallbackName, ret ++ [replacement])
  else (fallbackName, ret ++ [regex_replace result "<.*>" "<...>"]).

Definition templateArgsToStrings (args : list TemplateArgument)
    (record : RecordSymbol) : list string :=
  (for_each args (templateArgToString record) ("T"%char, [])).2.

(** *** RecordMatcher::run *)

Definition memberIgnored (cfg : Config) (d : Decl) : bool :=
  isImplicit d || isInIgnoreList d cfg || isInAnonymousNamespace d
  || isIgnoredPrivate cfg (getAccess d).

(** The loop over [res->methods()]. *)
Definition collectMethods (cfg : Config) (ms : list CXXMethodDecl)
    (ids : list SymbolID) : list SymbolID :=
  for_each ms
    (fun m ids => if memberIgnored cfg (method_decl m) then ids
                  else ids ++ [buildID (getCanonicalDecl m)])
    ids.

(** The first loop over [res->decls()]; the state is
    [(methodIDs, aliasIDs)]. *)
Definition collectDecl (cfg : Config) (d : MemberDecl)
    (st : list SymbolID * list SymbolID) : list SymbolID * list SymbolID :=
  match d with
  | MemberFunctionTemplate ftd =>
      if memberIgnored cfg ftd then st else (st.1 ++ [buildID ftd], st.2)
  | MemberUsingShadow alias | MemberUsing alias | MemberTypeAlias alias =>
      if memberIgnored cfg alias then st else (st.1, st.2 ++ [buildID alias])
  | MemberVar _ | MemberOther => st
  end.

(** The loop over [res->bases()]. *)
Definition collectBase (base : CXXBaseSpecifier) (bs : list BaseRecord)
    : list BaseRecord :=
  match getAsCXXRecordDecl base with
  | Some (baseRecord, isInStdNamespace) =>
      if isInStdNamespace then
        bs ++ [mkBaseRecord (buildID baseRecord) (getAccessSpecifier base)
                            ("std::" +:+ getNameAsString baseRecord)]
      else
        bs ++ [mkBaseRecord (buildID baseRecord) (getAccessSpecifier base)
                            (getNameAsString baseRecord)]
  | None => bs
  end.

(** The paragraph loops over a member's comment: [=] for member
    variables, [+=] for enumerators. *)
Definition lastParagraph (comment : option Comment) (doc : string) : string :=
  for_each (default [] comment)
    (fun c doc => match c with
                  | ParagraphComment p => getParaCommentContents p
                  | OtherBlock => doc
                  end)
    doc.
Definition allParagraphs (comment : option Comment) (doc : string) : string :=
  for_each (default [] comment)
    (fun c doc => match c with
                  | ParagraphComment p => doc +:+ getParaCommentContents p
                  | OtherBlock => doc
                  end)
    doc.

Definition isAnonRecordMemberVar (t : QualType) : bool :=
  Str.contains (getAsString t) "anonymous ".

Definition memberType (anonymous : bool) (t : QualType) : TypeRef :=
  if anonymous then mkTypeRef "anonymous struct/union" nullID
  else mkTypeRef (getAsString t) (getTypeSymbolID t).

(** The loop over [res->fields()]. *)
Definition collectField (cfg : Config) (field : FieldDecl)
    (vs : list MemberVariable) : list MemberVariable :=
  if isIgnoredPrivate cfg (field_access field) then vs
  else
    vs ++ [mkMemberVariable (field_name field)
             (memberType (isAnonymousStructOrUnion field
                          || isAnonRecordMemberVar (field_type field))
                         (field_type field))
             (defaultExprString (getInClassInitializer field))
             (field_access field) false
             (lastParagraph (field_comment field) "")].

(** The second loop over [res->decls()], for the static members. *)
Definition collectStatic (cfg : Config) (d : MemberDecl)
    (vs : list MemberVariable) : list MemberVariable :=
  match d with
  | MemberVar vd =>
      if isIgnoredPrivate cfg (var_access vd) then vs
      else
        vs ++ [mkMemberVariable (var_name vd)
                 (memberType (isAnonRecordMemberVar (var_type vd)) (var_type vd))
                 (defaultExprString (getInit vd))
                 (var_access vd) true
                 (lastParagraph (var_comment vd) "")]
  | _ => vs
  end.

Definition recordSymbol (cfg : Config) (res : CXXRecordDecl) (id : SymbolID)
    (cachedName : string) : RecordSymbol :=
  let d := rd_decl res in
  let y := fillOutSymbol (set_ID id default_Symbol) d (rootDir cfg) in
  let y := if String.eqb (name y) "" then set_name cachedName y else y in
  let y := match getDeclContext d with
           | CXXRecordContext parentName _ =>
               set_name (parentName +:+ "::" +:+ name y) y
           | _ => y
           end in
  let methodIDs := collectMethods cfg (methods res) [] in
  let '(methodIDs, aliasIDs) :=
    for_each (decls res) (collectDecl cfg) (methodIDs, []) in
  let baseRecords :=
    if isThisDeclarationADefinition res then for_each (bases res) collectBase []
    else [] in
  let templateParams :=
    match getDescribedTemplateParams res with
    | Some ps => map recordTemplateParam ps
    | None => []
    end in
  let c := mkRecordSymbol y (getKindName res) "" templateParams baseRecords
             methodIDs aliasIDs [] in
  let y := match asSpecialization res with
           | Some spec_ =>
               set_name (name y +:+ "<"
                         +:+ String.concat ", "
                               (templateArgsToStrings (getTemplateArgs spec_) c)
                         +:+ ">") y
           | None => y
           end in
  let c := mkRecordSymbol y (getKindName res) "" templateParams baseRecords
             methodIDs aliasIDs [] in
  let proto := getRecordProto c in
  let vars := for_each (fields res) (collectField cfg) [] in
  let vars := for_each (decls res) (collectStatic cfg) vars in
  let y := attachComment y d in
  mkRecordSymbol (fillNamespace y d cfg) (getKindName res) proto templateParams
    baseRecords methodIDs aliasIDs vars.

Definition RecordMatcher_ignores (cfg : Config) (res : CXXRecordDecl) : bool :=
  let d := rd_decl res in
  negb (isCompleteDefinition res) || negb (sourceRangeIsValid d)
  || isInIgnoreList d cfg || isInAnonymousNamespace d.

Definition RecordMatcher_run (cfg : Config) (res : CXXRecordDecl)
    (index : Index) : Index :=
  let index := set_records (Db.countMatch (records index)) index in
  if RecordMatcher_ignores cfg res then index
  else
    let unnamed := String.eqb (getNameAsString (rd_decl res)) "" in
    let cachedName :=
      if unnamed then default "" (getTypedefNameForAnonDecl res) else "" in
    if unnamed && String.eqb cachedName "" then index
    else if match asSpecialization res with
            | Some s => negb (hasTypeAsWritten s)
            | None => false
            end then index
    else
      let id := buildID (rd_decl res) in
      if Db.contains (records index) id then index
      else
        let index :=
          set_records (Db.reserve default_RecordSymbol id (records index)) index in
        let c := recordSymbol cfg res id cachedName in
        set_records (Db.update (ID (r_sym c)) c (records index)) index.

(** *** EnumMatcher::run *)

Definition enumSymbol (cfg : Config) (res : EnumDecl) (id : SymbolID)
    : EnumSymbol :=
  let d := ed_decl res in
  let y := fillOutSymbol (set_ID id default_Symbol) d (rootDir cfg) in
  let y := match getDeclContext d with
           | CXXRecordContext parentName _ =>
               set_name (parentName +:+ "::" +:+ name y) y
           | _ => y
           end in
  let type :=
    if isScoped res then
      if isScopedUsingClassTag res then "enum class" else "enum struct"
    else "enum" in
  let members :=
    map (fun m => mkEnumMember (ec_name m) (getInitVal m)
                    (allParagraphs (ec_comment m) ""))
        (enumerators res) in
  let y := attachComment y d in
  mkEnumSymbol (fillNamespace y d cfg) type members.

Definition EnumMatcher_ignores (cfg : Config) (res : EnumDecl) : bool :=
  let d := ed_decl res in
  String.eqb (getNameAsString d) "" || isInIgnoreList d cfg
  || isInAnonymousNamespace d.

Definition EnumMatcher_run (cfg : Config) (res : EnumDecl) (index : Index)
    : Index :=
  let index := set_enums (Db.countMatch (enums index)) index in
  if EnumMatcher_ignores cfg res then index
  else
    let id := buildID (ed_decl res) in
    if Db.contains (enums index) id then index
    else
      let index :=
        set_enums (Db.reserve default_EnumSymbol id (enums index)) index in
      let e := enumSymbol cfg res id in
      set_enums (Db.update (ID (e_sym e)) e (enums index)) index.

(** *** NamespaceMatcher::run *)

Definition namespaceSymbol (cfg : Config) (res : NamespaceNode) (id : SymbolID)
    : NamespaceSymbol :=
  let d := nsd_decl res in
  let y := fillOutSymbol (set_ID id default_Symbol) d (rootDir cfg) in
  mkNamespaceSymbol (fillNamespace y d cfg) [] [] [] [].

Definition NamespaceMatcher_ignores (cfg : Config) (res : NamespaceNode) : bool :=
  let d := nsd_decl res in
  String.eqb (getNameAsString d) "" || isInIgnoreList d cfg
  || isInAnonymousNamespace d.

Definition NamespaceMatcher_run (cfg : Config) (res : NamespaceNode)
    (index : Index) : Index :=
  let index := set_namespaces (Db.countMatch (namespaces index)) index in
  if NamespaceMatcher_ignores cfg res then index
  else
    let id := buildID (nsd_decl res) in
    if Db.contains (namespaces index) id then index
    else
      let index :=
        set_namespaces (Db.reserve default_NamespaceSymbol id (namespaces index))
                       index in
      let n := namespaceSymbol cfg res id in
      set_namespaces (Db.update (ID (n_sym n)) n (namespaces index)) index.

End callbacks.
End Matchers.

(** ** support/StringUtils.hpp *)

Module StringUtils.

(** The scan of [replaceAll]: [skip] counts the characters of a match that
    are still to be dropped. *)
Fixpoint replaceAll_scan (from to : string) (skip : nat) (str : string)
    {struct str} : string :=
  match skip with
  | S skip' =>
      match str with
      | EmptyString => EmptyString
      | String _ str' => replaceAll_scan from to skip' str'
      end
  | O =>
      if String.prefix from str then
        to +:+ match str with
               | EmptyString => EmptyString
               | String _ str' =>
                   replaceAll_scan from to (String.length from - 1) str'
               end
      else
        match str with
        | EmptyString => EmptyString
        | String c str' => String c (replaceAll_scan from to 0 str')
        end
  end.

(** Modelled from the spec: [hdoc::utils::replaceAll(str, from, to)] of
    [support/StringUtils.hpp] is not part of the sources; it returns [str]
    with all occurrences of [from] replaced by [to].  Occurrences are taken
    from left to right without overlap and the inserted text is not searched
    again; [from] is never empty where the Indexer calls it. *)
Definition replaceAll (str from to : string) : string :=
  if String.eqb from "" then str else replaceAll_scan from to 0 str.

End StringUtils.

(** ** Sequences of post-passes *)

Module PostPasses.

Inductive Pass : Type :=
  | PruneMethods | ResolveNamespaces | UpdateRecordNames
  | UpdateMemberFunctions | PruneTypeRefs.

Global Instance Pass_eq_dec : EqDecision Pass.
Proof. solve_decision. Defined.

Section with_replaceAll.
Variable replaceAll : string -> string -> string -> string.

Definition runPass (p : Pass) (idx : Index) : option Index :=
  match p with
  | PruneMethods => Some (Indexer.pruneMethods idx)
  | ResolveNamespaces => Some (Indexer.resolveNamespaces idx)
  | UpdateRecordNames => Some (Indexer.updateRecordNames idx)
  | UpdateMemberFunctions =>
      MemberFunctions.updateMemberFunctions replaceAll idx
  | PruneTypeRefs => Some (Indexer.pruneTypeRefs idx)
  end.

(** The passes of [ps] one after the other. *)
Definition runPasses (ps : list Pass) (idx : Index) : option Index :=
  for_each_try ps runPass idx.

(** Modelled from the spec: the caller of the post-passes ([main.cpp])
    is not part of the sources; the order is the fixed one of the
    specification. *)
Definition order : list Pass :=
  [PruneMethods; ResolveNamespaces; UpdateRecordNames;
   UpdateMemberFunctions; PruneTypeRefs].

Definition run (idx : Index) : option Index := runPasses order idx.
End with_replaceAll.

End PostPasses.

(** ** Properties of an Index *)

Module Props.

(** [id] resolves to a record, an enum or an alias of the Index. *)
Definition resolves (idx : Index) (id : SymbolID) : Prop :=
  is_Some (entries (records idx) !! id)
  \/ is_Some (entries (enums idx) !! id)
  \/ is_Some (entries (aliases idx) !! id).

Global Instance resolves_dec idx id : Decision (resolves idx id).
Proof. unfold resolves. apply _. Defined.

(** [t'] is [t] with the cross-link cut when it does not resolve in [idx]:
    the name is kept, and the id is kept exactly when it resolves. *)
Definition severed (idx : Index) (t t' : TypeRef) : Prop :=
  tr_name t' = tr_name t
  /\ tr_id t' = if decide (resolves idx (tr_id t)) then tr_id t else nullID.

Definition param_severed (idx : Index) (p p' : FunctionParam) : Prop :=
  fp_name p' = fp_name p /\ fp_defaultValue p' = fp_defaultValue p
  /\ severed idx (fp_type p) (fp_type p').

Definition var_severed (idx : Index) (v v' : MemberVariable) : Prop :=
  mv_name v' = mv_name v /\ mv_defaultValue v' = mv_defaultValue v
  /\ mv_access v' = mv_access v /\ mv_isStatic v' = mv_isStatic v
  /\ mv_docComment v' = mv_docComment v
  /\ severed idx (mv_type v) (mv_type v').

(** [f'] differs from [f] at most in the ids of its return type and of its
    parameter types. *)
Definition function_severed (idx : Index) (f f' : FunctionSymbol) : Prop :=
  exists rt ps,
    f' = mkFunctionSymbol (f_sym f) (f_proto f) (postTemplate f) (nameStart f)
           rt ps (f_templateParams f) (f_quals f) (f_isRecordMember f)
    /\ severed idx (returnType f) rt
    /\ Forall2 (param_severed idx) (params f) ps.

Definition record_severed (idx : Index) (c c' : RecordSymbol) : Prop :=
  exists vs,
    c' = mkRecordSymbol (r_sym c) (r_type c) (r_proto c) (r_templateParams c)
           (baseRecords c) (methodIDs c) (aliasIDs c) vs
    /\ Forall2 (var_severed idx) (vars c) vs.

Definition alias_severed (idx : Index) (a a' : AliasSymbol) : Prop :=
  exists t,
    a' = mkAliasSymbol (a_sym a) t (a_isRecordMember a)
    /\ severed idx (target a) t.

Definition linked (idx : Index) (t : TypeRef) : Prop :=
  tr_id t = nullID \/ resolves idx (tr_id t).

(** Every TypeRef of a function return type, a function parameter, a
    member variable or an alias target is null or resolves. *)
Definition typeRefs_linked (idx : Index) : Prop :=
  (forall k f, entries (functions idx) !! k = Some f ->
     linked idx (returnType f)
     /\ Forall (fun p => linked idx (fp_type p)) (params f))
  /\ (forall k c, entries (records idx) !! k = Some c ->
        Forall (fun v => linked idx (mv_type v)) (vars c))
  /\ (forall k a, entries (aliases idx) !! k = Some a ->
        linked idx (target a)).

(** *** Proto offsets *)

(** The size of a [std::string] is a [size_t]. *)
Definition fits_size_t (s : string) : Prop := Str.size s < 2 ^ 64.

(** [0 <= postTemplate <= nameStart <= len(proto)] *)
Definition offsets_ordered (f : FunctionSymbol) : Prop :=
  0 <= postTemplate f /\ postTemplate f <= nameStart f
  /\ nameStart f <= Str.size (f_proto f).


(** [s[a:b]] *)
Definition slice (s : string) (a b : Z) : string :=
  String.substring (Z.to_nat a) (Z.to_nat b - Z.to_nat a) s.

(** The partition of a proto at its two offsets. *)
Definition templatePart (f : FunctionSymbol) : string :=
  slice (f_proto f) 0 (postTemplate f).
Definition preNamePart (f : FunctionSymbol) : string :=
  slice (f_proto f) (postTemplate f) (nameStart f).
Definition restPart (f : FunctionSymbol) : string :=
  slice (f_proto f) (nameStart f) (Str.size (f_proto f)).


(** [f'] agrees with [f] on everything but proto, offsets, name and
    parameters. *)
Definition same_but_signature (f f' : FunctionSymbol) : Prop :=
  set_name "" (f_sym f') = set_name "" (f_sym f)
  /\ returnType f' = returnType f
  /\ f_templateParams f' = f_templateParams f
  /\ f_quals f' = f_quals f
  /\ f_isRecordMember f' = f_isRecordMember f.



(** The (record, method ID) pairs in the order in which
    updateMemberFunctions visits them. *)
Definition visits (idx : Index) : list (RecordSymbol * SymbolID) :=
  c ← Db.values (records idx); (fun mid => (c, mid)) <$> methodIDs c.


(** *** Namespaces and their children *)

(** Every entry of [db] is stored under its own ID. *)
Definition keyed_by_ID {T : Type} (sym : T -> Symbol) (db : Database T) : Prop :=
  map_Forall (fun k v => ID (sym v) = k) (entries db).

Definition no_children (ns : NamespaceSymbol) : Prop :=
  ns_records ns = [] /\ ns_enums ns = [] /\ ns_namespaces ns = []
  /\ ns_usings ns = [].

(** A SymbolID names one declaration, hence a symbol of one kind. *)
Definition one_kind_per_ID (idx : Index) : Prop :=
  let r := dom (entries (records idx)) in
  let e := dom (entries (enums idx)) in
  let n := dom (entries (namespaces idx)) in
  let a := dom (entries (aliases idx)) in
  r ## e /\ r ## n /\ r ## a /\ e ## n /\ e ## a /\ n ## a.

(** The Index as the extractors leave it: entries are stored under their
    ID, an ID is used by one kind of symbol, and no namespace has children
    yet. *)
Definition extracted (idx : Index) : Prop :=
  keyed_by_ID r_sym (records idx) /\ keyed_by_ID e_sym (enums idx)
  /\ keyed_by_ID n_sym (namespaces idx) /\ keyed_by_ID a_sym (aliases idx)
  /\ map_Forall (fun _ ns => no_children ns) (entries (namespaces idx))
  /\ one_kind_per_ID idx.

Global Instance extracted_dec idx : Decision (extracted idx).
Proof.
  unfold extracted, keyed_by_ID, no_children, one_kind_per_ID. apply _.
Defined.

(** [id] is the ID of a symbol of [db] whose parent pointer is [ns]. *)
Definition child_in {T : Type} (sym : T -> Symbol) (db : Database T)
    (ns : NamespaceSymbol) (id : SymbolID) : Prop :=
  exists k s, entries db !! k = Some s /\ ID (sym s) = id
              /\ parentNamespaceID (sym s) = ID (n_sym ns).

(** The four child lists of [ns] hold exactly the IDs of the symbols whose
    parent pointer is [ns], each list those of its kind, and no ID occurs
    twice in them. *)
Definition child_lists_consistent (idx : Index) (ns : NamespaceSymbol) : Prop :=
  NoDup (ns_records ns ++ ns_enums ns ++ ns_namespaces ns ++ ns_usings ns)
  /\ (forall id, id ∈ ns_records ns <-> child_in r_sym (records idx) ns id)
  /\ (forall id, id ∈ ns_enums ns <-> child_in e_sym (enums idx) ns id)
  /\ (forall id, id ∈ ns_namespaces ns <-> child_in n_sym (namespaces idx) ns id)
  /\ (forall id, id ∈ ns_usings ns <-> child_in a_sym (aliases idx) ns id).

(** The entry of one base in the inheritance list: the keyword of its
    access followed by a space, then its name; no keyword for [AS_none]. *)
Definition baseEntry (b : BaseRecord) : string :=
  match br_access b with
  | AS_public => "public " +:+ br_name b
  | AS_private => "private " +:+ br_name b
  | AS_protected => "protected " +:+ br_name b
  | AS_none => br_name b
  end.

(** The proto of a record once its inheritance list is appended. *)
Definition withInheritance (proto : string) (bases : list BaseRecord) : string :=
  match bases with
  | [] => proto
  | _ :: _ => proto +:+ " : " +:+ String.concat ", " (map baseEntry bases)
  end.

End Props.

(** ** Closed forms of the passes

    What the loops of the post-passes compute, written without loops; the
    theorems relate the passes to these. *)

Module ClosedForms.
Import Indexer Props.

(** The IDs a database holds. *)
Definition ids {T : Type} (d : Database T) : gset SymbolID := dom (entries d).

(** A database with [g] applied to every entry. *)
Definition mapDb {T : Type} (g : T -> T) (db : Database T) : Database T :=
  mkDatabase (g <$> entries db) (numMatches db).

(** [haveId] only depends on which IDs the three databases hold. *)
Definition same_ids (i j : Index) : Prop :=
  dom (entries (records i)) = dom (entries (records j))
  /\ dom (entries (enums i)) = dom (entries (enums j))
  /\ dom (entries (aliases i)) = dom (entries (aliases j)).

(** The inheritance list built by the iterations after the first one. *)
Fixpoint moreBases (l : list BaseRecord) : string :=
  match l with
  | [] => ""
  | b :: l' => ", " +:+ baseEntry b +:+ moreBases l'
  end.

(** The [Symbol] bases of a database, in iteration order. *)
Definition symbols {T : Type} (sym : T -> Symbol) (db : Database T) : list Symbol :=
  sym <$> Db.values db.

(** The IDs one inner loop of resolveNamespaces appends, in iteration
    order. *)
Definition childIDs (ys : list Symbol) (nsym : Symbol) : list SymbolID :=
  ID <$> filter (fun y => isChild nsym y = true) ys.

(** The body of the outer loop of resolveNamespaces. *)
Definition resolved (idx : Index) (ns : NamespaceSymbol) : NamespaceSymbol :=
  let y := n_sym ns in
  mkNamespaceSymbol y
    (ns_records ns ++ childIDs (symbols r_sym (records idx)) y)
    (ns_enums ns ++ childIDs (symbols e_sym (enums idx)) y)
    (ns_namespaces ns ++ childIDs (symbols n_sym (namespaces idx)) y)
    (ns_usings ns ++ childIDs (symbols a_sym (aliases idx)) y).

(** What no post-pass changes in a function or in a record. *)
Definition fkeep (f f' : FunctionSymbol) : Prop :=
  parentNamespaceID (f_sym f') = parentNamespaceID (f_sym f)
  /\ f_isRecordMember f' = f_isRecordMember f.
Definition rkeep (r r' : RecordSymbol) : Prop :=
  methodIDs r' = methodIDs r /\ ID (r_sym r') = ID (r_sym r).

Definition keeps (i i' : Index) : Prop :=
  (forall k, option_Forall2 fkeep (entries (functions i) !! k)
                                  (entries (functions i') !! k))
  /\ (forall k, option_Forall2 rkeep (entries (records i) !! k)
                                     (entries (records i') !! k)).

(** The invariant of a sequence of post-passes started on [i]: records
    keep their method lists, every function still stored comes from [i]
    with its parent pointer, and once pruneMethods has run ([pruned]) the
    functions stored are those of [i] that are not methods of an absent
    record. *)
Definition reached (pruned : bool) (i j : Index) : Prop :=
  (forall k, option_Forall2 rkeep (entries (records i) !! k)
                                  (entries (records j) !! k))
  /\ (forall mid f', entries (functions j) !! mid = Some f' ->
        exists f, entries (functions i) !! mid = Some f /\ fkeep f f'
                  /\ (pruned = true -> isOrphan i f = false))
  /\ (forall mid f, entries (functions i) !! mid = Some f ->
        entries (functions j) !! mid = None ->
        pruned = true /\ isOrphan i f = true).

End ClosedForms.

(** ** Concrete Indexes and AST nodes used to exercise the definitions *)

Module Examples.

Definition emptyDb {T : Type} : Database T := mkDatabase ∅ 0.
Definition emptyIndex : Index :=
  mkIndex emptyDb emptyDb emptyDb emptyDb emptyDb.

Definition sym (id : SymbolID) (nm : string) (parent : SymbolID)
    (a : AccessSpecifier) : Symbol :=
  mkSymbol id nm nm "src/a.hpp" 1 parent "" "" a.

(** [struct D : public B, private C {};] *)
Definition recD : RecordSymbol :=
  mkRecordSymbol (sym 3 "D" 0 AS_none) "struct" "struct D" []
    [mkBaseRecord 1 AS_public "B"; mkBaseRecord 2 AS_private "C"] [] [] [].

Definition idxD : Index :=
  mkIndex emptyDb (mkDatabase {[3 := recD]} 1) emptyDb emptyDb emptyDb.

(** [namespace a { struct R; enum E; namespace b { using U = R; } }] *)
Definition nsA : NamespaceSymbol :=
  mkNamespaceSymbol (sym 1 "a" 0 AS_none) [] [] [] [].
Definition nsB : NamespaceSymbol :=
  mkNamespaceSymbol (sym 5 "b" 1 AS_none) [] [] [] [].
Definition recR : RecordSymbol :=
  mkRecordSymbol (sym 2 "R" 1 AS_none) "struct" "struct R" [] [] [] [] [].
Definition enumE : EnumSymbol := mkEnumSymbol (sym 3 "E" 1 AS_none) "enum" [].
Definition aliasU : AliasSymbol :=
  mkAliasSymbol (sym 4 "U" 5 AS_none) (mkTypeRef "a::R" 2) false.

Definition idxN : Index :=
  mkIndex emptyDb (mkDatabase {[2 := recR]} 1) (mkDatabase {[3 := enumE]} 1)
          (mkDatabase (<[1 := nsA]> {[5 := nsB]}) 2)
          (mkDatabase {[4 := aliasU]} 1).

(** [template <class T> struct S { void f(T x); };] with [f] defined
    outside of the class body. *)
Definition tparam (nm : string) : TemplateParam :=
  mkTemplateParam TemplateTypeParameter nm "" "" false false.
Definition recS : RecordSymbol :=
  mkRecordSymbol (sym 10 "S" 0 AS_none) "struct" "template <class T> struct S"
    [tparam "T"] [] [11] [] [].
Definition quals : FunctionQualifiers := Matchers.default_FunctionQualifiers.
Definition funF : FunctionSymbol :=
  mkFunctionSymbol (sym 11 "f" 10 AS_public)
    "template <class T> void f(type-parameter-0-0 x)" 19 24
    (mkTypeRef "void" 0)
    [mkFunctionParam "x" (mkTypeRef "type-parameter-0-0" 0) ""] [] quals true.
Definition idxS : Index :=
  mkIndex (mkDatabase {[11 := funF]} 1) (mkDatabase {[10 := recS]} 1)
          emptyDb emptyDb emptyDb.


(** [class C { public: C() = delete; };]: the record lists the deleted
    constructor (ID 21), which the function callback never indexes. *)
Definition recC : RecordSymbol :=
  mkRecordSymbol (sym 20 "C" 0 AS_none) "class" "class C" [] [] [21] [] [].
Definition idxC : Index :=
  mkIndex emptyDb (mkDatabase {[20 := recC]} 1) emptyDb emptyDb emptyDb.

(** *** AST nodes and stand-ins for the helpers outside the sources

    The callbacks are parameterised by the helpers of [MatcherUtils.hpp];
    to run them on a concrete node the examples use the simplest helpers
    of the right type: nothing is on an ignore list, an ID is an injective
    code of the qualified name, and a symbol is filled with the node's
    name. *)
Definition regex_replace (s re fmt : string) : string := s.
Definition isInIgnoreList (d : Clang.Decl) (cfg : Config) : bool := false.
Definition isInAnonymousNamespace (d : Clang.Decl) : bool := false.
Definition buildID (d : Clang.Decl) : SymbolID :=
  Z.pos (encode (Clang.getQualifiedNameAsString d)).
Definition fillOutSymbol (y : Symbol) (d : Clang.Decl) (root : string) : Symbol :=
  mkSymbol (ID y) (Clang.getNameAsString d) (Clang.getQualifiedNameAsString d)
           (default "" (Clang.fileEntryName d)) 1 (parentNamespaceID y)
           (docCommentBrief y) (docCommentLong y) (access y).
Definition fillNamespace (y : Symbol) (d : Clang.Decl) (cfg : Config) : Symbol := y.
Definition processSymbolComment (y : Symbol) (c : Clang.Comment) : Symbol := y.
Definition getFunctionSignature (f : FunctionSymbol) : FunctionSymbol * string :=
  (f, tr_name (returnType f) +:+ " " +:+ name (f_sym f) +:+ "()").
Definition getRecordProto (c : RecordSymbol) : string :=
  r_type c +:+ " " +:+ name (r_sym c).
Definition exprToString (e : Clang.Expr) : string := e.
Definition getParaCommentContents (p : string) : string := p.

Definition cfgPrivate : Config := mkConfig "/repo" [] [] true.
Definition cfgDetail : Config := mkConfig "/repo" [] ["detail"] false.

Definition decl (ctx : Clang.DeclContext) (a : AccessSpecifier)
    (member : bool) (nm qualified : string) : Clang.Decl :=
  Clang.mkDecl ctx true (Some "src/a.hpp") true false false false false false
               a member nm qualified None.

(** [class Outer { struct Secret {}; enum Hidden { h }; };], both members
    private. *)
Definition outerCtx : Clang.DeclContext :=
  Clang.CXXRecordContext "Outer" Clang.TranslationUnitDecl.
Definition declSecret : Clang.CXXRecordDecl :=
  Clang.mkCXXRecordDecl (decl outerCtx AS_private true "Secret" "Outer::Secret")
    true true None None [] [] true [] "struct" None [].
Definition declHidden : Clang.EnumDecl :=
  Clang.mkEnumDecl (decl outerCtx AS_private true "Hidden" "Outer::Hidden")
    true false false [Clang.mkEnumConstantDecl "h" 0 None].

(** [namespace ns { namespace detail { struct Impl {}; } }] *)
Definition detailCtx : Clang.DeclContext :=
  Clang.NamespaceDecl false "detail"
    (Clang.NamespaceDecl false "ns" Clang.TranslationUnitDecl).
Definition declImpl : Clang.CXXRecordDecl :=
  Clang.mkCXXRecordDecl
    (decl detailCtx AS_none false "Impl" "ns::detail::Impl")
    true true None None [] [] true [] "struct" None [].

(** [struct W { W() = delete; };]: the deleted constructor. *)
Definition functionDecl (d : Clang.Decl) (deleted guide : bool)
    : Clang.FunctionDecl :=
  Clang.mkFunctionDecl d deleted guide false None None false false false false
    false false false false false false SC_None None None [] None
    (Clang.mkQualType "void" None false None false None).
Definition declDeleted : Clang.FunctionDecl :=
  functionDecl
    (decl (Clang.CXXRecordContext "W" Clang.TranslationUnitDecl) AS_public true
          "W" "W::W")
    true false.

(** [void g();] at namespace scope. *)
Definition declPlain : Clang.FunctionDecl :=
  functionDecl (decl Clang.TranslationUnitDecl AS_none false "g" "g")
               false false.


End Examples.

(** ** Further properties of the passes *)

Module PassProps.
Import Props.

(** An offset of [f] lies beyond the end of its proto: the [substr] call
    that takes it as position throws. *)
Definition offset_out_of_range (f : FunctionSymbol) : Prop :=
  Str.size (f_proto f) < postTemplate f \/ Str.size (f_proto f) < nameStart f.

(** [p'] has the name and the type id of [p]. *)
Definition param_kept (p p' : FunctionParam) : Prop :=
  fp_name p' = fp_name p /\ tr_id (fp_type p') = tr_id (fp_type p).

(** [f'] differs from [f] at most in proto, offsets, name, and in the type
    names and default values of its parameters. *)
Definition signature_only (f f' : FunctionSymbol) : Prop :=
  same_but_signature f f' /\ Forall2 param_kept (params f) (params f').

(** The functions of [i'] are those of [i] up to their signatures, and
    everything else is as in [i]. *)
Definition rewrites_only (i i' : Index) : Prop :=
  records i' = records i /\ enums i' = enums i
  /\ namespaces i' = namespaces i /\ aliases i' = aliases i
  /\ numMatches (functions i') = numMatches (functions i)
  /\ forall mid, option_Forall2 signature_only
                   (entries (functions i) !! mid) (entries (functions i') !! mid).

(** The five match counters. *)
Definition counters (i : Index) : Z * Z * Z * Z * Z :=
  (numMatches (functions i), numMatches (records i), numMatches (enums i),
   numMatches (namespaces i), numMatches (aliases i)).

(** [i'] stores no function that [i] does not store, the same records,
    namespaces and aliases as [i] by ID, the enums of [i], and has the
    match counters of [i]. *)
Definition symbols_kept (i i' : Index) : Prop :=
  dom (entries (functions i')) ⊆ dom (entries (functions i))
  /\ dom (entries (records i')) = dom (entries (records i))
  /\ enums i' = enums i
  /\ dom (entries (namespaces i')) = dom (entries (namespaces i))
  /\ dom (entries (aliases i')) = dom (entries (aliases i))
  /\ counters i' = counters i.

End PassProps.

(** ** Further Indexes used to exercise the definitions *)

Module MoreExamples.
Import Examples.

(** [struct P { int get(int n); };]: a record without template
    parameters and its method. *)
Definition recP : RecordSymbol :=
  mkRecordSymbol (sym 30 "P" 0 AS_none) "struct" "struct P" [] [] [31] [] [].
Definition funP : FunctionSymbol :=
  mkFunctionSymbol (sym 31 "get" 30 AS_public) "int get(int n)" 0 4
    (mkTypeRef "int" 0) [mkFunctionParam "n" (mkTypeRef "int" 0) ""] []
    quals true.
Definition idxP : Index :=
  mkIndex (mkDatabase {[31 := funP]} 1) (mkDatabase {[30 := recP]} 1)
          emptyDb emptyDb emptyDb.

(** [class Box { int secret; public: int shown; void open();
    private: void lock(); };] *)
Definition intType : Clang.QualType :=
  Clang.mkQualType "int" None false None false None.
Definition boxCtx : Clang.DeclContext :=
  Clang.CXXRecordContext "Box" Clang.TranslationUnitDecl.
Definition method (a : AccessSpecifier) (nm qualified : string)
    : Clang.CXXMethodDecl :=
  Clang.mkCXXMethodDecl (decl boxCtx a true nm qualified)
                        (decl boxCtx a true nm qualified).
Definition declBox : Clang.CXXRecordDecl :=
  Clang.mkCXXRecordDecl
    (decl Clang.TranslationUnitDecl AS_none false "Box" "Box")
    true true None None
    [method AS_public "open" "Box::open"; method AS_private "lock" "Box::lock"]
    [] true [] "class" None
    [Clang.mkFieldDecl AS_private "secret" None false intType None;
     Clang.mkFieldDecl AS_public "shown" None false intType None].

(** [struct Node;] as a type, and the types [Node*] and [Node&]. *)
Definition tagNode : Clang.TagDecl :=
  Clang.mkTagDecl (decl Clang.TranslationUnitDecl AS_none false "Node" "Node")
                  None.
Definition typeNode : Clang.QualType :=
  Clang.mkQualType "Node" (Some tagNode) false None false None.
Definition typeNodePtr : Clang.QualType :=
  Clang.mkQualType "Node *" None true (Some tagNode) false None.
Definition typeNodeRef : Clang.QualType :=
  Clang.mkQualType "Node &" None false None true (Some tagNode).

End MoreExamples.

(** ** Further properties of the matchers *)

Module MatcherProps.
Import Clang Matchers.

(** The names of the non-anonymous namespaces that enclose a declaration
    context, innermost first. *)
Fixpoint namedNamespaces (dc : DeclContext) : list string :=
  match dc with
  | TranslationUnitDecl => []
  | NamespaceDecl isAnonymous nm parent =>
      if isAnonymous then namedNamespaces parent
      else nm :: namedNamespaces parent
  | CXXRecordContext _ parent
  | FunctionContext parent
  | OtherContext parent => namedNamespaces parent
  end.

(** [sub] occurs in [s]. *)
Definition occurs_in (sub s : string) : Prop := Str.contains s sub = true.

(** The paragraphs of a comment, in order. *)
Definition paragraphs (comment : option Comment) : list string :=
  omap (fun c => match c with
                 | ParagraphComment p => Some p
                 | OtherBlock => None
                 end)
       (default [] comment).

(** The capital letter that serves as the [k]-th fallback name of a
    template argument: T, U, ..., Z, A, B, ... *)
Definition fallbackLetter (k : nat) : ascii :=
  ascii_of_nat (65 + (19 + k) mod 26).

(** The argument is printed as a placeholder and no name is found for
    it. *)
Definition usesFallback (record : RecordSymbol) (arg : TemplateArgument) : bool :=
  Str.starts_with (printed arg) "type-parameter-"
  && String.eqb (typeParameterName arg record) "".

(** How many of the arguments before position [i] use a fallback name. *)
Definition fallbacksBefore (record : RecordSymbol) (args : list TemplateArgument)
    (i : nat) : nat :=
  length (filter (fun arg => usesFallback record arg = true) (take i args)).

(** The SymbolID of a tag declaration: that of its non-specialized
    version when it has one. *)
Definition tagID (buildID : Decl -> SymbolID) (t : TagDecl) : SymbolID :=
  match nonSpecialized t with
  | Some nonspec => buildID nonspec
  | None => buildID (tagDecl t)
  end.

(** Every symbol of the Index is stored under its own ID, and no namespace
    has children: what resolveNamespaces expects of the extraction. *)
Definition well_keyed (i : Index) : Prop :=
  Props.keyed_by_ID f_sym (functions i)
  /\ Props.keyed_by_ID r_sym (records i)
  /\ Props.keyed_by_ID e_sym (enums i)
  /\ Props.keyed_by_ID n_sym (namespaces i)
  /\ Props.keyed_by_ID a_sym (aliases i)
  /\ map_Forall (fun _ ns => Props.no_children ns) (entries (namespaces i)).

(** The Index with one more match counted in one of its databases. *)
Definition counted_functions (i : Index) : Index :=
  set_functions (Db.countMatch (functions i)) i.
Definition counted_records (i : Index) : Index :=
  set_records (Db.countMatch (records i)) i.
Definition counted_enums (i : Index) : Index :=
  set_enums (Db.countMatch (enums i)) i.
Definition counted_namespaces (i : Index) : Index :=
  set_namespaces (Db.countMatch (namespaces i)) i.
Definition counted_aliases (i : Index) : Index :=
  set_aliases (Db.countMatch (aliases i)) i.

End MatcherProps.

(** * Theorems *)

(** ** Range-for loops that mutate every entry of a database *)

Section loops.
Context {T : Type}.
Implicit Types (m : gmap SymbolID T) (db : Database T).

Lemma foldl_alter_lookup (g : T -> T) (ks : list SymbolID) m k :
  NoDup ks ->
  foldl (fun acc k => alter g k acc) m ks !! k
  = if decide (k ∈ ks) then g <$> m !! k else m !! k.
Proof.
  intros Hnd. revert m. induction Hnd as [|k0 ks Hnin Hnd IH]; intros m; cbn [foldl].
  - case_decide as H; [by apply elem_of_nil in H | done].
  - rewrite IH. destruct (decide (k = k0)) as [->|Hne].
    + rewrite lookup_alter_eq.
      rewrite (decide_False (P := k0 ∈ ks)) by done.
      rewrite decide_True by (apply elem_of_cons; by left). done.
    + rewrite lookup_alter_ne by done.
      destruct (decide (k ∈ ks)) as [Hin|Hin].
      * rewrite decide_True by (apply elem_of_cons; by right). done.
      * rewrite decide_False; [done|].
        intros [?|?]%elem_of_cons; done.
Qed.

Lemma foldl_alter_all (g : T -> T) m :
  foldl (fun acc k => alter g k acc) m (map_to_list m).*1 = g <$> m.
Proof.
  apply map_eq; intros k.
  rewrite foldl_alter_lookup by apply NoDup_fst_map_to_list.
  rewrite lookup_fmap. case_decide as H; [done|].
  destruct (m !! k) as [v|] eqn:E; [|done].
  exfalso; apply H. apply list_elem_of_fmap. exists (k, v); split; [done|].
  by apply elem_of_map_to_list.
Qed.
End loops.

(** A loop [for (auto& [k, v] : db.entries) v = body(v)], where [body] may read
    the whole Index but sees of [db] only a [view] that the loop does not
    change. *)
Section lens_loop.
Context {T V : Type} (get : Index -> Database T)
        (set : Database T -> Index -> Index) (body : Index -> T -> T)
        (view : Database T -> V).
Hypothesis get_set : forall d i, get (set d i) = d.
Hypothesis set_set : forall d d' i, set d (set d' i) = set d i.
Hypothesis set_get : forall i, set (get i) i = i.
Hypothesis view_modify : forall k i d, view (Db.modify k (body i) d) = view d.
Hypothesis body_stable : forall i d v,
  view d = view (get i) -> body (set d i) v = body i v.

Local Abbreviation step :=
  (fun (k : SymbolID) (i : Index) => set (Db.modify k (body i) (get i)) i).

Lemma for_each_step_from ks i0 m :
  view (mkDatabase m (numMatches (get i0))) = view (get i0) ->
  for_each ks step (set (mkDatabase m (numMatches (get i0))) i0)
  = set (mkDatabase (foldl (fun acc k => alter (body i0) k acc) m ks)
                    (numMatches (get i0))) i0.
Proof.
  revert m. induction ks as [|k ks IH]; intros m Hd; [done|].
  unfold for_each in *. cbn [foldl]. cbv beta.
  rewrite get_set, set_set. unfold Db.modify; cbn [entries numMatches].
  rewrite (alter_ext _ (body i0)).
  - apply IH. rewrite <- Hd.
    apply (view_modify k i0 (mkDatabase m (numMatches (get i0)))).
  - intros v _. by apply body_stable.
Qed.

Lemma for_each_entry_fmap i0 :
  for_each (Db.keys (get i0)) step i0
  = set (mkDatabase (body i0 <$> entries (get i0)) (numMatches (get i0))) i0.
Proof.
  rewrite <- (set_get i0) at 2.
  destruct (get i0) as [m n] eqn:E.
  replace n with (numMatches (get i0)) by (by rewrite E).
  unfold Db.keys; cbn [entries].
  rewrite for_each_step_from by (by rewrite E).
  by rewrite foldl_alter_all, E.
Qed.
End lens_loop.

Import ClosedForms.

Lemma ids_modify {T : Type} k (g : T -> T) (d : Database T) :
  ids (Db.modify k g d) = ids d.
Proof. apply dom_alter_L. Qed.

(** ** pruneTypeRefs *)

Module PruneTypeRefsFacts.
Import Indexer.

Lemma contains_dom {T U : Type} (d : Database T) (d' : Database U) id :
  dom (entries d) = dom (entries d') -> Db.contains d id = Db.contains d' id.
Proof.
  intros Hd. unfold Db.contains. apply bool_decide_ext.
  by rewrite <- !elem_of_dom, Hd.
Qed.

Lemma contains_mapDb {T : Type} (g : T -> T) (d : Database T) id :
  Db.contains (mapDb g d) id = Db.contains d id.
Proof. apply contains_dom. cbn. apply dom_fmap_L. Qed.

Lemma haveId_same_ids i j id : same_ids i j -> haveId i id = haveId j id.
Proof.
  intros (Hr & He & Ha). unfold haveId.
  by rewrite (contains_dom _ _ id Hr), (contains_dom _ _ id He),
             (contains_dom _ _ id Ha).
Qed.

Lemma pruneRef_same_ids i j t : same_ids i j -> pruneRef i t = pruneRef j t.
Proof. intros H. unfold pruneRef. by rewrite (haveId_same_ids i j _ H). Qed.

Lemma pruneFunction_same_ids i j v :
  same_ids i j -> pruneFunction i v = pruneFunction j v.
Proof.
  intros H. unfold pruneFunction. rewrite (pruneRef_same_ids i j _ H).
  f_equal. apply map_ext; intros p. by rewrite (pruneRef_same_ids i j _ H).
Qed.

Lemma pruneRecord_same_ids i j v :
  same_ids i j -> pruneRecord i v = pruneRecord j v.
Proof.
  intros H. unfold pruneRecord. f_equal.
  apply map_ext; intros p. by rewrite (pruneRef_same_ids i j _ H).
Qed.

Lemma pruneAlias_same_ids i j v :
  same_ids i j -> pruneAlias i v = pruneAlias j v.
Proof. intros H. unfold pruneAlias. by rewrite (pruneRef_same_ids i j _ H). Qed.

Lemma mapDb_ext {T : Type} (g h : T -> T) (d : Database T) :
  (forall v, g v = h v) -> mapDb g d = mapDb h d.
Proof.
  intros H. unfold mapDb. f_equal. apply map_fmap_ext; intros k v _. apply H.
Qed.

(** The three loops, each as one map over its database. *)
Lemma pruneTypeRefs_unfold idx :
  pruneTypeRefs idx
  = mkIndex (mapDb (pruneFunction idx) (functions idx))
            (mapDb (pruneRecord idx) (records idx))
            (enums idx) (namespaces idx)
            (mapDb (pruneAlias idx) (aliases idx)).
Proof.
  unfold pruneTypeRefs.
  rewrite (for_each_entry_fmap functions set_functions pruneFunction ids);
    [| by intros ? [] | by intros ? ? [] | by intros [] |
       intros; apply ids_modify |
       intros i d v _; apply pruneFunction_same_ids; by destruct i].
  fold (mapDb (pruneFunction idx) (functions idx)).
  set (i1 := set_functions _ idx).
  rewrite (for_each_entry_fmap records set_records pruneRecord ids);
    [| by intros ? [] | by intros ? ? [] | by intros [] |
       intros; apply ids_modify |
       intros i d v Hd; apply pruneRecord_same_ids; by destruct i].
  fold (mapDb (pruneRecord i1) (records i1)).
  set (i2 := set_records _ i1).
  rewrite (for_each_entry_fmap aliases set_aliases pruneAlias ids);
    [| by intros ? [] | by intros ? ? [] | by intros [] |
       intros; apply ids_modify |
       intros i d v Hd; apply pruneAlias_same_ids; by destruct i].
  fold (mapDb (pruneAlias i2) (aliases i2)).
  assert (H1 : same_ids i1 idx) by (by destruct idx).
  assert (H2 : same_ids i2 idx).
  { destruct idx; repeat split; try done. cbn. apply dom_fmap_L. }
  rewrite (mapDb_ext (pruneAlias i2) (pruneAlias idx))
    by (intros v; by apply pruneAlias_same_ids).
  subst i2.
  rewrite (mapDb_ext (pruneRecord i1) (pruneRecord idx))
    by (intros v; by apply pruneRecord_same_ids).
  subst i1. by destruct idx.
Qed.
End PruneTypeRefsFacts.

Module PruneTypeRefsProofs.
Import Indexer Props ClosedForms PruneTypeRefsFacts.

Lemma haveId_resolves idx id : haveId idx id = true <-> resolves idx id.
Proof.
  unfold haveId, resolves, Db.contains.
  rewrite !orb_true_iff, !bool_decide_eq_true. tauto.
Qed.

Lemma pruneRef_severed idx t : severed idx t (pruneRef idx t).
Proof.
  unfold severed, pruneRef.
  destruct (haveId idx (tr_id t)) eqn:E; cbn.
  - apply haveId_resolves in E. by rewrite decide_True.
  - rewrite decide_False; [done|]. rewrite <- haveId_resolves. congruence.
Qed.

Lemma pruneRef_linked idx t : linked idx (pruneRef idx t).
Proof.
  unfold linked, pruneRef.
  destruct (haveId idx (tr_id t)) eqn:E; cbn; [right|by left].
  by apply haveId_resolves.
Qed.

Lemma pruneRef_idem idx t : pruneRef idx (pruneRef idx t) = pruneRef idx t.
Proof.
  unfold pruneRef at 2.
  destruct (haveId idx (tr_id t)) eqn:E; cbn.
  - unfold pruneRef. by rewrite E.
  - unfold pruneRef. rewrite E. cbn. destruct (haveId idx nullID); reflexivity.
Qed.

Lemma pruneFunction_idem idx f :
  pruneFunction idx (pruneFunction idx f) = pruneFunction idx f.
Proof.
  destruct f as [y p pt ns rt ps tps q rm]. unfold pruneFunction; cbn.
  unfold set_params, set_returnType; cbn. rewrite pruneRef_idem. f_equal.
  rewrite map_map. apply map_ext; intros x. unfold set_fp_type; cbn.
  by rewrite pruneRef_idem.
Qed.

Lemma pruneRecord_idem idx c :
  pruneRecord idx (pruneRecord idx c) = pruneRecord idx c.
Proof.
  destruct c. unfold pruneRecord, set_vars; cbn. f_equal.
  rewrite map_map. apply map_ext; intros x. unfold set_mv_type; cbn.
  by rewrite pruneRef_idem.
Qed.

Lemma pruneAlias_idem idx a :
  pruneAlias idx (pruneAlias idx a) = pruneAlias idx a.
Proof.
  destruct a. unfold pruneAlias, set_target; cbn. by rewrite pruneRef_idem.
Qed.

Lemma pruneFunction_severed idx f : function_severed idx f (pruneFunction idx f).
Proof.
  eexists _, _. split; [reflexivity|]. split; [apply pruneRef_severed|].
  cbn. induction (params f) as [|p ps IH]; constructor; [|done].
  repeat split; apply pruneRef_severed.
Qed.

Lemma pruneRecord_severed idx c : record_severed idx c (pruneRecord idx c).
Proof.
  eexists. split; [reflexivity|].
  induction (vars c) as [|p ps IH]; constructor; [|done].
  repeat split; apply pruneRef_severed.
Qed.

Lemma pruneAlias_severed idx a : alias_severed idx a (pruneAlias idx a).
Proof. eexists. split; [reflexivity|]. apply pruneRef_severed. Qed.

Lemma same_ids_pruned idx : same_ids (pruneTypeRefs idx) idx.
Proof.
  rewrite pruneTypeRefs_unfold. repeat split; cbn; try done; apply dom_fmap_L.
Qed.

Lemma resolves_same_ids i j id : same_ids i j -> resolves i id <-> resolves j id.
Proof.
  intros H. rewrite <- !haveId_resolves. by rewrite (haveId_same_ids i j id H).
Qed.
End PruneTypeRefsProofs.

Module PruneTypeRefsTheorems.
Import Indexer Props ClosedForms PruneTypeRefsFacts PruneTypeRefsProofs.

(** C7. pruneTypeRefs nulls the id of exactly those TypeRefs of function
    return types, function parameters, record member variables and alias
    targets whose id does not resolve to a record, enum or alias of the
    Index, and changes nothing else: the same keys are stored, every name
    and every other field is as before, enums, namespaces and the match
    counters are untouched; afterwards each of these ids is null or
    resolves. *)
Theorem pruneTypeRefs_severs_exactly (idx : Index) :
  let idx' := pruneTypeRefs idx in
  (forall k, option_Forall2 (function_severed idx)
               (entries (functions idx) !! k) (entries (functions idx') !! k))
  /\ (forall k, option_Forall2 (record_severed idx)
                  (entries (records idx) !! k) (entries (records idx') !! k))
  /\ (forall k, option_Forall2 (alias_severed idx)
                  (entries (aliases idx) !! k) (entries (aliases idx') !! k))
  /\ enums idx' = enums idx
  /\ namespaces idx' = namespaces idx
  /\ numMatches (functions idx') = numMatches (functions idx)
  /\ numMatches (records idx') = numMatches (records idx)
  /\ numMatches (aliases idx') = numMatches (aliases idx)
  /\ typeRefs_linked idx'.
Proof.
  intros idx'.
  assert (Hids : same_ids idx' idx) by apply same_ids_pruned.
  subst idx'. revert Hids. rewrite pruneTypeRefs_unfold.
  set (idx' := mkIndex _ _ _ _ _). intros Hids.
  assert (Hl : forall t, linked idx' (pruneRef idx t)).
  { intros t. destruct (pruneRef_linked idx t) as [H|H]; [by left|right].
    by apply (resolves_same_ids idx' idx). }
  repeat split; try reflexivity.
  - intros k. cbn. rewrite lookup_fmap.
    destruct (entries (functions idx) !! k); constructor.
    apply pruneFunction_severed.
  - intros k. cbn. rewrite lookup_fmap.
    destruct (entries (records idx) !! k); constructor.
    apply pruneRecord_severed.
  - intros k. cbn. rewrite lookup_fmap.
    destruct (entries (aliases idx) !! k); constructor.
    apply pruneAlias_severed.
  - cbn in H. rewrite lookup_fmap in H.
    destruct (entries (functions idx) !! k) as [f0|]; [|done].
    injection H as <-. apply Hl.
  - cbn in H. rewrite lookup_fmap in H.
    destruct (entries (functions idx) !! k) as [f0|]; [|done].
    injection H as <-. cbn. apply Forall_forall. intros p Hp.
    apply list_elem_of_In, in_map_iff in Hp as (p0 & <- & _). apply Hl.
  - intros k c H. cbn in H. rewrite lookup_fmap in H.
    destruct (entries (records idx) !! k) as [c0|]; [|done].
    injection H as <-. cbn. apply Forall_forall. intros p Hp.
    apply list_elem_of_In, in_map_iff in Hp as (p0 & <- & _). apply Hl.
  - intros k a H. cbn in H. rewrite lookup_fmap in H.
    destruct (entries (aliases idx) !! k) as [a0|]; [|done].
    injection H as <-. apply Hl.
Qed.

(** C10. pruneTypeRefs is idempotent: a second application leaves the Index
    of the first one as it is. *)
Theorem pruneTypeRefs_idempotent (idx : Index) :
  pruneTypeRefs (pruneTypeRefs idx) = pruneTypeRefs idx.
Proof.
  pose proof (same_ids_pruned idx) as Hids.
  rewrite (pruneTypeRefs_unfold (pruneTypeRefs idx)).
  rewrite (mapDb_ext (pruneFunction (pruneTypeRefs idx)) (pruneFunction idx))
    by (intros v; by apply pruneFunction_same_ids).
  rewrite (mapDb_ext (pruneRecord (pruneTypeRefs idx)) (pruneRecord idx))
    by (intros v; by apply pruneRecord_same_ids).
  rewrite (mapDb_ext (pruneAlias (pruneTypeRefs idx)) (pruneAlias idx))
    by (intros v; by apply pruneAlias_same_ids).
  rewrite pruneTypeRefs_unfold. cbn. unfold mapDb; cbn.
  rewrite <- !map_fmap_compose. f_equal; f_equal.
  - apply map_fmap_ext; intros k f _. apply pruneFunction_idem.
  - apply map_fmap_ext; intros k c _. apply pruneRecord_idem.
  - apply map_fmap_ext; intros k a _. apply pruneAlias_idem.
Qed.
End PruneTypeRefsTheorems.

(** ** Facts on strings *)

Module StrFacts.

Lemma app_cons a s t : String a s +:+ t = String a (s +:+ t).
Proof. reflexivity. Qed.

Lemma app_nil_l t : "" +:+ t = t.
Proof. reflexivity. Qed.

Lemma app_nil_r s : s +:+ "" = s.
Proof. induction s as [|a s IH]; [done|]. by rewrite app_cons, IH. Qed.

Lemma app_assoc s t u : (s +:+ t) +:+ u = s +:+ t +:+ u.
Proof. induction s as [|a s IH]; [done|]. by rewrite !app_cons, IH. Qed.

Lemma length_app s t :
  String.length (s +:+ t) = (String.length s + String.length t)%nat.
Proof. induction s as [|a s IH]; [done|]. rewrite app_cons. cbn. by rewrite IH. Qed.

Lemma size_app s t : Str.size (s +:+ t) = Str.size s + Str.size t.
Proof. unfold Str.size. rewrite length_app. lia. Qed.

Lemma size_nonneg s : 0 <= Str.size s.
Proof. unfold Str.size. lia. Qed.

Lemma substring_0_length s t :
  String.substring 0 (String.length s) (s +:+ t) = s.
Proof. induction s as [|a s IH]; [by destruct t|]. rewrite app_cons. cbn. by rewrite IH. Qed.


Lemma substring_all s : String.substring 0 (String.length s) s = s.
Proof. rewrite <- (app_nil_r s) at 2. apply substring_0_length. Qed.

(** A string is split by [substring] at any position within it. *)
Lemma substring_split s n :
  (n <= String.length s)%nat ->
  String.substring 0 n s +:+ String.substring n (String.length s - n) s = s.
Proof.
  revert n. induction s as [|a s IH]; intros [|n] Hn; cbn in *; try lia; try done.
  - by rewrite substring_all.
  - rewrite app_cons. f_equal. apply IH. lia.
Qed.

Lemma length_substring s n m :
  (n + m <= String.length s)%nat -> String.length (String.substring n m s) = m.
Proof.
  revert n m. induction s as [|a s IH]; intros [|n] [|m] H; cbn in *; try lia; try done.
  - rewrite IH; lia.
  - apply IH. lia.
  - apply IH; lia.
Qed.

Lemma substring_substring_0 s n m :
  (m <= n)%nat -> String.substring 0 m (String.substring 0 n s) = String.substring 0 m s.
Proof.
  revert n m. induction s as [|a s IH]; intros [|n] [|m] H; cbn in *; try lia; try done.
  f_equal. apply IH. lia.
Qed.

Lemma prefix_app s t : String.prefix s (s +:+ t) = true.
Proof. apply String.prefix_correct. apply substring_0_length. Qed.

End StrFacts.

(** ** updateRecordNames *)

Module UpdateRecordNamesProofs.
Import Indexer Props ClosedForms StrFacts.

Lemma concat_moreBases b l :
  String.concat ", " (map baseEntry (b :: l)) = baseEntry b +:+ moreBases l.
Proof.
  revert b. induction l as [|b' l IH]; intros b.
  - cbn. by rewrite app_nil_r.
  - cbn [map String.concat moreBases] in *. by rewrite IH.
Qed.

Lemma accessKeyword_entry b : accessKeyword (br_access b) +:+ br_name b = baseEntry b.
Proof. unfold baseEntry. by destruct (br_access b). Qed.

Lemma appendBase_later l count proto :
  0 < count -> count + Z.of_nat (length l) < 2 ^ 64 ->
  (for_each l appendBase (count, proto)).2 = proto +:+ moreBases l.
Proof.
  revert count proto. induction l as [|b l IH]; intros count proto Hc Hl.
  - cbn. by rewrite app_nil_r.
  - unfold for_each in *. cbn [foldl appendBase]. cbn [length] in Hl.
    replace (0 <? count) with true by (symmetry; apply Z.ltb_lt; lia).
    rewrite Z.mod_small by lia.
    rewrite IH by lia. cbn [moreBases].
    by rewrite <- accessKeyword_entry, !app_assoc.
Qed.

Lemma updateRecordName_proto c :
  Z.of_nat (length (baseRecords c)) < 2 ^ 64 ->
  updateRecordName c = set_r_proto (withInheritance (r_proto c) (baseRecords c)) c.
Proof.
  intros Hl. unfold updateRecordName, withInheritance.
  destruct (baseRecords c) as [|b l] eqn:E.
  - cbn. destruct c; cbn in *. by subst.
  - replace (0 <? Z.of_nat (length (b :: l))) with true
      by (symmetry; apply Z.ltb_lt; cbn [length]; lia).
    f_equal. unfold for_each. cbn [foldl appendBase]. cbn [length] in Hl.
    change (0 <? 0) with false. cbv iota. change ((0 + 1) `mod` 2 ^ 64) with 1.
    pose proof (appendBase_later l 1 (((r_proto c +:+ " : ")
      +:+ accessKeyword (br_access b)) +:+ br_name b)) as H.
    unfold for_each in H. rewrite H by lia.
    rewrite concat_moreBases, <- accessKeyword_entry. by rewrite !app_assoc.
Qed.

Lemma updateRecordNames_unfold idx :
  updateRecordNames idx
  = set_records (mapDb updateRecordName (records idx)) idx.
Proof.
  unfold updateRecordNames.
  rewrite (for_each_entry_fmap records set_records (fun _ => updateRecordName)
             (fun _ => tt));
    [done | by intros ? [] | by intros ? ? [] | by intros [] | done | done].
Qed.
End UpdateRecordNamesProofs.

Module UpdateRecordNamesTheorems.
Import Indexer Props UpdateRecordNamesProofs.


End UpdateRecordNamesTheorems.

(** ** resolveNamespaces *)

Module ResolveNamespacesProofs.
Import Indexer Props ClosedForms PruneTypeRefsFacts.

Section inner_loop.
Context {T : Type} (sym : T -> Symbol)
        (push : SymbolID -> NamespaceSymbol -> NamespaceSymbol).
Hypothesis push_sym : forall i ns, n_sym (push i ns) = n_sym ns.

Lemma addChildren_pushes db ns :
  addChildren sym push db ns
  = for_each (childIDs (symbols sym db) (n_sym ns)) push ns.
Proof.
  unfold addChildren, symbols, childIDs, for_each.
  generalize (Db.values db) as vs. intros vs. revert ns.
  induction vs as [|v vs IH]; intros ns; [done|].
  cbn [foldl fmap list_fmap]. rewrite filter_cons.
  destruct (isChild (n_sym ns) (sym v)) eqn:E.
  - rewrite decide_True by done. cbn [fmap list_fmap foldl].
    rewrite IH. by rewrite push_sym.
  - rewrite decide_False by congruence. apply IH.
Qed.
End inner_loop.

Lemma push_records_all l ns :
  for_each l push_records ns
  = mkNamespaceSymbol (n_sym ns) (ns_records ns ++ l) (ns_enums ns)
                      (ns_namespaces ns) (ns_usings ns).
Proof.
  unfold for_each. revert ns. induction l as [|i l IH]; intros ns; cbn [foldl].
  - rewrite app_nil_r. by destruct ns.
  - rewrite IH. cbn. by rewrite <- app_assoc.
Qed.
Lemma push_enums_all l ns :
  for_each l push_enums ns
  = mkNamespaceSymbol (n_sym ns) (ns_records ns) (ns_enums ns ++ l)
                      (ns_namespaces ns) (ns_usings ns).
Proof.
  unfold for_each. revert ns. induction l as [|i l IH]; intros ns; cbn [foldl].
  - rewrite app_nil_r. by destruct ns.
  - rewrite IH. cbn. by rewrite <- app_assoc.
Qed.
Lemma push_namespaces_all l ns :
  for_each l push_namespaces ns
  = mkNamespaceSymbol (n_sym ns) (ns_records ns) (ns_enums ns)
                      (ns_namespaces ns ++ l) (ns_usings ns).
Proof.
  unfold for_each. revert ns. induction l as [|i l IH]; intros ns; cbn [foldl].
  - rewrite app_nil_r. by destruct ns.
  - rewrite IH. cbn. by rewrite <- app_assoc.
Qed.
Lemma push_usings_all l ns :
  for_each l push_usings ns
  = mkNamespaceSymbol (n_sym ns) (ns_records ns) (ns_enums ns)
                      (ns_namespaces ns) (ns_usings ns ++ l).
Proof.
  unfold for_each. revert ns. induction l as [|i l IH]; intros ns; cbn [foldl].
  - rewrite app_nil_r. by destruct ns.
  - rewrite IH. cbn. by rewrite <- app_assoc.
Qed.

Lemma resolveNamespace_resolved idx ns : resolveNamespace idx ns = resolved idx ns.
Proof.
  unfold resolveNamespace, resolved.
  rewrite (addChildren_pushes r_sym push_records) by done.
  rewrite push_records_all.
  rewrite (addChildren_pushes e_sym push_enums) by done.
  rewrite push_enums_all.
  rewrite (addChildren_pushes n_sym push_namespaces) by done.
  rewrite push_namespaces_all.
  rewrite (addChildren_pushes a_sym push_usings) by done.
  rewrite push_usings_all. reflexivity.
Qed.

(** Mutating an entry keeps the iteration order, hence the list of the
    [Symbol] bases when the mutation leaves the base alone. *)
Lemma symbols_modify {T : Type} (sym : T -> Symbol) k (g : T -> T) db :
  (forall v, sym (g v) = sym v) ->
  symbols sym (Db.modify k g db) = symbols sym db.
Proof.
  intros Hg. unfold symbols, Db.values, Db.modify. cbn [entries].
  destruct (entries db !! k) as [x|] eqn:E.
  - assert (alter g k (entries db) = <[k := g x]> (entries db)) as ->.
    { apply map_eq; intros j. destruct (decide (j = k)) as [->|].
      - by rewrite lookup_alter_eq, lookup_insert_eq, E.
      - by rewrite lookup_alter_ne, lookup_insert_ne. }
    apply elem_of_map_to_list, list_elem_of_lookup in E as [j Hj].
    rewrite (map_to_list_update _ j k x (g x) Hj).
    rewrite !list_fmap_insert. cbn. rewrite Hg.
    apply list_insert_id. rewrite !list_lookup_fmap, Hj. done.
  - assert (alter g k (entries db) = entries db) as ->; [|done].
    apply map_eq; intros j. destruct (decide (j = k)) as [->|].
    + by rewrite lookup_alter_eq, E.
    + by rewrite lookup_alter_ne.
Qed.

Lemma resolveNamespaces_unfold idx :
  resolveNamespaces idx
  = set_namespaces (mapDb (resolved idx) (namespaces idx)) idx.
Proof.
  unfold resolveNamespaces.
  rewrite (for_each_entry_fmap namespaces set_namespaces resolveNamespace
             (symbols n_sym));
    [| by intros ? [] | by intros ? ? [] | by intros [] | |].
  - unfold mapDb. do 2 f_equal. apply map_fmap_ext; intros k v _.
    apply resolveNamespace_resolved.
  - intros k i d. apply symbols_modify. intros v.
    by rewrite resolveNamespace_resolved.
  - intros i d v Hd. rewrite !resolveNamespace_resolved.
    unfold resolved. destruct i; cbn in *. by rewrite Hd.
Qed.
End ResolveNamespacesProofs.

Module ResolveNamespacesTheorems.
Import Indexer Props ClosedForms PruneTypeRefsFacts ResolveNamespacesProofs.

Lemma elem_of_values {T : Type} (db : Database T) v :
  v ∈ Db.values db <-> exists k, entries db !! k = Some v.
Proof.
  unfold Db.values. rewrite list_elem_of_fmap. split.
  - intros ([k v'] & -> & H). exists k. by apply elem_of_map_to_list.
  - intros [k H]. exists (k, v). split; [done|]. by apply elem_of_map_to_list.
Qed.

Lemma childIDs_elem {T : Type} (sym : T -> Symbol) db nsym id :
  id ∈ childIDs (symbols sym db) nsym
  <-> exists k s, entries db !! k = Some s /\ ID (sym s) = id
                  /\ parentNamespaceID (sym s) = ID nsym.
Proof.
  unfold childIDs, symbols. rewrite list_elem_of_fmap. split.
  - intros (y & -> & Hy). apply list_elem_of_filter in Hy as [Hc Hy].
    apply list_elem_of_fmap in Hy as (s & -> & Hs).
    apply elem_of_values in Hs as [k Hk]. exists k, s.
    repeat split; [done|]. by apply Z.eqb_eq.
  - intros (k & s & Hk & <- & Hp). exists (sym s). split; [done|].
    apply list_elem_of_filter. split; [by apply Z.eqb_eq|].
    apply list_elem_of_fmap. exists s. split; [done|].
    apply elem_of_values. by exists k.
Qed.

Lemma keyed_IDs {T : Type} (sym : T -> Symbol) (db : Database T) :
  keyed_by_ID sym db -> ID <$> symbols sym db = Db.keys db.
Proof.
  intros Hk. unfold symbols, Db.values, Db.keys.
  rewrite <- !list_fmap_compose. apply list_fmap_ext.
  intros i [k v] Hin. cbn. apply (Hk k v).
  apply elem_of_map_to_list. by apply list_elem_of_lookup_2 in Hin.
Qed.

Lemma childIDs_NoDup {T : Type} (sym : T -> Symbol) db nsym :
  keyed_by_ID sym db -> NoDup (childIDs (symbols sym db) nsym).
Proof.
  intros Hk. unfold childIDs.
  eapply sublist_NoDup; [|apply fmap_sublist, sublist_filter].
  rewrite (keyed_IDs sym db Hk). apply NoDup_fst_map_to_list.
Qed.

Lemma childIDs_dom {T : Type} (sym : T -> Symbol) db nsym id :
  keyed_by_ID sym db -> id ∈ childIDs (symbols sym db) nsym ->
  id ∈ dom (entries db).
Proof.
  intros Hk (k & s & Hs & <- & _)%childIDs_elem.
  rewrite (Hk k s Hs). by apply elem_of_dom_2 in Hs.
Qed.

Lemma child_in_resolved idx ns id :
  child_in n_sym (mapDb (resolved idx) (namespaces idx)) ns id
  <-> child_in n_sym (namespaces idx) ns id.
Proof.
  unfold child_in, mapDb; cbn [entries]. split.
  - intros (k & s & Hs & Hid & Hp). rewrite lookup_fmap in Hs.
    destruct (entries (namespaces idx) !! k) as [s0|] eqn:E; [|done].
    injection Hs as <-. by exists k, s0.
  - intros (k & s & Hs & Hid & Hp). exists k, (resolved idx s).
    by rewrite lookup_fmap, Hs.
Qed.

Lemma resolved_consistent idx ns :
  extracted idx -> no_children ns ->
  child_lists_consistent
    (set_namespaces (mapDb (resolved idx) (namespaces idx)) idx)
    (resolved idx ns).
Proof.
  intros (Hr & He & Hn & Ha & _ & Hdisj) (E1 & E2 & E3 & E4).
  destruct Hdisj as (D1 & D2 & D3 & D4 & D5 & D6).
  unfold child_lists_consistent, resolved.
  cbn [ns_records ns_enums ns_namespaces ns_usings n_sym].
  rewrite E1, E2, E3, E4, !app_nil_l.
  destruct idx as [fs rs es nss als];
    cbn [set_namespaces records enums namespaces aliases] in *.
  split; [|split; [|split; [|split]]].
  - rewrite !NoDup_app. repeat split; try (by apply childIDs_NoDup).
    + intros id Hi. apply (childIDs_dom _ _ _ _ Hr) in Hi.
      rewrite !elem_of_app.
      intros [Hj|[Hj|Hj]];
        [apply (childIDs_dom _ _ _ _ He) in Hj
        |apply (childIDs_dom _ _ _ _ Hn) in Hj
        |apply (childIDs_dom _ _ _ _ Ha) in Hj]; set_solver.
    + intros id Hi. apply (childIDs_dom _ _ _ _ He) in Hi.
      rewrite !elem_of_app.
      intros [Hj|Hj];
        [apply (childIDs_dom _ _ _ _ Hn) in Hj
        |apply (childIDs_dom _ _ _ _ Ha) in Hj]; set_solver.
    + intros id Hi. apply (childIDs_dom _ _ _ _ Hn) in Hi.
      intros Hj. apply (childIDs_dom _ _ _ _ Ha) in Hj. set_solver.
  - intros id. apply childIDs_elem.
  - intros id. apply childIDs_elem.
  - intros id.
    rewrite (child_in_resolved (mkIndex fs rs es nss als)
               (mkNamespaceSymbol (n_sym ns) _ _ _ _) id).
    apply childIDs_elem.
  - intros id. apply childIDs_elem.
Qed.

(** C8. After resolveNamespaces, run on the Index the extractors leave
    (entries stored under their ID, one kind of symbol per ID, no child
    lists yet), every record, enum, namespace or alias whose
    parentNamespaceID is the ID of a namespace of the Index has its ID in
    exactly one of that namespace's four child lists, the one of its kind,
    exactly once; conversely every entry of a child list is the ID of a
    symbol of that kind whose parentNamespaceID is the namespace's ID.  The
    pass changes nothing but the child lists. *)
Theorem resolveNamespaces_children (idx : Index) (Hwf : extracted idx) :
  let idx' := resolveNamespaces idx in
  (forall k ns', entries (namespaces idx') !! k = Some ns' ->
     child_lists_consistent idx' ns')
  /\ (forall k, option_Forall2 (fun ns ns' => n_sym ns' = n_sym ns)
                  (entries (namespaces idx) !! k)
                  (entries (namespaces idx') !! k))
  /\ numMatches (namespaces idx') = numMatches (namespaces idx)
  /\ functions idx' = functions idx
  /\ records idx' = records idx
  /\ enums idx' = enums idx
  /\ aliases idx' = aliases idx.
Proof.
  intros idx'. subst idx'. rewrite resolveNamespaces_unfold.
  split; [|split; [|by destruct idx]].
  - intros k ns' H.
    assert (exists ns, entries (namespaces idx) !! k = Some ns
                       /\ ns' = resolved idx ns) as (ns & Hk & ->).
    { destruct idx as [fs rs es nss als]; cbn in *. rewrite lookup_fmap in H.
      destruct (entries nss !! k) as [ns|]; [|done].
      injection H as <-. by exists ns. }
    apply resolved_consistent; [done|].
    destruct Hwf as (_ & _ & _ & _ & Hempty & _). by apply (Hempty k).
  - intros k. destruct idx as [fs rs es nss als]; cbn. rewrite lookup_fmap.
    destruct (entries nss !! k); by constructor.
Qed.

Lemma resolveNamespaces_children_witness :
  extracted Examples.idxN
  /\ forall k ns',
       entries (namespaces (resolveNamespaces Examples.idxN)) !! k = Some ns' ->
       child_lists_consistent (resolveNamespaces Examples.idxN) ns'.
Proof.
  assert (H : extracted Examples.idxN).
  { apply (bool_decide_unpack _). vm_compute. exact I. }
  split; [exact H|].
  exact (proj1 (resolveNamespaces_children Examples.idxN H)).
Defined.
End ResolveNamespacesTheorems.

(** ** updateMemberFunctions *)

Module MemberFunctionsProofs.
Import Indexer MemberFunctions Props StrFacts.

Lemma substring_add s n m1 m2 :
  String.substring n (m1 + m2) s
  = String.substring n m1 s +:+ String.substring (n + m1) m2 s.
Proof.
  revert n m1. induction s as [|a s IH]; intros n m1.
  - destruct n, m1, m2; reflexivity.
  - destruct n as [|n].
    + destruct m1 as [|m1]; [reflexivity|].
      cbn [Nat.add String.substring]. rewrite app_cons. f_equal.
      apply (IH 0%nat m1).
    + cbn [Nat.add String.substring]. apply IH.
Qed.

(** With ordered offsets the three [substr] calls succeed and cut the proto
    into three consecutive pieces. *)
Lemma splitProto_ordered f :
  offsets_ordered f -> fits_size_t (f_proto f) ->
  splitProto f = Some (templatePart f, preNamePart f, restPart f)
  /\ f_proto f = templatePart f +:+ preNamePart f +:+ restPart f
  /\ Str.size (templatePart f) = postTemplate f
  /\ Str.size (templatePart f) + Str.size (preNamePart f) = nameStart f.
Proof.
  intros (H0 & H1 & H2) Hfit. unfold fits_size_t in Hfit.
  unfold splitProto, Str.substr_from, Str.substr, Str.sub64, Str.npos.
  unfold templatePart, preNamePart, restPart, slice.
  set (p := f_proto f) in *. set (a := postTemplate f) in *.
  set (b := nameStart f) in *.
  assert (Hsz : Str.size p = Z.of_nat (String.length p)) by done.
  replace (Str.size p <? 0) with false by (symmetry; apply Z.ltb_ge; lia).
  replace (Str.size p <? a) with false by (symmetry; apply Z.ltb_ge; lia).
  replace (Str.size p <? b) with false by (symmetry; apply Z.ltb_ge; lia).
  cbn [mbind option_bind].
  rewrite (Z.mod_small (b - a)) by lia.
  rewrite Z.min_l by lia. rewrite Z.min_l by lia. rewrite Z.min_r by lia.
  assert (Ha : (Z.to_nat a <= String.length p)%nat) by lia.
  assert (Hb : (Z.to_nat b <= String.length p)%nat) by lia.
  replace (Z.to_nat (Str.size p - b)) with (String.length p - Z.to_nat b)%nat by lia.
  replace (Z.to_nat (Str.size p) - Z.to_nat b)%nat
    with (String.length p - Z.to_nat b)%nat by lia.
  replace (Z.to_nat (b - a)) with (Z.to_nat b - Z.to_nat a)%nat by lia.
  change (Z.to_nat 0) with 0%nat. rewrite Nat.sub_0_r.
  split; [reflexivity|]. split; [|split].
  - rewrite <- (substring_split p (Z.to_nat a) Ha) at 1. f_equal.
    replace (String.length p - Z.to_nat a)%nat
      with ((Z.to_nat b - Z.to_nat a) + (String.length p - Z.to_nat b))%nat by lia.
    rewrite substring_add. do 2 f_equal. lia.
  - unfold Str.size. rewrite length_substring by lia. lia.
  - unfold Str.size. rewrite !length_substring by lia. lia.
Qed.
End MemberFunctionsProofs.

Module MemberFunctionsTheorems.
Import Indexer MemberFunctions Props StrFacts MemberFunctionsProofs.



(** *** The two nested loops as one sequence of visits *)

Lemma for_each_try_app {A S : Type} (l1 l2 : list A)
    (body : A -> S -> option S) (s : S) :
  for_each_try (l1 ++ l2) body s
  = for_each_try l1 body s ≫= for_each_try l2 body.
Proof.
  revert s. induction l1 as [|a l1 IH]; intros s; [done|].
  cbn. destruct (body a s); [apply IH|done].
Qed.

Lemma for_each_try_fmap {A B S : Type} (g : A -> B) (l : list A)
    (body : B -> S -> option S) (s : S) :
  for_each_try (g <$> l) body s = for_each_try l (fun a => body (g a)) s.
Proof.
  revert s. induction l as [|a l IH]; intros s; [done|].
  cbn. destruct (body (g a) s); [apply IH|done].
Qed.

Lemma updateMemberFunctions_visits replaceAll idx :
  updateMemberFunctions replaceAll idx
  = for_each_try (visits idx)
      (fun p i => visitMethod replaceAll p.1 p.2 i) idx.
Proof.
  unfold updateMemberFunctions, visits.
  generalize (Db.values (records idx)) as cs. intros cs.
  generalize idx as i. induction cs as [|c cs IH]; intros i; [done|].
  cbn [for_each_try mbind list_bind]. rewrite for_each_try_app.
  rewrite for_each_try_fmap. cbn [fst snd].
  destruct (for_each_try (methodIDs c) _ i) as [j|]; [apply IH|done].
Qed.



Lemma elem_of_visits idx c mid :
  (c, mid) ∈ visits idx
  <-> (exists k, entries (records idx) !! k = Some c) /\ mid ∈ methodIDs c.
Proof.
  unfold visits. rewrite list_elem_of_bind. split.
  - intros (c' & Hin & Hc). apply list_elem_of_fmap in Hin as (m & [= -> ->] & Hm).
    split; [|done]. unfold Db.values in Hc.
    apply list_elem_of_fmap in Hc as ([k c0] & -> & Hk).
    exists k. by apply elem_of_map_to_list.
  - intros [[k Hk] Hm]. exists c. split.
    + apply list_elem_of_fmap. by exists mid.
    + unfold Db.values. apply list_elem_of_fmap. exists (k, c).
      split; [done|]. by apply elem_of_map_to_list.
Qed.



End MemberFunctionsTheorems.

(** ** pruneMethods and the sequence of post-passes *)

Module PostPassesProofs.
Import Indexer MemberFunctions Props ClosedForms PruneTypeRefsFacts.

Lemma keeps_refl i : keeps i i.
Proof.
  split; intros k.
  - destruct (entries (functions i) !! k); by constructor.
  - destruct (entries (records i) !! k); by constructor.
Qed.

Lemma keeps_trans i j l : keeps i j -> keeps j l -> keeps i l.
Proof.
  intros [F1 R1] [F2 R2]. split; intros k.
  - specialize (F1 k). specialize (F2 k).
    destruct F1 as [f f' [? ?]|]; inversion F2 as [f1 f2 [? ?]|]; subst;
      constructor. split; congruence.
  - specialize (R1 k). specialize (R2 k).
    destruct R1 as [f f' [? ?]|]; inversion R2 as [f1 f2 [? ?]|]; subst;
      constructor. split; congruence.
Qed.

Lemma keeps_fmap (g : FunctionSymbol -> FunctionSymbol)
    (h : RecordSymbol -> RecordSymbol) i i' :
  (forall f, fkeep f (g f)) -> (forall r, rkeep r (h r)) ->
  entries (functions i') = g <$> entries (functions i) ->
  entries (records i') = h <$> entries (records i) ->
  keeps i i'.
Proof.
  intros Hg Hh Ef Er. split; intros k.
  - rewrite Ef, lookup_fmap. destruct (entries (functions i) !! k); by constructor.
  - rewrite Er, lookup_fmap. destruct (entries (records i) !! k); by constructor.
Qed.

Lemma resolveNamespaces_keeps i : keeps i (resolveNamespaces i).
Proof.
  rewrite ResolveNamespacesProofs.resolveNamespaces_unfold.
  apply (keeps_fmap id id); try done; destruct i; cbn; by rewrite map_fmap_id.
Qed.

Lemma updateRecordName_keep r : rkeep r (updateRecordName r).
Proof. unfold updateRecordName. by destruct (0 <? _). Qed.

Lemma updateRecordNames_keeps i : keeps i (updateRecordNames i).
Proof.
  rewrite UpdateRecordNamesProofs.updateRecordNames_unfold.
  apply (keeps_fmap id updateRecordName); try done.
  - apply updateRecordName_keep.
  - destruct i; cbn; by rewrite map_fmap_id.
Qed.

Lemma pruneTypeRefs_keeps i : keeps i (pruneTypeRefs i).
Proof.
  rewrite pruneTypeRefs_unfold.
  by apply (keeps_fmap (pruneFunction i) (pruneRecord i)).
Qed.

Lemma updateMemberFunction_keep replaceAll c f f' :
  updateMemberFunction replaceAll c f = Some f' -> fkeep f f'.
Proof.
  unfold updateMemberFunction. destruct (splitProto f) as [[[tp pre] rest]|]; [|done].
  cbn [mbind option_bind]. intros [= <-].
  destruct (bool_decide _); by destruct f as [[] ? ? ? ? ? ? ? ?].
Qed.

Lemma visitMethod_keeps replaceAll c mid i i' :
  visitMethod replaceAll c mid i = Some i' ->
  keeps i i' /\ records i' = records i.
Proof.
  unfold visitMethod. destruct (negb _).
  - intros [= <-]. split; [apply keeps_refl|done].
  - destruct (entries (functions i) !! mid) as [f|] eqn:E; [|done].
    destruct (updateMemberFunction replaceAll c f) as [f'|] eqn:U; [|done].
    cbn [mbind option_bind]. intros [= <-]. split; [|by destruct i].
    split; intros k.
    + destruct i as [fs rs es ns als]; cbn in *.
      destruct (decide (k = mid)) as [->|Hne].
      * rewrite lookup_insert_eq, E. constructor.
        by apply (updateMemberFunction_keep replaceAll c).
      * rewrite lookup_insert_ne by done.
        destruct (entries fs !! k); by constructor.
    + destruct i as [fs rs es ns als]; cbn.
      destruct (entries rs !! k); by constructor.
Qed.

Lemma for_each_try_keeps {A : Type} (l : list A)
    (body : A -> Index -> option Index) :
  (forall a i i', body a i = Some i' -> keeps i i' /\ records i' = records i) ->
  forall i i', for_each_try l body i = Some i' ->
               keeps i i' /\ records i' = records i.
Proof.
  intros Hb. induction l as [|a l IH]; intros i i'; cbn.
  - intros [= <-]. split; [apply keeps_refl|done].
  - destruct (body a i) as [j|] eqn:E; [|done]. intros H.
    destruct (Hb _ _ _ E) as [K1 R1]. destruct (IH _ _ H) as [K2 R2].
    split; [by eapply keeps_trans|congruence].
Qed.

Lemma updateMemberFunctions_keeps replaceAll i i' :
  updateMemberFunctions replaceAll i = Some i' ->
  keeps i i' /\ records i' = records i.
Proof.
  unfold updateMemberFunctions. apply for_each_try_keeps.
  intros c j j'. apply for_each_try_keeps. apply visitMethod_keeps.
Qed.
End PostPassesProofs.

Module PostPassesTheorems.
Import Indexer MemberFunctions Props ClosedForms PruneTypeRefsFacts PostPassesProofs.

Lemma foldl_delete_lookup {T : Type} (m : gmap SymbolID T) ks k :
  foldl (fun acc k => delete k acc) m ks !! k
  = if decide (k ∈ ks) then None else m !! k.
Proof.
  revert m. induction ks as [|k0 ks IH]; intros m; cbn [foldl].
  - rewrite decide_False; [done|]. intros H. by apply elem_of_nil in H.
  - rewrite IH. destruct (decide (k ∈ ks)) as [Hin|Hin].
    + rewrite decide_True; [done|]. apply elem_of_cons; by right.
    + destruct (decide (k = k0)) as [->|Hne].
      * rewrite lookup_delete_eq.
        rewrite decide_True; [done|]. apply elem_of_cons; by left.
      * rewrite lookup_delete_ne by done.
        rewrite decide_False; [done|]. by intros [?|?]%elem_of_cons.
Qed.

Lemma pruneMethods_unfold idx :
  pruneMethods idx
  = set_functions
      (mkDatabase (foldl (fun acc k => delete k acc) (entries (functions idx))
                         (toBePruned idx))
                  (numMatches (functions idx))) idx.
Proof.
  unfold pruneMethods, for_each. generalize (toBePruned idx) as ks.
  intros ks. destruct idx as [[m n] rs es ns als]. cbn [functions entries numMatches].
  revert m. induction ks as [|k ks IH]; intros m; [done|].
  cbn [foldl]. unfold set_functions at 2, Db.erase. cbn. by rewrite IH.
Qed.

Lemma elem_of_toBePruned idx k :
  k ∈ toBePruned idx
  <-> exists f, entries (functions idx) !! k = Some f /\ isOrphan idx f = true.
Proof.
  unfold toBePruned. rewrite list_elem_of_fmap. split.
  - intros ([k' f] & -> & H). apply list_elem_of_filter in H as [Ho H].
    apply elem_of_map_to_list in H. by exists f.
  - intros (f & Hf & Ho). exists (k, f). split; [done|].
    apply list_elem_of_filter. split; [done|]. by apply elem_of_map_to_list.
Qed.

(** pruneMethods keeps exactly the functions that are not methods of an
    absent record, and touches nothing else. *)
Lemma pruneMethods_lookup idx k f :
  entries (functions (pruneMethods idx)) !! k = Some f
  <-> entries (functions idx) !! k = Some f /\ isOrphan idx f = false.
Proof.
  rewrite pruneMethods_unfold. destruct idx as [fs rs es ns als]; cbn [functions
    set_functions entries]. rewrite foldl_delete_lookup.
  destruct (decide (k ∈ toBePruned _)) as [Hin|Hin].
  - apply elem_of_toBePruned in Hin as (f0 & Hf0 & Ho). cbn in Hf0. split; [done|].
    intros [Hf Hn]. congruence.
  - split; [|by intros [? _]]. intros Hf. split; [done|].
    destruct (isOrphan _ f) eqn:E; [|done].
    exfalso. apply Hin. apply elem_of_toBePruned. by exists f.
Qed.

Lemma pruneMethods_frame idx :
  records (pruneMethods idx) = records idx
  /\ enums (pruneMethods idx) = enums idx
  /\ namespaces (pruneMethods idx) = namespaces idx
  /\ aliases (pruneMethods idx) = aliases idx.
Proof. rewrite pruneMethods_unfold. by destruct idx. Qed.

Lemma isOrphan_false idx f :
  isOrphan idx f = false
  <-> (f_isRecordMember f = true ->
       is_Some (entries (records idx) !! parentNamespaceID (f_sym f))).
Proof.
  unfold isOrphan, Db.contains. destruct (f_isRecordMember f); cbn.
  - rewrite negb_false_iff, bool_decide_eq_true. naive_solver.
  - naive_solver.
Qed.

Lemma rkeep_is_Some (i j : Index) k :
  (forall k, option_Forall2 rkeep (entries (records i) !! k)
                                  (entries (records j) !! k)) ->
  is_Some (entries (records i) !! k) <-> is_Some (entries (records j) !! k).
Proof.
  intros H. specialize (H k). destruct H; split; intros [? ?]; eauto; done.
Qed.

Lemma isOrphan_keep i j f f' :
  (forall k, option_Forall2 rkeep (entries (records i) !! k)
                                  (entries (records j) !! k)) ->
  fkeep f f' -> isOrphan j f' = isOrphan i f.
Proof.
  intros HR [Hp Hm]. unfold isOrphan, Db.contains. rewrite Hp, Hm.
  f_equal. f_equal. apply bool_decide_ext. symmetry. by apply rkeep_is_Some.
Qed.

Lemma reached_start i : reached false i i.
Proof.
  split; [|split].
  - intros k. destruct (entries (records i) !! k); by constructor.
  - intros mid f Hf. exists f. by repeat split.
  - intros mid f Hf Hn. congruence.
Qed.

Lemma reached_keeps b i j j' : reached b i j -> keeps j j' -> reached b i j'.
Proof.
  intros (HR & HF & HN) [KF KR]. split; [|split].
  - intros k. specialize (HR k). specialize (KR k).
    destruct HR as [r r' [? ?]|]; inversion KR as [r1 r2 [? ?]|]; subst;
      constructor. split; congruence.
  - intros mid f'' Hf''. specialize (KF mid). rewrite Hf'' in KF.
    inversion KF as [f' f2 [Hp Hm] Hf'|]; subst. symmetry in Hf'.
    destruct (HF mid f' Hf') as (f & Hf & [Hp' Hm'] & Ho).
    exists f. split; [done|]. split; [|done]. split; congruence.
  - intros mid f Hf Hn. apply (HN mid f Hf).
    specialize (KF mid). rewrite Hn in KF. by inversion KF.
Qed.

Lemma reached_pruneMethods b i j :
  reached b i j -> reached true i (pruneMethods j).
Proof.
  intros (HR & HF & HN). destruct (pruneMethods_frame j) as (ER & _).
  split; [|split].
  - by rewrite ER.
  - intros mid f' [Hf' Ho]%pruneMethods_lookup.
    destruct (HF mid f' Hf') as (f & Hf & Hk & _).
    exists f. split; [done|]. split; [done|]. intros _.
    by rewrite <- (isOrphan_keep i j f f' HR Hk).
  - intros mid f Hf Hn. split; [done|].
    destruct (entries (functions j) !! mid) as [f'|] eqn:E.
    + destruct (HF mid f' E) as (f0 & Hf0 & Hk & _).
      rewrite Hf in Hf0. injection Hf0 as <-.
      rewrite <- (isOrphan_keep i j f f' HR Hk).
      destruct (isOrphan j f') eqn:Ho; [done|].
      assert (entries (functions (pruneMethods j)) !! mid = Some f')
        by (by apply pruneMethods_lookup).
      congruence.
    + by destruct (HN mid f Hf E).
Qed.

Lemma runPass_reached replaceAll p b i j j' :
  reached b i j -> PostPasses.runPass replaceAll p j = Some j' ->
  reached (b || bool_decide (p = PostPasses.PruneMethods)) i j'.
Proof.
  intros Hr. destruct p; cbn [PostPasses.runPass].
  - intros [= <-]. rewrite bool_decide_eq_true_2 by done. rewrite orb_true_r.
    by eapply reached_pruneMethods.
  - intros [= <-]. rewrite bool_decide_eq_false_2 by done. rewrite orb_false_r.
    eapply reached_keeps; [done|apply resolveNamespaces_keeps].
  - intros [= <-]. rewrite bool_decide_eq_false_2 by done. rewrite orb_false_r.
    eapply reached_keeps; [done|apply updateRecordNames_keeps].
  - intros H. rewrite bool_decide_eq_false_2 by done. rewrite orb_false_r.
    eapply reached_keeps; [done|]. by apply updateMemberFunctions_keeps in H as [? _].
  - intros [= <-]. rewrite bool_decide_eq_false_2 by done. rewrite orb_false_r.
    eapply reached_keeps; [done|apply pruneTypeRefs_keeps].
Qed.

Lemma runPasses_reached replaceAll ps b i j j' :
  reached b i j -> PostPasses.runPasses replaceAll ps j = Some j' ->
  reached (b || bool_decide (PostPasses.PruneMethods ∈ ps)) i j'.
Proof.
  unfold PostPasses.runPasses. revert b j.
  induction ps as [|p ps IH]; intros b j Hr; cbn [for_each_try].
  - intros [= <-]. rewrite bool_decide_eq_false_2; [by rewrite orb_false_r|].
    intros H. by apply elem_of_nil in H.
  - destruct (PostPasses.runPass replaceAll p j) as [j1|] eqn:E; [|done].
    intros Hrun. pose proof (runPass_reached _ _ _ _ _ _ Hr E) as Hr1.
    pose proof (IH _ _ Hr1 Hrun) as Hr2.
    replace (b || bool_decide (PostPasses.PruneMethods ∈ p :: ps))
      with (b || bool_decide (p = PostPasses.PruneMethods)
            || bool_decide (PostPasses.PruneMethods ∈ ps)); [done|].
    rewrite <- orb_assoc. f_equal.
    destruct (decide (p = PostPasses.PruneMethods)) as [->|Hne].
    + rewrite (bool_decide_eq_true_2 (PostPasses.PruneMethods = _)) by done.
      cbn [orb]. symmetry. apply bool_decide_eq_true_2.
      apply elem_of_cons; by left.
    + rewrite (bool_decide_eq_false_2 (p = _)) by done. cbn [orb].
      apply bool_decide_ext. rewrite elem_of_cons.
      split; [by right|]. intros [Heq|Hin]; [congruence|done].
Qed.

(** C4, as amended.  For every sequence of post-passes in which
    pruneMethods occurs (the fixed order of the specification is one), once
    the passes have completed: every record has the methodIDs and the ID
    the extractors gave it, since no pass removes a method reference, so
    an entry whose function was never indexed stays dangling.  A function
    is in the Index afterwards exactly when it was there before and was
    not a record member whose parentNamespaceID is no record; its
    parentNamespaceID and isRecordMember are as before.  Hence no record
    member is left whose parentNamespaceID does not resolve to a record,
    and if every listed method that is present pointed to the listing
    record before the passes, it does so afterwards. *)
Theorem postPasses_methods
    (replaceAll : string -> string -> string -> string)
    (ps : list PostPasses.Pass) (idx idx' : Index)
    (Hprune : PostPasses.PruneMethods ∈ ps)
    (Hrun : PostPasses.runPasses replaceAll ps idx = Some idx') :
  (forall k, option_Forall2
               (fun r r' => methodIDs r' = methodIDs r
                            /\ ID (r_sym r') = ID (r_sym r))
               (entries (records idx) !! k) (entries (records idx') !! k))
  /\ (forall mid,
        is_Some (entries (functions idx') !! mid)
        <-> exists f, entries (functions idx) !! mid = Some f
                      /\ (f_isRecordMember f = true ->
                          is_Some (entries (records idx)
                                   !! parentNamespaceID (f_sym f))))
  /\ (forall mid f f',
        entries (functions idx) !! mid = Some f ->
        entries (functions idx') !! mid = Some f' ->
        parentNamespaceID (f_sym f') = parentNamespaceID (f_sym f)
        /\ f_isRecordMember f' = f_isRecordMember f)
  /\ (forall mid f',
        entries (functions idx') !! mid = Some f' ->
        f_isRecordMember f' = true ->
        is_Some (entries (records idx') !! parentNamespaceID (f_sym f')))
  /\ ((forall k r mid f,
         entries (records idx) !! k = Some r -> mid ∈ methodIDs r ->
         entries (functions idx) !! mid = Some f ->
         parentNamespaceID (f_sym f) = ID (r_sym r)) ->
      forall k r' mid f',
        entries (records idx') !! k = Some r' -> mid ∈ methodIDs r' ->
        entries (functions idx') !! mid = Some f' ->
        parentNamespaceID (f_sym f') = ID (r_sym r')).
Proof.
  pose proof (runPasses_reached replaceAll ps false idx idx idx'
                (reached_start idx) Hrun) as Hr.
  rewrite bool_decide_eq_true_2 in Hr by done. cbn [orb] in Hr.
  destruct Hr as (KR & HF & HN).
  split; [exact KR|]. split; [|split; [|split]].
  - intros mid. split.
    + intros [f' Hf']. destruct (HF _ _ Hf') as (f & Hf & _ & Ho).
      exists f. split; [done|]. apply isOrphan_false. by apply Ho.
    + intros (f & Hf & Ho). apply isOrphan_false in Ho.
      destruct (entries (functions idx') !! mid) as [f'|] eqn:E; [eauto|].
      destruct (HN mid f Hf E) as [_ Ho']. congruence.
  - intros mid f f' Hf Hf'. destruct (HF _ _ Hf') as (f0 & Hf0 & Hk & _).
    rewrite Hf in Hf0. by injection Hf0 as <-.
  - intros mid f' Hf' Hm. destruct (HF _ _ Hf') as (f & Hf & [Hp Hm'] & Ho).
    apply (rkeep_is_Some idx idx' _ KR). rewrite Hp.
    apply (proj1 (isOrphan_false idx f) (Ho eq_refl)). congruence.
  - intros Hpre k r' mid f' Hr' Hin Hf'.
    destruct (HF _ _ Hf') as (f & Hf & [Hp _] & _).
    specialize (KR k). rewrite Hr' in KR.
    inversion KR as [r r2 [Hm Hi] Hr|]; subst. symmetry in Hr.
    rewrite Hp, Hi. eapply Hpre; [exact Hr| |exact Hf]. by rewrite <- Hm.
Qed.

Lemma postPasses_methods_witness :
  exists idx',
    PostPasses.run StringUtils.replaceAll Examples.idxS = Some idx'
    /\ forall mid f',
         entries (functions idx') !! mid = Some f' ->
         f_isRecordMember f' = true ->
         is_Some (entries (records idx') !! parentNamespaceID (f_sym f')).
Proof.
  eexists. split; [vm_compute; reflexivity|].
  refine (proj1 (proj2 (proj2 (proj2
    (postPasses_methods StringUtils.replaceAll PostPasses.order
       Examples.idxS _ _ _))))).
  - apply (bool_decide_unpack _). vm_compute. exact I.
  - vm_compute. reflexivity.
Defined.

(** C4 as stated fails: the record [C] lists the method ID 21, no function
    is stored under 21, and after all post-passes the entry is still in
    [methodIDs] while 21 is still not a function of the Index. *)
Lemma postPasses_dangling_method_counterexample :
  exists idx' r,
    PostPasses.run StringUtils.replaceAll Examples.idxC = Some idx'
    /\ entries (records idx') !! 20 = Some r
    /\ 21 ∈ methodIDs r
    /\ entries (functions idx') !! 21 = None.
Proof.
  eexists _, _. split; [vm_compute; reflexivity|].
  split; [vm_compute; reflexivity|]. split; [|reflexivity].
  apply elem_of_cons. by left.
Qed.
End PostPassesTheorems.

(** ** The match callbacks *)

Module MatcherTheorems.
Import Clang Matchers.

Section callbacks.
Variable relative : string -> string -> string.
Variable regex_replace : string -> string -> string -> string.
Variable isInIgnoreList : Decl -> Config -> bool.
Variable isInAnonymousNamespace : Decl -> bool.
Variable buildID : Decl -> SymbolID.
Variable fillOutSymbol : Symbol -> Decl -> string -> Symbol.
Variable fillNamespace : Symbol -> Decl -> Config -> Symbol.
Variable processSymbolComment : Symbol -> Comment -> Symbol.
Variable getFunctionSignature : FunctionSymbol -> FunctionSymbol * string.
Variable getRecordProto : RecordSymbol -> string.
Variable exprToString : Expr -> string.
Variable getParaCommentContents : string -> string.

Local Abbreviation runFunction :=
  (FunctionMatcher_run regex_replace isInIgnoreList isInAnonymousNamespace
     buildID fillOutSymbol fillNamespace processSymbolComment
     getFunctionSignature exprToString).
Local Abbreviation runUsing :=
  (UsingMatcher_run isInIgnoreList buildID fillOutSymbol fillNamespace
     processSymbolComment).
Local Abbreviation runRecord :=
  (RecordMatcher_run regex_replace isInIgnoreList isInAnonymousNamespace
     buildID fillOutSymbol fillNamespace processSymbolComment getRecordProto
     exprToString getParaCommentContents).
Local Abbreviation runEnum :=
  (EnumMatcher_run isInIgnoreList isInAnonymousNamespace buildID
     fillOutSymbol fillNamespace processSymbolComment getParaCommentContents).

(** *** shouldBeIgnored *)

(** With no ignored path the matcher answers before it looks at the
    namespaces. *)
Lemma shouldBeIgnored_no_paths cfg Node :
  ignorePaths cfg = [] -> shouldBeIgnored relative cfg Node = false.
Proof. intros H. unfold shouldBeIgnored. by rewrite H. Qed.

(** C1 fails on the code.  When ignorePaths is empty, shouldBeIgnored
    answers false for every declaration, whatever ignoreNamespaces holds
    and whatever namespaces enclose the declaration, and the record
    matcher matches a definition that nothing else excludes. *)
Theorem shouldBeIgnored_skips_namespaces_without_paths cfg (r : CXXRecordDecl)
    (Hpaths : ignorePaths cfg = []) :
  shouldBeIgnored relative cfg (rd_decl r) = false
  /\ RecordMatcher_getMatcher relative cfg r
     = isDefinition r
       && negb (hasAnonymousNamespaceAncestor (rd_decl r)
                || isImplicit (rd_decl r)
                || isExpansionInSystemHeader (rd_decl r)
                || isTemplateInstantiation (rd_decl r)
                || isInstantiated (rd_decl r)).
Proof.
  split; [by apply shouldBeIgnored_no_paths|].
  unfold RecordMatcher_getMatcher, excluded.
  rewrite shouldBeIgnored_no_paths by done. by rewrite orb_false_r.
Qed.

(** Where the namespace test is reached, it decides. *)
Lemma shouldBeIgnored_reaches_namespaces cfg Node fileName :
  ignorePaths cfg <> [] -> expansionLocIsValid Node = true ->
  fileEntryName Node = Some fileName ->
  isEnclosingNamespaceInList Node (ignoreNamespaces cfg) = true ->
  shouldBeIgnored relative cfg Node = true.
Proof.
  intros Hp Hl Hf Hn. unfold shouldBeIgnored. rewrite Hl, Hf, Hn.
  destruct (ignorePaths cfg); [done|]. cbn [length negb].
  destruct (Z.of_nat _ =? 0) eqn:E; [by apply Z.eqb_eq in E|].
  by destruct (existsb _ _).
Qed.

(** *** FunctionMatcher::run *)

Lemma FunctionMatcher_run_numMatches cfg res index :
  numMatches (functions (runFunction cfg res index))
  = if isDeletedAsWritten res || isCXXDeductionGuideDecl res
    then numMatches (functions index)
    else (numMatches (functions index) + 1) mod 2 ^ 64.
Proof.
  unfold FunctionMatcher_run.
  destruct (isDeletedAsWritten res); [done|].
  destruct (isCXXDeductionGuideDecl res); [done|]. cbn [orb].
  destruct (FunctionMatcher_ignores _ _ _ _); [by destruct index|].
  destruct (Db.contains _ _); by destruct index.
Qed.

Lemma FunctionMatcher_run_frame cfg res index :
  let index' := runFunction cfg res index in
  records index' = records index /\ enums index' = enums index
  /\ namespaces index' = namespaces index /\ aliases index' = aliases index.
Proof.
  unfold FunctionMatcher_run.
  destruct (isDeletedAsWritten res); [done|].
  destruct (isCXXDeductionGuideDecl res); [done|].
  destruct (FunctionMatcher_ignores _ _ _ _); [by destruct index|].
  destruct (Db.contains _ _); by destruct index.
Qed.

(** A private function is dropped when private members are ignored. *)
Lemma FunctionMatcher_drops_private cfg res index :
  ignorePrivateMembers cfg = true -> getAccess (fd_decl res) = AS_private ->
  entries (functions (runFunction cfg res index)) = entries (functions index).
Proof.
  intros Hc Ha. unfold FunctionMatcher_run.
  destruct (isDeletedAsWritten res); [done|].
  destruct (isCXXDeductionGuideDecl res); [done|].
  unfold FunctionMatcher_ignores, isIgnoredPrivate. rewrite Hc, Ha.
  rewrite bool_decide_eq_true_2 by done. rewrite !orb_true_r.
  by destruct index.
Qed.

(** *** UsingMatcher::run *)

Lemma UsingMatcher_drops_private cfg res index :
  ignorePrivateMembers cfg = true -> getAccess (nd_decl res) = AS_private ->
  entries (aliases (runUsing cfg res index)) = entries (aliases index).
Proof.
  intros Hc Ha. unfold UsingMatcher_run.
  destruct (negb _); [done|]. destruct (isFunctionOrMethod _); [done|].
  unfold UsingMatcher_ignores, isIgnoredPrivate. rewrite Hc, Ha.
  rewrite bool_decide_eq_true_2 by done. rewrite !orb_true_r.
  by destruct index.
Qed.



(** C3, as amended.  A function declaration that is deleted as written
    or is a deduction guide leaves the Index, its match counter
    included, as it is.  For every other candidate functions.numMatches
    is incremented exactly once, whatever the callback decides
    afterwards (filtered, invalid range, static non-member, private,
    duplicate SymbolID or stored); the other databases are not
    touched. *)
Theorem FunctionMatcher_counts_candidates cfg res index :
  let index' :=
    FunctionMatcher_run regex_replace isInIgnoreList isInAnonymousNamespace
      buildID fillOutSymbol fillNamespace processSymbolComment
      getFunctionSignature exprToString cfg res index in
  numMatches (functions index')
  = (if isDeletedAsWritten res || isCXXDeductionGuideDecl res
     then numMatches (functions index)
     else (numMatches (functions index) + 1) mod 2 ^ 64)
  /\ (isDeletedAsWritten res || isCXXDeductionGuideDecl res = true ->
      index' = index)
  /\ records index' = records index /\ enums index' = enums index
  /\ namespaces index' = namespaces index /\ aliases index' = aliases index.
Proof.
  intros index'. split; [apply FunctionMatcher_run_numMatches|].
  split; [|apply FunctionMatcher_run_frame].
  subst index'. unfold FunctionMatcher_run.
  destruct (isDeletedAsWritten res); [done|].
  by destruct (isCXXDeductionGuideDecl res).
Qed.

(** *** RecordMatcher::run and EnumMatcher::run *)

Lemma insert_reserved {T : Type} (m : gmap SymbolID T) k1 k2 v1 v2 :
  is_Some (<[k1 := v1]> (<[k2 := v2]> m) !! k2).
Proof.
  destruct (decide (k1 = k2)) as [->|Hne].
  - rewrite lookup_insert_eq. eauto.
  - rewrite lookup_insert_ne by done. rewrite lookup_insert_eq. eauto.
Qed.

(** The access of a record plays no part in the callback: a record that
    passes the tests is reserved under its ID. *)
Lemma RecordMatcher_stores cfg res index :
  RecordMatcher_ignores isInIgnoreList isInAnonymousNamespace cfg res = false ->
  getNameAsString (rd_decl res) <> "" -> asSpecialization res = None ->
  Db.contains (records (runRecord cfg res index)) (buildID (rd_decl res)) = true.
Proof.
  intros Hi Hn Hs. unfold RecordMatcher_run. rewrite Hi, Hs.
  apply String.eqb_neq in Hn. rewrite Hn. cbn [andb].
  destruct (Db.contains
              (records (set_records (Db.countMatch (records index)) index))
              (buildID (rd_decl res))) eqn:E; [done|].
  unfold Db.contains. apply bool_decide_eq_true.
  destruct index as [fs rs es ns als].
  unfold set_records, Db.update, Db.reserve, Db.countMatch.
  cbn [records entries numMatches functions enums namespaces aliases].
  apply insert_reserved.
Qed.

Lemma EnumMatcher_stores cfg res index :
  EnumMatcher_ignores isInIgnoreList isInAnonymousNamespace cfg res = false ->
  Db.contains (enums (runEnum cfg res index)) (buildID (ed_decl res)) = true.
Proof.
  intros Hi. unfold EnumMatcher_run. rewrite Hi.
  destruct (Db.contains
              (enums (set_enums (Db.countMatch (enums index)) index))
              (buildID (ed_decl res))) eqn:E; [done|].
  unfold Db.contains. apply bool_decide_eq_true.
  destruct index as [fs rs es ns als].
  unfold set_enums, Db.update, Db.reserve, Db.countMatch.
  cbn [records entries numMatches functions enums namespaces aliases].
  apply insert_reserved.
Qed.

(** C2 fails on the code.  Whatever ignorePrivateMembers is and whatever
    the access of the declaration, a named record that passes the tests
    of the record callback is put into [records], and an enum that
    passes the tests of the enum callback is put into [enums]: neither
    callback looks at the access. *)
Theorem RecordMatcher_EnumMatcher_index_any_access cfg :
  (forall res index,
     RecordMatcher_ignores isInIgnoreList isInAnonymousNamespace cfg res
     = false ->
     getNameAsString (rd_decl res) <> "" -> asSpecialization res = None ->
     Db.contains
       (records
          (RecordMatcher_run regex_replace isInIgnoreList
             isInAnonymousNamespace buildID fillOutSymbol fillNamespace
             processSymbolComment getRecordProto exprToString
             getParaCommentContents cfg res index))
       (buildID (rd_decl res)) = true)
  /\ (forall res index,
        EnumMatcher_ignores isInIgnoreList isInAnonymousNamespace cfg res
        = false ->
        Db.contains
          (enums
             (EnumMatcher_run isInIgnoreList isInAnonymousNamespace buildID
                fillOutSymbol fillNamespace processSymbolComment
                getParaCommentContents cfg res index))
          (buildID (ed_decl res)) = true).
Proof.
  split.
  - intros res index. apply RecordMatcher_stores.
  - intros res index. apply EnumMatcher_stores.
Qed.

(** The base records of a record: one entry per base that is a record,
    with the access the front end reports for the base specifier and the
    name prefixed by [std::] for a base in the standard namespace. *)
Lemma collectBase_entries bs :
  for_each bs (collectBase buildID) []
  = omap (fun base =>
            match getAsCXXRecordDecl base with
            | Some (baseRecord, isInStdNamespace) =>
                Some (mkBaseRecord (buildID baseRecord)
                        (getAccessSpecifier base)
                        ((if isInStdNamespace then "std::" else "")
                         +:+ getNameAsString baseRecord))
            | None => None
            end) bs.
Proof.
  unfold for_each. rewrite <- (app_nil_l (omap _ bs)).
  generalize (@nil BaseRecord) as acc. induction bs as [|b bs IH]; intros acc.
  - cbn. by rewrite app_nil_r.
  - cbn [foldl omap list_omap]. rewrite IH. unfold collectBase.
    destruct (getAsCXXRecordDecl b) as [[d std]|]; [|done].
    destruct std; by rewrite <- app_assoc.
Qed.

(** A namespace is stored without children: the child lists are filled
    by resolveNamespaces only. *)
Lemma NamespaceMatcher_run_no_children cfg res index :
  map_Forall (fun _ ns => Props.no_children ns) (entries (namespaces index)) ->
  map_Forall (fun _ ns => Props.no_children ns)
    (entries (namespaces
       (NamespaceMatcher_run isInIgnoreList isInAnonymousNamespace buildID
          fillOutSymbol fillNamespace cfg res index))).
Proof.
  intros H. unfold NamespaceMatcher_run.
  destruct (NamespaceMatcher_ignores _ _ _ _); [by destruct index|].
  destruct (Db.contains _ _); [by destruct index|].
  destruct index as [fs rs es ns als]. cbn.
  apply map_Forall_insert_2; [done|]. by apply map_Forall_insert_2.
Qed.

(** The member lists of a record leave private members out when private
    members are ignored. *)
Lemma collectField_no_private cfg fs vs :
  ignorePrivateMembers cfg = true ->
  Forall (fun v => mv_access v <> AS_private) vs ->
  Forall (fun v => mv_access v <> AS_private)
         (for_each fs (collectField buildID exprToString
                         getParaCommentContents cfg) vs).
Proof.
  intros Hc. unfold for_each. revert vs.
  induction fs as [|f fs IH]; intros vs Hvs; [done|].
  cbn [foldl]. apply IH. unfold collectField, isIgnoredPrivate. rewrite Hc.
  rewrite andb_true_r. case_bool_decide as Ha; [done|].
  apply Forall_app. split; [done|]. by repeat constructor.
Qed.

Lemma collectStatic_no_private cfg ds vs :
  ignorePrivateMembers cfg = true ->
  Forall (fun v => mv_access v <> AS_private) vs ->
  Forall (fun v => mv_access v <> AS_private)
         (for_each ds (collectStatic buildID exprToString
                         getParaCommentContents cfg) vs).
Proof.
  intros Hc. unfold for_each. revert vs.
  induction ds as [|d ds IH]; intros vs Hvs; [done|].
  cbn [foldl]. apply IH. unfold collectStatic, isIgnoredPrivate. rewrite Hc.
  destruct d; try done.
  rewrite andb_true_r. case_bool_decide as Ha; [done|].
  apply Forall_app. split; [done|]. by repeat constructor.
Qed.
End callbacks.

(** [struct Impl] lies in [ns::detail] and ignoreNamespaces is
    ["detail"], so an enclosing namespace is on the list; ignorePaths is
    empty, and shouldBeIgnored answers false whatever the path helper
    does: the record matcher matches the declaration. *)
Lemma shouldBeIgnored_skips_namespaces_without_paths_witness :
  isEnclosingNamespaceInList (rd_decl Examples.declImpl)
                             (ignoreNamespaces Examples.cfgDetail) = true
  /\ (forall relative,
        shouldBeIgnored relative Examples.cfgDetail
                        (rd_decl Examples.declImpl) = false)
  /\ (forall relative,
        RecordMatcher_getMatcher relative Examples.cfgDetail
                                 Examples.declImpl = true).
Proof.
  split; [vm_compute; reflexivity|]. split; intros relative.
  - exact (proj1 (shouldBeIgnored_skips_namespaces_without_paths relative
                    Examples.cfgDetail Examples.declImpl eq_refl)).
  - exact (proj2 (shouldBeIgnored_skips_namespaces_without_paths relative
                    Examples.cfgDetail Examples.declImpl eq_refl)).
Defined.

(** With ignorePrivateMembers set, the private nested record
    [Outer::Secret] and the private nested enum [Outer::Hidden] are
    indexed. *)
Lemma RecordMatcher_EnumMatcher_index_any_access_witness :
  ignorePrivateMembers Examples.cfgPrivate = true
  /\ getAccess (rd_decl Examples.declSecret) = AS_private
  /\ getAccess (ed_decl Examples.declHidden) = AS_private
  /\ Db.contains
       (records
          (RecordMatcher_run Examples.regex_replace Examples.isInIgnoreList
             Examples.isInAnonymousNamespace Examples.buildID
             Examples.fillOutSymbol Examples.fillNamespace
             Examples.processSymbolComment Examples.getRecordProto
             Examples.exprToString Examples.getParaCommentContents
             Examples.cfgPrivate Examples.declSecret Examples.emptyIndex))
       (Examples.buildID (rd_decl Examples.declSecret)) = true
  /\ Db.contains
       (enums
          (EnumMatcher_run Examples.isInIgnoreList
             Examples.isInAnonymousNamespace Examples.buildID
             Examples.fillOutSymbol Examples.fillNamespace
             Examples.processSymbolComment Examples.getParaCommentContents
             Examples.cfgPrivate Examples.declHidden Examples.emptyIndex))
       (Examples.buildID (ed_decl Examples.declHidden)) = true.
Proof.
  split; [reflexivity|]. split; [reflexivity|]. split; [reflexivity|].
  pose proof (RecordMatcher_EnumMatcher_index_any_access
                Examples.regex_replace Examples.isInIgnoreList
                Examples.isInAnonymousNamespace Examples.buildID
                Examples.fillOutSymbol Examples.fillNamespace
                Examples.processSymbolComment Examples.getRecordProto
                Examples.exprToString Examples.getParaCommentContents
                Examples.cfgPrivate) as [Hrec Henum].
  split.
  - apply Hrec; [reflexivity|discriminate|reflexivity].
  - apply Henum. reflexivity.
Defined.

(** C3 as stated fails: for the deleted constructor [W::W] the callback
    returns before it counts, whatever the helpers are, so
    functions.numMatches stays 0 where one increment gives 1. *)
Lemma FunctionMatcher_deleted_counterexample :
  isDeletedAsWritten Examples.declDeleted = true
  /\ (forall regex_replace isInIgnoreList isInAnonymousNamespace buildID
             fillOutSymbol fillNamespace processSymbolComment
             getFunctionSignature exprToString cfg,
        numMatches
          (functions
             (FunctionMatcher_run regex_replace isInIgnoreList
                isInAnonymousNamespace buildID fillOutSymbol fillNamespace
                processSymbolComment getFunctionSignature exprToString cfg
                Examples.declDeleted Examples.emptyIndex)) = 0)
  /\ (numMatches (functions Examples.emptyIndex) + 1) mod 2 ^ 64 = 1.
Proof. repeat split. Qed.

Lemma FunctionMatcher_counts_candidates_witness :
  numMatches
    (functions
       (FunctionMatcher_run Examples.regex_replace Examples.isInIgnoreList
          Examples.isInAnonymousNamespace Examples.buildID
          Examples.fillOutSymbol Examples.fillNamespace
          Examples.processSymbolComment Examples.getFunctionSignature
          Examples.exprToString Examples.cfgPrivate Examples.declPlain
          Examples.emptyIndex)) = 1
  /\ FunctionMatcher_run Examples.regex_replace Examples.isInIgnoreList
       Examples.isInAnonymousNamespace Examples.buildID
       Examples.fillOutSymbol Examples.fillNamespace
       Examples.processSymbolComment Examples.getFunctionSignature
       Examples.exprToString Examples.cfgPrivate Examples.declDeleted
       Examples.emptyIndex = Examples.emptyIndex.
Proof.
  split.
  - exact (proj1 (FunctionMatcher_counts_candidates Examples.regex_replace
                    Examples.isInIgnoreList Examples.isInAnonymousNamespace
                    Examples.buildID Examples.fillOutSymbol
                    Examples.fillNamespace Examples.processSymbolComment
                    Examples.getFunctionSignature Examples.exprToString
                    Examples.cfgPrivate Examples.declPlain
                    Examples.emptyIndex)).
  - exact (proj1 (proj2 (FunctionMatcher_counts_candidates
                    Examples.regex_replace
                    Examples.isInIgnoreList Examples.isInAnonymousNamespace
                    Examples.buildID Examples.fillOutSymbol
                    Examples.fillNamespace Examples.processSymbolComment
                    Examples.getFunctionSignature Examples.exprToString
                    Examples.cfgPrivate Examples.declDeleted
                    Examples.emptyIndex)) eq_refl).
Defined.

End MatcherTheorems.

(** ** The post-passes one by one *)

Module PruneMethodsTheorems.
Import Indexer Props ClosedForms PruneTypeRefsFacts PostPassesTheorems.

(** X1. pruneMethods removes exactly the functions that are record members
    whose parentNamespaceID is no record of the Index: a function is stored
    afterwards, unchanged, exactly when it was stored before and is not
    such a member; free functions are never removed.  The match counter of
    the functions and the four other databases are left as they are. *)
Theorem pruneMethods_removes_exactly_orphans (idx : Index) :
  let idx' := pruneMethods idx in
  (forall k f,
     entries (functions idx') !! k = Some f
     <-> entries (functions idx) !! k = Some f
         /\ (f_isRecordMember f = true ->
             is_Some (entries (records idx) !! parentNamespaceID (f_sym f))))
  /\ numMatches (functions idx') = numMatches (functions idx)
  /\ records idx' = records idx /\ enums idx' = enums idx
  /\ namespaces idx' = namespaces idx /\ aliases idx' = aliases idx.
Proof.
  intros idx'. subst idx'. split.
  - intros k f. rewrite pruneMethods_lookup. by rewrite isOrphan_false.
  - split; [|apply pruneMethods_frame].
    rewrite pruneMethods_unfold. by destruct idx.
Qed.

Lemma toBePruned_pruned idx : toBePruned (pruneMethods idx) = [].
Proof.
  apply elem_of_nil_inv. intros k Hk.
  apply elem_of_toBePruned in Hk as (f & Hf & Ho).
  apply pruneMethods_lookup in Hf as [Hf Hn].
  unfold isOrphan in *.
  destruct (pruneMethods_frame idx) as (ER & _). rewrite ER in Ho. congruence.
Qed.

(** X2. pruneMethods is idempotent: after one run no function is left for
    a second run to remove. *)
Theorem pruneMethods_idempotent (idx : Index) :
  pruneMethods (pruneMethods idx) = pruneMethods idx.
Proof.
  unfold pruneMethods at 1. by rewrite toBePruned_pruned.
Qed.
End PruneMethodsTheorems.

(** *** Passes that are meant to run once *)

Module RunOnceTheorems.
Import Indexer Props ClosedForms PruneTypeRefsFacts ResolveNamespacesProofs
       UpdateRecordNamesProofs.

Lemma symbols_mapDb {T : Type} (sym : T -> Symbol) (g : T -> T) db :
  (forall v, sym (g v) = sym v) -> symbols sym (mapDb g db) = symbols sym db.
Proof.
  intros Hg. unfold symbols, Db.values, mapDb. cbn [entries].
  rewrite map_to_list_fmap, <- !list_fmap_compose.
  apply list_fmap_ext. intros i [k v] _. cbn. apply Hg.
Qed.

Lemma resolved_resolved idx ns :
  resolved (set_namespaces (mapDb (resolved idx) (namespaces idx)) idx) ns
  = resolved idx ns.
Proof.
  unfold resolved. destruct idx as [fs rs es nss als].
  cbn [set_namespaces records enums namespaces aliases].
  by rewrite symbols_mapDb.
Qed.

(** X3. resolveNamespaces only appends.  For a namespace stored under [k],
    one run keeps the symbol and the entries its four child lists already
    hold and appends, to the list of each kind, the IDs of the symbols of
    that kind whose parentNamespaceID is the namespace's ID, in the order
    in which the database is iterated.  The pass is therefore not
    idempotent: a second run appends the same IDs again, so every child is
    listed twice. *)
Theorem resolveNamespaces_appends_children (idx : Index) (k : SymbolID)
    (ns : NamespaceSymbol) (Hk : entries (namespaces idx) !! k = Some ns) :
  let y := n_sym ns in
  let cr := childIDs (symbols r_sym (records idx)) y in
  let ce := childIDs (symbols e_sym (enums idx)) y in
  let cn := childIDs (symbols n_sym (namespaces idx)) y in
  let ca := childIDs (symbols a_sym (aliases idx)) y in
  entries (namespaces (resolveNamespaces idx)) !! k
  = Some (mkNamespaceSymbol y (ns_records ns ++ cr) (ns_enums ns ++ ce)
            (ns_namespaces ns ++ cn) (ns_usings ns ++ ca))
  /\ entries (namespaces (resolveNamespaces (resolveNamespaces idx))) !! k
     = Some (mkNamespaceSymbol y (ns_records ns ++ cr ++ cr)
               (ns_enums ns ++ ce ++ ce) (ns_namespaces ns ++ cn ++ cn)
               (ns_usings ns ++ ca ++ ca)).
Proof.
  intros y cr ce cn ca.
  assert (H1 : entries (namespaces (resolveNamespaces idx)) !! k
               = Some (resolved idx ns)).
  { rewrite resolveNamespaces_unfold. destruct idx as [fs rs es nss als].
    cbn in *. by rewrite lookup_fmap, Hk. }
  split; [exact H1|].
  rewrite (resolveNamespaces_unfold (resolveNamespaces idx)).
  rewrite resolveNamespaces_unfold at 2.
  rewrite (mapDb_ext _ (resolved idx))
    by (intros v; rewrite resolveNamespaces_unfold; apply resolved_resolved).
  rewrite resolveNamespaces_unfold.
  destruct idx as [fs rs es nss als]. cbn in *.
  rewrite !lookup_fmap, Hk. cbn. unfold resolved. cbn.
  by rewrite <- !app_assoc.
Qed.

Lemma resolveNamespaces_appends_children_witness :
  entries (namespaces (resolveNamespaces (resolveNamespaces Examples.idxN))) !! 1
  = Some (mkNamespaceSymbol (Examples.sym 1 "a" 0 AS_none)
            [2; 2] [3; 3] [5; 5] []).
Proof.
  exact (proj2 (resolveNamespaces_appends_children Examples.idxN 1
                  Examples.nsA eq_refl)).
Defined.

Lemma updateRecordName_bases c : baseRecords (updateRecordName c) = baseRecords c.
Proof. unfold updateRecordName. by destruct (0 <? _). Qed.

(** X4. updateRecordNames is not idempotent either: the base list of a
    record is not consumed, so a second run appends the inheritance list
    to the proto once more.  (Base lists shorter than 2^64, as the loop
    counter is a 64-bit integer.) *)
Theorem updateRecordNames_twice_appends_twice (idx : Index)
    (Hlen : forall k c, entries (records idx) !! k = Some c ->
              Z.of_nat (length (baseRecords c)) < 2 ^ 64)
    (k : SymbolID) (c : RecordSymbol)
    (Hk : entries (records idx) !! k = Some c) :
  entries (records (updateRecordNames (updateRecordNames idx))) !! k
  = Some (mkRecordSymbol (r_sym c) (r_type c)
            (withInheritance (withInheritance (r_proto c) (baseRecords c))
                             (baseRecords c))
            (r_templateParams c) (baseRecords c) (methodIDs c)
            (aliasIDs c) (vars c)).
Proof.
  rewrite !updateRecordNames_unfold.
  destruct idx as [fs rs es nss als]. cbn in *.
  rewrite !lookup_fmap, Hk. cbn. f_equal.
  pose proof (Hlen k c Hk) as Hl.
  rewrite (updateRecordName_proto c Hl).
  rewrite updateRecordName_proto by done.
  reflexivity.
Qed.

Lemma updateRecordNames_twice_appends_twice_witness :
  r_proto <$> entries (records (updateRecordNames
                                  (updateRecordNames Examples.idxD))) !! 3
  = Some "struct D : public B, private C : public B, private C".
Proof.
  refine (f_equal (fmap r_proto)
            (updateRecordNames_twice_appends_twice Examples.idxD _ 3
               Examples.recD eq_refl)).
  intros k c H. unfold Examples.idxD in H. cbn [records entries] in H.
  apply lookup_singleton_Some in H as [_ <-].
  vm_compute. reflexivity.
Defined.
End RunOnceTheorems.

(** *** updateMemberFunctions: failure, frame and the case without template
    parameters *)

Module MemberFunctionsMore.
Import Indexer MemberFunctions Props PassProps StrFacts MemberFunctionsProofs
       MemberFunctionsTheorems.

Lemma substr_None s pos count : Str.substr s pos count = None <-> Str.size s < pos.
Proof.
  unfold Str.substr. destruct (Str.size s <? pos) eqn:E.
  - apply Z.ltb_lt in E. by split.
  - apply Z.ltb_ge in E. split; [done|lia].
Qed.

Lemma splitProto_None f : splitProto f = None <-> offset_out_of_range f.
Proof.
  unfold splitProto, offset_out_of_range, Str.substr_from.
  pose proof (size_nonneg (f_proto f)) as H0.
  destruct (Str.substr (f_proto f) 0 (postTemplate f)) as [tp|] eqn:E0.
  2: { apply substr_None in E0. lia. }
  cbn [mbind option_bind].
  destruct (Str.substr (f_proto f) (postTemplate f) _) as [pn|] eqn:E1.
  2: { apply substr_None in E1. split; [by left|done]. }
  cbn [mbind option_bind].
  destruct (Str.substr (f_proto f) (nameStart f) _) as [rest|] eqn:E2.
  2: { apply substr_None in E2. split; [by right|done]. }
  cbn [mbind option_bind]. split; [done|].
  intros [H|H].
  - apply (substr_None _ _ (Str.sub64 (nameStart f) (postTemplate f))) in H.
    congruence.
  - apply (substr_None _ _ Str.npos) in H. congruence.
Qed.

Lemma updateMemberFunction_None replaceAll c f :
  updateMemberFunction replaceAll c f = None <-> offset_out_of_range f.
Proof.
  rewrite <- splitProto_None. unfold updateMemberFunction.
  destruct (splitProto f) as [[[tp pn] rest]|]; by cbn.
Qed.

(** After a visit both offsets lie within the proto. *)
Lemma updateMemberFunction_in_range replaceAll c f f' :
  updateMemberFunction replaceAll c f = Some f' -> ~ offset_out_of_range f'.
Proof.
  intros H.
  assert (Hin : ~ offset_out_of_range f).
  { rewrite <- (updateMemberFunction_None replaceAll c). congruence. }
  revert H. unfold updateMemberFunction.
  destruct (splitProto f) as [[[tp pn] rest]|]; [|done].
  cbn [mbind option_bind]. intros [= <-].
  case_bool_decide as Hne; unfold offset_out_of_range in *; cbn.
  - set (a := fixTypeParam replaceAll c tp).
    set (b := fixTypeParam replaceAll c pn).
    set (r := fixTypeParam replaceAll c rest).
    rewrite !size_app. unfold Str.add64.
    pose proof (size_nonneg a). pose proof (size_nonneg b).
    pose proof (size_nonneg r).
    pose proof (Z.mod_le (Str.size a + Str.size b) (2 ^ 64)).
    lia.
  - exact Hin.
Qed.

Lemma visits_throw replaceAll ps idx :
  for_each_try ps (fun p i => visitMethod replaceAll p.1 p.2 i) idx = None
  <-> exists c mid f, (c, mid) ∈ ps /\ entries (functions idx) !! mid = Some f
                      /\ offset_out_of_range f.
Proof.
  revert idx. induction ps as [|[c mid] ps IH]; intros idx.
  - cbn. split; [done|]. intros (c & mid & f & H & _). by apply elem_of_nil in H.
  - cbn [for_each_try fst snd]. unfold visitMethod at 1, Db.contains.
    destruct (entries (functions idx) !! mid) as [f|] eqn:E.
    + rewrite bool_decide_eq_true_2 by eauto. cbn [negb].
      destruct (updateMemberFunction replaceAll c f) as [f'|] eqn:U.
      * cbn [mbind option_bind].
        pose proof (updateMemberFunction_in_range _ _ _ _ U) as Hin'.
        assert (Hin : ~ offset_out_of_range f).
        { rewrite <- (updateMemberFunction_None replaceAll c). congruence. }
        rewrite IH. destruct idx as [fs rs es ns als]. cbn in *.
        split; intros (c' & mid' & g & Hp & Hg & Hbad).
        -- destruct (decide (mid' = mid)) as [->|Hne].
           ++ rewrite lookup_insert_eq in Hg. by injection Hg as <-.
           ++ rewrite lookup_insert_ne in Hg by done.
              exists c', mid', g. split; [|done]. apply elem_of_cons; by right.
        -- apply elem_of_cons in Hp as [[= -> ->]|Hp].
           ++ rewrite E in Hg. by injection Hg as <-.
           ++ destruct (decide (mid' = mid)) as [->|Hne].
              ** rewrite E in Hg. by injection Hg as <-.
              ** exists c', mid', g. rewrite lookup_insert_ne by done. done.
      * cbn [mbind option_bind]. split; [intros _|done].
        exists c, mid, f. split; [apply elem_of_cons; by left|]. split; [done|].
        by apply (updateMemberFunction_None replaceAll c).
    + rewrite bool_decide_eq_false_2 by (by intros [? ?]). cbn [negb].
      rewrite IH. split; intros (c' & mid' & g & Hp & Hg & Hbad).
      * exists c', mid', g. split; [|done]. apply elem_of_cons; by right.
      * apply elem_of_cons in Hp as [[= -> ->]|Hp]; [congruence|].
        by exists c', mid', g.
Qed.

(** X5. updateMemberFunctions fails (a [substr] call throws
    [std::out_of_range], which nothing catches) exactly when some record
    lists a method that is in the Index and has postTemplate or nameStart
    beyond the end of its proto; in every other case the pass completes.
    A listed method that is not in the Index is skipped and never makes
    the pass fail, and offsets in the wrong order do not either. *)
Theorem updateMemberFunctions_throws_iff
    (replaceAll : string -> string -> string -> string) (idx : Index) :
  updateMemberFunctions replaceAll idx = None
  <-> exists k c mid f,
        entries (records idx) !! k = Some c /\ mid ∈ methodIDs c
        /\ entries (functions idx) !! mid = Some f
        /\ (Str.size (f_proto f) < postTemplate f
            \/ Str.size (f_proto f) < nameStart f).
Proof.
  rewrite updateMemberFunctions_visits, visits_throw. split.
  - intros (c & mid & f & [[k Hk] Hm]%elem_of_visits & Hf & Hbad).
    by exists k, c, mid, f.
  - intros (k & c & mid & f & Hk & Hm & Hf & Hbad).
    exists c, mid, f. split; [|done]. apply elem_of_visits. eauto.
Qed.

(** **** What a completed run leaves alone *)

Lemma signature_only_refl f : signature_only f f.
Proof.
  split; [done|]. induction (params f) as [|p ps IH]; by constructor.
Qed.

Lemma params_kept_trans ps qs rs :
  Forall2 param_kept ps qs -> Forall2 param_kept qs rs ->
  Forall2 param_kept ps rs.
Proof.
  intros H. revert rs. induction H as [|p q ps qs [? ?] _ IH]; intros rs Hr.
  - by inversion Hr.
  - inversion Hr as [|q' r qs' rs' [? ?] Hr']; subst. constructor.
    + split; congruence.
    + by apply IH.
Qed.

Lemma signature_only_trans f g h :
  signature_only f g -> signature_only g h -> signature_only f h.
Proof.
  intros [(A1 & A2 & A3 & A4 & A5) P1] [(B1 & B2 & B3 & B4 & B5) P2].
  split; [repeat split; congruence|].
  by eapply params_kept_trans.
Qed.

Lemma updateMemberFunction_signature_only replaceAll c f f' :
  updateMemberFunction replaceAll c f = Some f' -> signature_only f f'.
Proof.
  unfold updateMemberFunction.
  destruct (splitProto f) as [[[tp pn] rest]|]; [|done].
  cbn [mbind option_bind]. intros [= <-].
  assert (Hp : forall ps, Forall2 param_kept ps (map (fixParam replaceAll c) ps)).
  { intros ps. induction ps as [|p ps IH]; by constructor. }
  case_bool_decide; (split; [|apply Hp]);
    by destruct f as [[] ? ? ? ? ? ? ? ?].
Qed.

Lemma rewrites_only_refl i : rewrites_only i i.
Proof.
  repeat split. intros mid.
  destruct (entries (functions i) !! mid); constructor.
  apply signature_only_refl.
Qed.

Lemma rewrites_only_trans i j l :
  rewrites_only i j -> rewrites_only j l -> rewrites_only i l.
Proof.
  intros (R1 & E1 & N1 & A1 & M1 & F1) (R2 & E2 & N2 & A2 & M2 & F2).
  repeat split; try congruence. intros mid.
  specialize (F1 mid). specialize (F2 mid).
  destruct F1 as [f g Hfg|]; inversion F2 as [g' h Hgh|]; subst; constructor.
  by eapply signature_only_trans.
Qed.

Lemma visitMethod_rewrites_only replaceAll c mid i i' :
  visitMethod replaceAll c mid i = Some i' ->
  rewrites_only i i'
  /\ forall mid', mid' <> mid ->
       entries (functions i') !! mid' = entries (functions i) !! mid'.
Proof.
  unfold visitMethod. destruct (negb _).
  - intros [= <-]. split; [apply rewrites_only_refl|done].
  - destruct (entries (functions i) !! mid) as [f|] eqn:E; [|done].
    destruct (updateMemberFunction replaceAll c f) as [f'|] eqn:U; [|done].
    cbn [mbind option_bind]. intros [= <-].
    destruct i as [fs rs es ns als]; cbn in *. split.
    + repeat split. intros k. cbn. destruct (decide (k = mid)) as [->|Hne].
      * rewrite lookup_insert_eq, E. constructor.
        by apply (updateMemberFunction_signature_only replaceAll c).
      * rewrite lookup_insert_ne by done.
        destruct (entries fs !! k); constructor. apply signature_only_refl.
    + intros mid' Hne. by rewrite lookup_insert_ne.
Qed.

Lemma visits_rewrite_only replaceAll ps i i' :
  for_each_try ps (fun p i => visitMethod replaceAll p.1 p.2 i) i = Some i' ->
  rewrites_only i i'
  /\ forall mid, mid ∉ ps.*2 ->
       entries (functions i') !! mid = entries (functions i) !! mid.
Proof.
  revert i. induction ps as [|[c m] ps IH]; intros i; cbn [for_each_try fst snd].
  - intros [= <-]. split; [apply rewrites_only_refl|done].
  - destruct (visitMethod replaceAll c m i) as [j|] eqn:E; [|done].
    intros H. destruct (visitMethod_rewrites_only _ _ _ _ _ E) as [R1 O1].
    destruct (IH _ H) as [R2 O2]. split; [by eapply rewrites_only_trans|].
    intros mid Hn. cbn [fmap list_fmap snd] in Hn.
    apply not_elem_of_cons in Hn as [Hne Hn].
    rewrite (O2 mid Hn). by apply O1.
Qed.

(** X6. Whenever updateMemberFunctions completes, it has added and removed
    no function and has touched nothing but signatures: records, enums,
    namespaces, aliases and the match counter of the functions are as
    before; every function keeps its ID, file, line, parent, comments,
    access, return type, template parameters, qualifiers and
    isRecordMember, and each of its parameters keeps its name and the id
    of its type; a function that no record lists as a method is left
    exactly as it was. *)
Theorem updateMemberFunctions_rewrites_signatures_only
    (replaceAll : string -> string -> string -> string) (idx idx' : Index)
    (Hrun : updateMemberFunctions replaceAll idx = Some idx') :
  records idx' = records idx /\ enums idx' = enums idx
  /\ namespaces idx' = namespaces idx /\ aliases idx' = aliases idx
  /\ numMatches (functions idx') = numMatches (functions idx)
  /\ (forall mid, option_Forall2 signature_only
                    (entries (functions idx) !! mid)
                    (entries (functions idx') !! mid))
  /\ (forall mid,
        (forall k c, entries (records idx) !! k = Some c -> mid ∉ methodIDs c) ->
        entries (functions idx') !! mid = entries (functions idx) !! mid).
Proof.
  rewrite updateMemberFunctions_visits in Hrun.
  destruct (visits_rewrite_only _ _ _ _ Hrun)
    as [(R & E & N & A & M & F) Hout].
  do 6 (split; [done|]).
  intros mid Hno. apply Hout.
  intros ([c m] & -> & [[k Hk] Hm]%elem_of_visits)%list_elem_of_fmap.
  by apply (Hno k c).
Qed.

Lemma updateMemberFunctions_rewrites_signatures_only_witness :
  exists idx',
    updateMemberFunctions StringUtils.replaceAll Examples.idxS = Some idx'
    /\ records idx' = records Examples.idxS
    /\ forall mid, option_Forall2 signature_only
                     (entries (functions Examples.idxS) !! mid)
                     (entries (functions idx') !! mid).
Proof.
  eexists. split; [vm_compute; reflexivity|].
  pose proof (updateMemberFunctions_rewrites_signatures_only
                StringUtils.replaceAll Examples.idxS _
                ltac:(vm_compute; reflexivity)) as H.
  split; [exact (proj1 H)|].
  exact (proj1 (proj2 (proj2 (proj2 (proj2 (proj2 H)))))).
Defined.

(** **** Records without template parameters *)

Lemma fixTypeParam_no_params replaceAll c s :
  r_templateParams c = [] -> fixTypeParam replaceAll c s = s.
Proof. intros H. unfold fixTypeParam. by rewrite H. Qed.

Lemma updateMemberFunction_no_params replaceAll c f :
  r_templateParams c = [] -> offsets_ordered f -> fits_size_t (f_proto f) ->
  updateMemberFunction replaceAll c f = Some f.
Proof.
  intros Hc Hord Hfit.
  destruct (splitProto_ordered f Hord Hfit) as (Hsplit & Hparts & _ & _).
  unfold updateMemberFunction. rewrite Hsplit. cbn [mbind option_bind].
  rewrite !(fixTypeParam_no_params replaceAll c) by done.
  rewrite <- Hparts. rewrite bool_decide_eq_false_2 by (intros H; by apply H).
  f_equal. unfold set_params.
  assert (Hp : map (fixParam replaceAll c) (params f) = params f).
  { rewrite <- (map_id (params f)) at 2. apply map_ext. intros [n [tn ti] d].
    unfold fixParam, set_tr_name. cbn.
    by rewrite !(fixTypeParam_no_params replaceAll c). }
  rewrite Hp. by destruct f.
Qed.

(** X7. On an Index whose records have no template parameters,
    updateMemberFunctions completes and changes nothing at all, provided
    the listed methods that are present have ordered offsets (and a proto
    whose size is a size_t): the proto is split and recomposed to itself,
    and nothing is substituted. *)
Theorem updateMemberFunctions_without_template_params
    (replaceAll : string -> string -> string -> string) (idx : Index)
    (Hnone : forall k c, entries (records idx) !! k = Some c ->
               r_templateParams c = [])
    (Hok : forall k c mid f,
             entries (records idx) !! k = Some c -> mid ∈ methodIDs c ->
             entries (functions idx) !! mid = Some f ->
             offsets_ordered f /\ fits_size_t (f_proto f)) :
  updateMemberFunctions replaceAll idx = Some idx.
Proof.
  rewrite updateMemberFunctions_visits.
  assert (H : forall ps, (forall p, p ∈ ps -> p ∈ visits idx) ->
            for_each_try ps (fun p i => visitMethod replaceAll p.1 p.2 i) idx
            = Some idx); [|by apply H].
  induction ps as [|[c mid] ps IH]; intros Hsub; [done|].
  cbn [for_each_try fst snd].
  assert (Hv : visitMethod replaceAll c mid idx = Some idx).
  { assert (Hin : (c, mid) ∈ visits idx)
      by (apply Hsub, elem_of_cons; by left).
    apply elem_of_visits in Hin as [[k Hk] Hm].
    unfold visitMethod, Db.contains.
    destruct (entries (functions idx) !! mid) as [f|] eqn:E.
    - rewrite bool_decide_eq_true_2 by eauto. cbn [negb].
      destruct (Hok k c mid f Hk Hm E) as [Hord Hfit].
      rewrite (updateMemberFunction_no_params replaceAll c f
                 (Hnone k c Hk) Hord Hfit).
      cbn [mbind option_bind]. f_equal.
      destruct idx as [[m n] rs es ns als]. cbn in *.
      unfold set_functions, Db.update. cbn. by rewrite insert_id.
    - by rewrite bool_decide_eq_false_2 by (by intros [? ?]). }
  rewrite Hv. apply IH. intros p Hp. apply Hsub, elem_of_cons. by right.
Qed.

Lemma updateMemberFunctions_without_template_params_witness :
  updateMemberFunctions StringUtils.replaceAll MoreExamples.idxP
  = Some MoreExamples.idxP.
Proof.
  apply updateMemberFunctions_without_template_params.
  - intros k c H. unfold MoreExamples.idxP in H. cbn [records entries] in H.
    by apply lookup_singleton_Some in H as [_ <-].
  - intros k c mid f Hk Hm Hf. unfold MoreExamples.idxP in Hk, Hf.
    cbn [records functions entries] in Hk, Hf.
    apply lookup_singleton_Some in Hk as [_ <-].
    apply list_elem_of_singleton in Hm as ->.
    apply lookup_singleton_Some in Hf as [_ <-].
    split; [repeat split; apply Z.leb_le; vm_compute; reflexivity|].
    apply Z.ltb_lt. vm_compute. reflexivity.
Defined.
End MemberFunctionsMore.

(** *** pruneTypeRefs: its fixed points *)

Module PruneTypeRefsMore.
Import Indexer Props ClosedForms PruneTypeRefsFacts PruneTypeRefsProofs.

Lemma pruneTypeRefs_linked idx : typeRefs_linked (pruneTypeRefs idx).
Proof.
  pose proof (same_ids_pruned idx) as Hids.
  assert (Hl : forall t, linked (pruneTypeRefs idx) (pruneRef idx t)).
  { intros t. destruct (pruneRef_linked idx t) as [H|H]; [by left|right].
    by apply (resolves_same_ids (pruneTypeRefs idx) idx). }
  revert Hl. rewrite pruneTypeRefs_unfold.
  set (idx' := mkIndex _ _ _ _ _). intros Hl.
  split; [|split].
  - intros k f H. cbn in H. rewrite lookup_fmap in H.
    destruct (entries (functions idx) !! k) as [f0|]; [|done].
    injection H as <-. split; [apply Hl|]. cbn.
    apply Forall_forall. intros p Hp.
    apply list_elem_of_In, in_map_iff in Hp as (p0 & <- & _). apply Hl.
  - intros k c H. cbn in H. rewrite lookup_fmap in H.
    destruct (entries (records idx) !! k) as [c0|]; [|done].
    injection H as <-. cbn. apply Forall_forall. intros p Hp.
    apply list_elem_of_In, in_map_iff in Hp as (p0 & <- & _). apply Hl.
  - intros k a H. cbn in H. rewrite lookup_fmap in H.
    destruct (entries (aliases idx) !! k) as [a0|]; [|done].
    injection H as <-. apply Hl.
Qed.

Lemma pruneRef_linked_id idx t : linked idx t -> pruneRef idx t = t.
Proof.
  unfold pruneRef. intros [H|H].
  - destruct (haveId idx (tr_id t)); [done|]. cbn.
    destruct t as [n i]. cbn in *. by subst.
  - apply haveId_resolves in H. by rewrite H.
Qed.

Lemma mapDb_id_on {T : Type} (g : T -> T) (db : Database T) :
  (forall k v, entries db !! k = Some v -> g v = v) -> mapDb g db = db.
Proof.
  intros H. unfold mapDb. destruct db as [m n]. cbn in *. f_equal.
  rewrite <- (map_fmap_id m) at 2. apply map_fmap_ext. intros k v Hk.
  by apply (H k).
Qed.

(** X8. The Indexes that pruneTypeRefs leaves exactly as they are, are
    those in which every TypeRef of a function return type, function
    parameter, member variable or alias target already has a null id or
    an id that resolves to a record, enum or alias. *)
Theorem pruneTypeRefs_fixes_exactly_linked (idx : Index) :
  pruneTypeRefs idx = idx <-> typeRefs_linked idx.
Proof.
  split.
  - intros H. rewrite <- H. apply pruneTypeRefs_linked.
  - intros (Hf & Hr & Ha). rewrite pruneTypeRefs_unfold.
    rewrite (mapDb_id_on (pruneFunction idx)), (mapDb_id_on (pruneRecord idx)),
            (mapDb_id_on (pruneAlias idx)); [by destruct idx| | |].
    + intros k a Hk. unfold pruneAlias.
      rewrite pruneRef_linked_id by (by apply (Ha k)). by destruct a.
    + intros k c Hk. unfold pruneRecord.
      assert (Hm : map (fun var => set_mv_type (pruneRef idx (mv_type var)) var)
                       (vars c) = vars c).
      { specialize (Hr k c Hk). induction Hr as [|v vs Hv _ IH]; [done|].
        cbn [map]. rewrite IH, pruneRef_linked_id by done. by destruct v. }
      rewrite Hm. by destruct c.
    + intros k f Hk. destruct (Hf k f Hk) as [Hrt Hps]. unfold pruneFunction.
      rewrite pruneRef_linked_id by done.
      assert (Hm : map (fun param => set_fp_type (pruneRef idx (fp_type param))
                                                 param)
                       (params f) = params f).
      { induction Hps as [|p ps Hp _ IH]; [done|].
        cbn [map]. rewrite IH, pruneRef_linked_id by done. by destruct p. }
      cbn. rewrite Hm. by destruct f.
Qed.
End PruneTypeRefsMore.

(** *** The order of the passes *)

Module PassOrderTheorems.
Import Indexer Props ClosedForms PruneTypeRefsFacts PruneTypeRefsProofs
       ResolveNamespacesProofs UpdateRecordNamesProofs PostPassesTheorems
       RunOnceTheorems.

Lemma pruneMethods_closed idx :
  pruneMethods idx
  = set_functions
      (mkDatabase
         (omap (fun f => if isOrphan idx f then None else Some f)
               (entries (functions idx)))
         (numMatches (functions idx))) idx.
Proof.
  rewrite pruneMethods_unfold. do 2 f_equal. apply map_eq. intros k.
  rewrite foldl_delete_lookup, lookup_omap.
  destruct (decide (k ∈ toBePruned idx)) as [Hin|Hin].
  - apply elem_of_toBePruned in Hin as (f & -> & Ho). cbn. by rewrite Ho.
  - destruct (entries (functions idx) !! k) as [f|] eqn:E; cbn; [|done].
    destruct (isOrphan idx f) eqn:Ho; [|done].
    exfalso. apply Hin, elem_of_toBePruned. eauto.
Qed.

Lemma isOrphan_dom i j f :
  dom (entries (records i)) = dom (entries (records j)) ->
  isOrphan i f = isOrphan j f.
Proof. intros H. unfold isOrphan. by rewrite (contains_dom _ _ _ H). Qed.

Lemma mapDb_mapDb {T : Type} (g h : T -> T) (db : Database T) :
  mapDb g (mapDb h db) = mapDb (g ∘ h) db.
Proof. unfold mapDb. cbn. by rewrite <- map_fmap_compose. Qed.

Lemma resolved_records idx rs ns :
  symbols r_sym rs = symbols r_sym (records idx) ->
  resolved (set_records rs idx) ns = resolved idx ns.
Proof. intros H. unfold resolved. destruct idx; cbn in *. by rewrite H. Qed.

Lemma updateRecordName_sym c : r_sym (updateRecordName c) = r_sym c.
Proof. unfold updateRecordName. by destruct (0 <? _). Qed.

Lemma updateRecordName_pruneRecord i c :
  updateRecordName (pruneRecord i c) = pruneRecord i (updateRecordName c).
Proof.
  unfold updateRecordName, pruneRecord. cbn.
  by destruct (0 <? Z.of_nat (length (baseRecords c))).
Qed.

Lemma resolveNamespaces_updateRecordNames idx :
  resolveNamespaces (updateRecordNames idx)
  = updateRecordNames (resolveNamespaces idx).
Proof.
  rewrite (resolveNamespaces_unfold (updateRecordNames idx)).
  rewrite (updateRecordNames_unfold (resolveNamespaces idx)).
  rewrite updateRecordNames_unfold, resolveNamespaces_unfold.
  rewrite (mapDb_ext (resolved (set_records _ idx)) (resolved idx)).
  - by destruct idx.
  - intros ns. apply resolved_records. apply symbols_mapDb.
    apply updateRecordName_sym.
Qed.

Lemma resolved_pruneTypeRefs idx ns :
  resolved (pruneTypeRefs idx) ns = resolved idx ns.
Proof.
  rewrite pruneTypeRefs_unfold. unfold resolved.
  cbn [records enums namespaces aliases].
  by rewrite !symbols_mapDb.
Qed.

Lemma same_ids_resolveNamespaces idx : same_ids (resolveNamespaces idx) idx.
Proof. rewrite resolveNamespaces_unfold. by destruct idx. Qed.

Lemma same_ids_updateRecordNames idx : same_ids (updateRecordNames idx) idx.
Proof.
  rewrite updateRecordNames_unfold. destruct idx. repeat split; try done.
  cbn. apply dom_fmap_L.
Qed.

Lemma same_ids_pruneMethods idx : same_ids (pruneMethods idx) idx.
Proof. rewrite pruneMethods_unfold. by destruct idx. Qed.

(** pruneTypeRefs on an Index that holds the IDs of [idx]. *)
Lemma pruneTypeRefs_same_ids i idx :
  same_ids i idx ->
  pruneTypeRefs i
  = mkIndex (mapDb (pruneFunction idx) (functions i))
            (mapDb (pruneRecord idx) (records i))
            (enums i) (namespaces i)
            (mapDb (pruneAlias idx) (aliases i)).
Proof.
  intros H. rewrite pruneTypeRefs_unfold.
  rewrite (mapDb_ext (pruneFunction i) (pruneFunction idx))
    by (intros v; by apply pruneFunction_same_ids).
  rewrite (mapDb_ext (pruneRecord i) (pruneRecord idx))
    by (intros v; by apply pruneRecord_same_ids).
  rewrite (mapDb_ext (pruneAlias i) (pruneAlias idx))
    by (intros v; by apply pruneAlias_same_ids).
  done.
Qed.

Lemma resolveNamespaces_pruneTypeRefs idx :
  resolveNamespaces (pruneTypeRefs idx) = pruneTypeRefs (resolveNamespaces idx).
Proof.
  rewrite (pruneTypeRefs_same_ids _ idx (same_ids_resolveNamespaces idx)).
  rewrite (resolveNamespaces_unfold (pruneTypeRefs idx)).
  rewrite (mapDb_ext (resolved (pruneTypeRefs idx)) (resolved idx))
    by apply resolved_pruneTypeRefs.
  rewrite pruneTypeRefs_unfold, resolveNamespaces_unfold. by destruct idx.
Qed.

Lemma updateRecordNames_pruneTypeRefs idx :
  updateRecordNames (pruneTypeRefs idx) = pruneTypeRefs (updateRecordNames idx).
Proof.
  rewrite (pruneTypeRefs_same_ids _ idx (same_ids_updateRecordNames idx)).
  rewrite (updateRecordNames_unfold (pruneTypeRefs idx)).
  rewrite pruneTypeRefs_unfold, updateRecordNames_unfold.
  destruct idx as [fs rs es nss als]. unfold set_records.
  cbn [functions records enums namespaces aliases].
  rewrite !mapDb_mapDb. f_equal. apply mapDb_ext. intros c. cbn.
  apply updateRecordName_pruneRecord.
Qed.

Lemma pruneMethods_resolveNamespaces idx :
  pruneMethods (resolveNamespaces idx) = resolveNamespaces (pruneMethods idx).
Proof.
  rewrite (resolveNamespaces_unfold (pruneMethods idx)).
  rewrite (pruneMethods_closed (resolveNamespaces idx)).
  rewrite pruneMethods_closed, resolveNamespaces_unfold.
  by destruct idx.
Qed.

Lemma pruneMethods_updateRecordNames idx :
  pruneMethods (updateRecordNames idx) = updateRecordNames (pruneMethods idx).
Proof.
  rewrite (updateRecordNames_unfold (pruneMethods idx)).
  rewrite (pruneMethods_closed (updateRecordNames idx)).
  rewrite (omap_ext _ (fun f => if isOrphan idx f then None else Some f)).
  - rewrite pruneMethods_closed, updateRecordNames_unfold. by destruct idx.
  - intros k f _.
    by rewrite (isOrphan_dom _ idx f (proj1 (same_ids_updateRecordNames idx))).
Qed.

Lemma pruneMethods_pruneTypeRefs idx :
  pruneMethods (pruneTypeRefs idx) = pruneTypeRefs (pruneMethods idx).
Proof.
  rewrite (pruneTypeRefs_same_ids _ idx (same_ids_pruneMethods idx)).
  rewrite (pruneMethods_closed (pruneTypeRefs idx)).
  rewrite (omap_ext _ (fun f => if isOrphan idx f then None else Some f)).
  2: { intros k f _.
       by rewrite (isOrphan_dom _ idx f (proj1 (same_ids_pruned idx))). }
  rewrite pruneMethods_closed, pruneTypeRefs_unfold.
  destruct idx as [fs rs es nss als]. unfold set_functions, mapDb.
  cbn [functions records enums namespaces aliases entries numMatches].
  do 2 f_equal. apply map_eq. intros k.
  rewrite lookup_omap, !lookup_fmap, lookup_omap.
  destruct (entries fs !! k) as [f|]; [|done]. cbn.
  set (i := mkIndex fs rs es nss als).
  assert (Ho : isOrphan i (pruneFunction i f) = isOrphan i f) by done.
  rewrite Ho. by destruct (isOrphan i f).
Qed.

(** X9. The four passes that cannot fail commute pairwise: pruneMethods,
    resolveNamespaces, updateRecordNames and pruneTypeRefs write disjoint
    parts of the Index, and none of them changes what another one reads
    (the IDs stored, the parent pointers, the base lists), so any two of
    them give the same Index in either order. *)
Theorem total_passes_commute (idx : Index) :
  resolveNamespaces (updateRecordNames idx)
  = updateRecordNames (resolveNamespaces idx)
  /\ resolveNamespaces (pruneTypeRefs idx)
     = pruneTypeRefs (resolveNamespaces idx)
  /\ updateRecordNames (pruneTypeRefs idx)
     = pruneTypeRefs (updateRecordNames idx)
  /\ pruneMethods (resolveNamespaces idx)
     = resolveNamespaces (pruneMethods idx)
  /\ pruneMethods (updateRecordNames idx)
     = updateRecordNames (pruneMethods idx)
  /\ pruneMethods (pruneTypeRefs idx) = pruneTypeRefs (pruneMethods idx).
Proof.
  split; [apply resolveNamespaces_updateRecordNames|].
  split; [apply resolveNamespaces_pruneTypeRefs|].
  split; [apply updateRecordNames_pruneTypeRefs|].
  split; [apply pruneMethods_resolveNamespaces|].
  split; [apply pruneMethods_updateRecordNames|].
  apply pruneMethods_pruneTypeRefs.
Qed.
End PassOrderTheorems.

(** *** What no sequence of passes does *)

Module PassFrameTheorems.
Import Indexer MemberFunctions Props PassProps ClosedForms PruneTypeRefsFacts
       ResolveNamespacesProofs UpdateRecordNamesProofs PostPassesTheorems
       MemberFunctionsTheorems MemberFunctionsMore PassOrderTheorems.

Lemma symbols_kept_refl i : symbols_kept i i.
Proof. by repeat split. Qed.

Lemma symbols_kept_trans i j l :
  symbols_kept i j -> symbols_kept j l -> symbols_kept i l.
Proof.
  intros (F1 & R1 & E1 & N1 & A1 & C1) (F2 & R2 & E2 & N2 & A2 & C2).
  split; [by transitivity (dom (entries (functions j)))|].
  repeat split; congruence.
Qed.

Lemma dom_option_Forall2 {T : Type} (R : T -> T -> Prop) (m m' : gmap SymbolID T) :
  (forall k, option_Forall2 R (m !! k) (m' !! k)) -> dom m' = dom m.
Proof.
  intros H. apply set_eq. intros k. rewrite !elem_of_dom.
  specialize (H k). destruct H; split; intros [? ?]; eauto; done.
Qed.

Lemma updateMemberFunctions_functions replaceAll i i' :
  updateMemberFunctions replaceAll i = Some i' ->
  rewrites_only i i'.
Proof.
  rewrite updateMemberFunctions_visits. intros H.
  by destruct (visits_rewrite_only _ _ _ _ H).
Qed.

(** What each pass keeps; [same] tells whether it also keeps every
    function. *)
Lemma runPass_symbols_kept replaceAll p i i' :
  PostPasses.runPass replaceAll p i = Some i' ->
  symbols_kept i i'
  /\ (p <> PostPasses.PruneMethods ->
      dom (entries (functions i')) = dom (entries (functions i))).
Proof.
  destruct p; cbn [PostPasses.runPass].
  - intros [= <-]. split; [|done]. rewrite pruneMethods_closed.
    destruct i as [fs rs es nss als]. repeat split; try done.
    cbn. apply dom_omap_subseteq.
  - intros [= <-]. rewrite resolveNamespaces_unfold.
    destruct i as [fs rs es nss als].
    repeat split; try done. cbn. apply dom_fmap_L.
  - intros [= <-]. rewrite updateRecordNames_unfold.
    destruct i as [fs rs es nss als].
    repeat split; try done. cbn. apply dom_fmap_L.
  - intros H. apply updateMemberFunctions_functions in H
      as (R & E & N & A & M & F).
    pose proof (dom_option_Forall2 _ _ _ F) as D.
    split; [|done]. unfold symbols_kept, counters.
    rewrite R, E, N, A, M, D. by repeat split.
  - intros [= <-]. rewrite pruneTypeRefs_unfold.
    destruct i as [fs rs es nss als].
    repeat split; try done; cbn; try apply dom_fmap_L; by rewrite dom_fmap_L.
Qed.

Lemma runPasses_symbols_kept replaceAll ps i i' :
  PostPasses.runPasses replaceAll ps i = Some i' ->
  symbols_kept i i'
  /\ (PostPasses.PruneMethods ∉ ps ->
      dom (entries (functions i')) = dom (entries (functions i))).
Proof.
  unfold PostPasses.runPasses. revert i.
  induction ps as [|p ps IH]; intros i; cbn [for_each_try].
  - intros [= <-]. split; [apply symbols_kept_refl|done].
  - destruct (PostPasses.runPass replaceAll p i) as [j|] eqn:E; [|done].
    intros H. destruct (runPass_symbols_kept _ _ _ _ E) as [K1 S1].
    destruct (IH _ H) as [K2 S2].
    split; [by eapply symbols_kept_trans|].
    intros Hn. apply not_elem_of_cons in Hn as [Hne Hn].
    rewrite (S2 Hn). apply S1. congruence.
Qed.

(** X10. No sequence of post-passes adds a symbol or forgets one other
    than a function.  Whatever passes run, in whatever order and however
    often, once they have completed the Index stores no function it did
    not store before, the same records, namespaces and aliases by ID, the
    very same enums, and the five match counters are as the extractors
    left them; if pruneMethods is not among the passes, the functions
    stored are the same by ID as well. *)
Theorem postPasses_keep_symbols
    (replaceAll : string -> string -> string -> string)
    (ps : list PostPasses.Pass) (idx idx' : Index)
    (Hrun : PostPasses.runPasses replaceAll ps idx = Some idx') :
  dom (entries (functions idx')) ⊆ dom (entries (functions idx))
  /\ dom (entries (records idx')) = dom (entries (records idx))
  /\ enums idx' = enums idx
  /\ dom (entries (namespaces idx')) = dom (entries (namespaces idx))
  /\ dom (entries (aliases idx')) = dom (entries (aliases idx))
  /\ counters idx' = counters idx
  /\ (PostPasses.PruneMethods ∉ ps ->
      dom (entries (functions idx')) = dom (entries (functions idx))).
Proof.
  destruct (runPasses_symbols_kept _ _ _ _ Hrun)
    as [(F & R & E & N & A & C) S].
  by repeat split.
Qed.

Lemma postPasses_keep_symbols_witness :
  exists idx',
    PostPasses.runPasses StringUtils.replaceAll
      [PostPasses.UpdateMemberFunctions; PostPasses.PruneMethods;
       PostPasses.ResolveNamespaces; PostPasses.PruneMethods]
      Examples.idxS = Some idx'
    /\ dom (entries (records idx')) = dom (entries (records Examples.idxS))
    /\ counters idx' = counters Examples.idxS.
Proof.
  destruct (PostPasses.runPasses StringUtils.replaceAll
              [PostPasses.UpdateMemberFunctions; PostPasses.PruneMethods;
               PostPasses.ResolveNamespaces; PostPasses.PruneMethods]
              Examples.idxS) as [idx'|] eqn:E.
  - exists idx'. split; [reflexivity|].
    pose proof (postPasses_keep_symbols _ _ _ _ E) as H.
    split; [exact (proj1 (proj2 H))|].
    exact (proj1 (proj2 (proj2 (proj2 (proj2 (proj2 H)))))).
  - vm_compute in E. discriminate E.
Defined.
End PassFrameTheorems.

(** ** updateMemberFunctions and the other passes *)

Module MemberFunctionsOrder.
Import Indexer MemberFunctions Props PassProps ClosedForms PruneTypeRefsFacts
       PruneTypeRefsProofs ResolveNamespacesProofs UpdateRecordNamesProofs
       PostPassesTheorems MemberFunctionsTheorems MemberFunctionsMore
       RunOnceTheorems PassOrderTheorems.

(** A pass [Phi] that acts on the records by [phir] and on every function by
    [phi] (dropping it when [phi] answers [None]), on the Indexes that satisfy
    [Inv]. *)
Section commuting_pass.
Variable replaceAll : string -> string -> string -> string.
Variable Phi : Index -> Index.
Variable phir : RecordSymbol -> RecordSymbol.
Variable phi : FunctionSymbol -> option FunctionSymbol.
Variable Inv : Index -> Prop.

Local Abbreviation upd :=
  (fun (mid : SymbolID) (f : FunctionSymbol) (i : Index) =>
     set_functions (Db.update mid f (functions i)) i).
Local Abbreviation visit :=
  (fun (p : RecordSymbol * SymbolID) (i : Index) =>
     visitMethod replaceAll p.1 p.2 i).
Local Abbreviation onRecord :=
  (fun (p : RecordSymbol * SymbolID) => (phir p.1, p.2)).

Hypothesis Phi_records : forall i, Inv i ->
  Db.values (records (Phi i)) = phir <$> Db.values (records i).
Hypothesis phir_methods : forall c, methodIDs (phir c) = methodIDs c.
Hypothesis Phi_lookup : forall i mid, Inv i ->
  entries (functions (Phi i)) !! mid = entries (functions i) !! mid ≫= phi.
Hypothesis phi_visit : forall c f f' g,
  phi f = Some g -> updateMemberFunction replaceAll c f = Some f' ->
  exists g', phi f' = Some g'
             /\ updateMemberFunction replaceAll (phir c) g = Some g'.
Hypothesis phi_dropped : forall c f f',
  phi f = None -> updateMemberFunction replaceAll c f = Some f' -> phi f' = None.
Hypothesis Phi_upd_kept : forall i mid f' g', Inv i ->
  phi f' = Some g' -> Phi (upd mid f' i) = upd mid g' (Phi i).
Hypothesis Phi_upd_dropped : forall i mid f f', Inv i ->
  entries (functions i) !! mid = Some f -> phi f = None -> phi f' = None ->
  Phi (upd mid f' i) = Phi i.
Hypothesis Inv_upd : forall i mid f', Inv i -> Inv (upd mid f' i).

Lemma visitMethod_through c mid i i' :
  Inv i -> visitMethod replaceAll c mid i = Some i' ->
  Inv i' /\ visitMethod replaceAll (phir c) mid (Phi i) = Some (Phi i').
Proof.
  intros Hi. unfold visitMethod, Db.contains. rewrite (Phi_lookup i mid Hi).
  destruct (entries (functions i) !! mid) as [f|] eqn:E.
  - rewrite bool_decide_eq_true_2 by eauto. cbn [negb].
    destruct (updateMemberFunction replaceAll c f) as [f'|] eqn:U; [|done].
    cbn [mbind option_bind]. intros [= <-]. split; [by apply Inv_upd|].
    destruct (phi f) as [g|] eqn:G.
    + rewrite bool_decide_eq_true_2 by eauto. cbn [negb].
      destruct (phi_visit c f f' g G U) as (g' & G' & U').
      rewrite U'. cbn [mbind option_bind]. f_equal. symmetry.
      by apply Phi_upd_kept.
    + rewrite bool_decide_eq_false_2 by (by intros [? ?]). cbn [negb].
      f_equal. symmetry. apply (Phi_upd_dropped i mid f f' Hi E G).
      by apply (phi_dropped c f f').
  - cbn [mbind option_bind].
    rewrite !bool_decide_eq_false_2 by (by intros [? ?]). cbn [negb].
    intros [= <-]. done.
Qed.

Lemma visits_through ps i i' :
  Inv i -> for_each_try ps visit i = Some i' ->
  Inv i' /\ for_each_try (onRecord <$> ps) visit (Phi i) = Some (Phi i').
Proof.
  revert i. induction ps as [|[c mid] ps IH]; intros i Hi;
    cbn [for_each_try fmap list_fmap fst snd].
  - intros [= <-]. done.
  - destruct (visitMethod replaceAll c mid i) as [j|] eqn:E; [|done].
    intros H. destruct (visitMethod_through c mid i j Hi E) as [Hj ->].
    by apply IH.
Qed.

Lemma visits_of_pass i : Inv i -> visits (Phi i) = onRecord <$> visits i.
Proof.
  intros Hi. unfold visits. rewrite (Phi_records i Hi).
  induction (Db.values (records i)) as [|c cs IH]; [done|].
  cbn [fmap list_fmap mbind list_bind]. rewrite fmap_app, IH. f_equal.
  rewrite phir_methods, <- list_fmap_compose. done.
Qed.

Lemma updateMemberFunctions_through i i' :
  Inv i -> updateMemberFunctions replaceAll i = Some i' ->
  updateMemberFunctions replaceAll (Phi i) = Some (Phi i').
Proof.
  intros Hi. rewrite !updateMemberFunctions_visits, (visits_of_pass i Hi).
  intros H. by destruct (visits_through _ _ _ Hi H).
Qed.

(** When [Phi] drops no function and keeps proto and offsets, the pass
    fails on [Phi i] whenever it fails on [i]. *)
Hypothesis phi_fails : forall c f,
  updateMemberFunction replaceAll c f = None ->
  exists g, phi f = Some g /\ updateMemberFunction replaceAll (phir c) g = None.

Lemma visits_fail_through ps i :
  Inv i -> for_each_try ps visit i = None ->
  for_each_try (onRecord <$> ps) visit (Phi i) = None.
Proof.
  revert i. induction ps as [|[c mid] ps IH]; intros i Hi;
    cbn [for_each_try fmap list_fmap fst snd]; [done|].
  destruct (visitMethod replaceAll c mid i) as [j|] eqn:E.
  - intros H. destruct (visitMethod_through c mid i j Hi E) as [Hj ->].
    by apply IH.
  - intros _. revert E. unfold visitMethod, Db.contains.
    rewrite (Phi_lookup i mid Hi).
    destruct (entries (functions i) !! mid) as [f|] eqn:F.
    + rewrite bool_decide_eq_true_2 by eauto. cbn [negb].
      destruct (updateMemberFunction replaceAll c f) as [f'|] eqn:U; [done|].
      intros _. destruct (phi_fails c f U) as (g & G & U').
      cbn [mbind option_bind]. rewrite G.
      rewrite bool_decide_eq_true_2 by eauto. cbn [negb]. by rewrite U'.
    + by rewrite bool_decide_eq_false_2 by (by intros [? ?]).
Qed.

Lemma updateMemberFunctions_commutes i :
  Inv i ->
  updateMemberFunctions replaceAll (Phi i)
  = Phi <$> updateMemberFunctions replaceAll i.
Proof.
  intros Hi.
  destruct (updateMemberFunctions replaceAll i) as [i'|] eqn:E.
  - by apply updateMemberFunctions_through.
  - rewrite updateMemberFunctions_visits in *.
    rewrite (visits_of_pass i Hi). by apply visits_fail_through.
Qed.
End commuting_pass.
(** **** The passes as instances *)

Lemma values_mapDb {T : Type} (g : T -> T) (db : Database T) :
  Db.values (mapDb g db) = g <$> Db.values db.
Proof.
  unfold Db.values, mapDb. cbn [entries].
  rewrite map_to_list_fmap, <- !list_fmap_compose. done.
Qed.

Lemma updateMemberFunction_templateParams replaceAll c c' f :
  r_templateParams c' = r_templateParams c ->
  updateMemberFunction replaceAll c' f = updateMemberFunction replaceAll c f.
Proof.
  intros H. unfold updateMemberFunction, fixParam, fixTypeParam. by rewrite H.
Qed.

Lemma bind_Some {A : Type} (o : option A) : o ≫= Some = o.
Proof. by destruct o. Qed.

Lemma resolveNamespaces_upd mid f i :
  resolveNamespaces (set_functions (Db.update mid f (functions i)) i)
  = set_functions (Db.update mid f (functions (resolveNamespaces i)))
                  (resolveNamespaces i).
Proof. rewrite !resolveNamespaces_unfold. by destruct i. Qed.

Lemma updateMemberFunctions_resolveNamespaces replaceAll idx :
  updateMemberFunctions replaceAll (resolveNamespaces idx)
  = resolveNamespaces <$> updateMemberFunctions replaceAll idx.
Proof.
  apply (updateMemberFunctions_commutes replaceAll resolveNamespaces id Some
           (fun _ => True)); try done.
  - intros i _. rewrite resolveNamespaces_unfold, list_fmap_id. by destruct i.
  - intros i mid _. rewrite resolveNamespaces_unfold, bind_Some. by destruct i.
  - intros c f f' g [= <-] U. eauto.
  - intros i mid f' g' _ [= <-]. apply resolveNamespaces_upd.
  - intros c f U. eauto.
Qed.

Lemma updateRecordNames_upd mid f i :
  updateRecordNames (set_functions (Db.update mid f (functions i)) i)
  = set_functions (Db.update mid f (functions (updateRecordNames i)))
                  (updateRecordNames i).
Proof. rewrite !updateRecordNames_unfold. by destruct i. Qed.

Lemma updateRecordName_templateParams c :
  r_templateParams (updateRecordName c) = r_templateParams c.
Proof. unfold updateRecordName. by destruct (0 <? _). Qed.

Lemma updateRecordName_methodIDs c :
  methodIDs (updateRecordName c) = methodIDs c.
Proof. unfold updateRecordName. by destruct (0 <? _). Qed.

Lemma updateMemberFunctions_updateRecordNames replaceAll idx :
  updateMemberFunctions replaceAll (updateRecordNames idx)
  = updateRecordNames <$> updateMemberFunctions replaceAll idx.
Proof.
  apply (updateMemberFunctions_commutes replaceAll updateRecordNames
           updateRecordName Some (fun _ => True)); try done.
  - intros i _. rewrite updateRecordNames_unfold, <- values_mapDb.
    by destruct i.
  - apply updateRecordName_methodIDs.
  - intros i mid _. rewrite updateRecordNames_unfold, bind_Some. by destruct i.
  - intros c f f' g [= <-] U. exists f'. split; [done|].
    rewrite <- U. apply updateMemberFunction_templateParams.
    apply updateRecordName_templateParams.
  - intros i mid f' g' _ [= <-]. apply updateRecordNames_upd.
  - intros c f U. exists f. split; [done|].
    rewrite <- U. apply updateMemberFunction_templateParams.
    apply updateRecordName_templateParams.
Qed.

Lemma fixParam_prune replaceAll c i p :
  fixParam replaceAll c (set_fp_type (pruneRef i (fp_type p)) p)
  = set_fp_type (pruneRef i (fp_type (fixParam replaceAll c p)))
                (fixParam replaceAll c p).
Proof.
  destruct p as [n [tn ti] d]. unfold fixParam, set_fp_type, pruneRef. cbn.
  by destruct (negb (haveId i ti)).
Qed.

Lemma updateMemberFunction_pruneFunction replaceAll c i f :
  updateMemberFunction replaceAll c (pruneFunction i f)
  = pruneFunction i <$> updateMemberFunction replaceAll c f.
Proof.
  unfold updateMemberFunction.
  assert (Hs : splitProto (pruneFunction i f) = splitProto f) by done.
  rewrite Hs. destruct (splitProto f) as [[[tp pn] rest]|]; [|done].
  cbn [mbind option_bind fmap option_fmap option_map]. f_equal.
  assert (Hp : forall ps,
            map (fixParam replaceAll c)
                (map (fun param => set_fp_type (pruneRef i (fp_type param)) param)
                     ps)
            = map (fun param => set_fp_type (pruneRef i (fp_type param)) param)
                  (map (fixParam replaceAll c) ps)).
  { intros ps. rewrite !map_map. apply map_ext. intros p.
    apply fixParam_prune. }
  unfold pruneFunction. cbn [f_proto f_sym params set_params set_returnType].
  case_bool_decide; cbn; by rewrite Hp.
Qed.

Lemma same_ids_upd mid f i idx :
  same_ids i idx ->
  same_ids (set_functions (Db.update mid f (functions i)) i) idx.
Proof. by destruct i. Qed.

Lemma updateMemberFunctions_pruneTypeRefs replaceAll idx :
  updateMemberFunctions replaceAll (pruneTypeRefs idx)
  = pruneTypeRefs <$> updateMemberFunctions replaceAll idx.
Proof.
  apply (updateMemberFunctions_commutes replaceAll pruneTypeRefs
           (pruneRecord idx) (fun f => Some (pruneFunction idx f))
           (fun i => same_ids i idx)); try done.
  - intros i Hi. rewrite (pruneTypeRefs_same_ids i idx Hi).
    apply values_mapDb.
  - intros i mid Hi. rewrite (pruneTypeRefs_same_ids i idx Hi). cbn.
    rewrite lookup_fmap. by destruct (entries (functions i) !! mid).
  - intros c f f' g [= <-] U. exists (pruneFunction idx f'). split; [done|].
    rewrite (updateMemberFunction_templateParams replaceAll c) by done.
    by rewrite updateMemberFunction_pruneFunction, U.
  - intros i mid f' g' Hi [= <-].
    rewrite (pruneTypeRefs_same_ids _ idx (same_ids_upd mid f' i idx Hi)).
    rewrite (pruneTypeRefs_same_ids i idx Hi).
    destruct i as [[m n] rs es nss als]. unfold set_functions, Db.update, mapDb.
    cbn. by rewrite fmap_insert.
  - intros c f U. exists (pruneFunction idx f). split; [done|].
    rewrite (updateMemberFunction_templateParams replaceAll c) by done.
    by rewrite updateMemberFunction_pruneFunction, U.
Qed.

Lemma isOrphan_records i j f : records i = records j -> isOrphan i f = isOrphan j f.
Proof. intros H. unfold isOrphan. by rewrite H. Qed.

Lemma isOrphan_visit replaceAll idx c f f' :
  updateMemberFunction replaceAll c f = Some f' ->
  isOrphan idx f' = isOrphan idx f.
Proof.
  intros [Hp Hm]%PostPassesProofs.updateMemberFunction_keep.
  unfold isOrphan. by rewrite Hp, Hm.
Qed.

Lemma pruneMethods_closed_records i idx :
  records i = records idx ->
  pruneMethods i
  = set_functions
      (mkDatabase
         (omap (fun f => if isOrphan idx f then None else Some f)
               (entries (functions i)))
         (numMatches (functions i))) i.
Proof.
  intros H. rewrite pruneMethods_closed. do 2 f_equal. apply omap_ext.
  intros k f _. by rewrite (isOrphan_records i idx f H).
Qed.

Lemma updateMemberFunctions_pruneMethods replaceAll idx idx' :
  updateMemberFunctions replaceAll idx = Some idx' ->
  updateMemberFunctions replaceAll (pruneMethods idx)
  = Some (pruneMethods idx').
Proof.
  apply (updateMemberFunctions_through replaceAll pruneMethods id
           (fun f => if isOrphan idx f then None else Some f)
           (fun i => records i = records idx)); try done.
  - intros i Hi. rewrite list_fmap_id.
    by destruct (pruneMethods_frame i) as [-> _].
  - intros i mid Hi. rewrite (pruneMethods_closed_records i idx Hi).
    destruct i as [fs rs es nss als].
    cbn [set_functions functions entries]. by rewrite lookup_omap.
  - intros c f f' g Hg U. rewrite (isOrphan_visit replaceAll idx c f f' U).
    destruct (isOrphan idx f); [done|]. injection Hg as <-. eauto.
  - intros c f f' Hg U. rewrite (isOrphan_visit replaceAll idx c f f' U).
    by destruct (isOrphan idx f).
  - intros i mid f' g' Hi Hg.
    destruct (isOrphan idx f') eqn:Ho; [done|]. injection Hg as <-.
    rewrite (pruneMethods_closed_records i idx Hi).
    rewrite (pruneMethods_closed_records _ idx) by (by destruct i).
    destruct i as [[m n] rs es nss als]. unfold set_functions, Db.update.
    cbn [functions records enums namespaces aliases entries numMatches].
    do 2 f_equal. apply omap_insert_Some. by rewrite Ho.
  - intros i mid f f' Hi Hf Hg Hg'.
    rewrite (pruneMethods_closed_records i idx Hi).
    rewrite (pruneMethods_closed_records _ idx) by (by destruct i).
    destruct i as [[m n] rs es nss als]. unfold set_functions, Db.update.
    cbn [functions records enums namespaces aliases entries numMatches] in *.
    do 2 f_equal. rewrite omap_insert_None by done.
    apply delete_id. by rewrite lookup_omap, Hf.
Qed.

(** X11. updateMemberFunctions commutes with resolveNamespaces,
    updateRecordNames and pruneTypeRefs, failure included: running one of
    them first neither makes the pass fail nor succeed, and the two
    orders give the same Index.  With pruneMethods it commutes whenever
    it completes on the unpruned Index; pruning first can only remove the
    methods on which it would have failed. *)
Theorem updateMemberFunctions_commutes_with_passes
    (replaceAll : string -> string -> string -> string) (idx : Index) :
  updateMemberFunctions replaceAll (resolveNamespaces idx)
  = resolveNamespaces <$> updateMemberFunctions replaceAll idx
  /\ updateMemberFunctions replaceAll (updateRecordNames idx)
     = updateRecordNames <$> updateMemberFunctions replaceAll idx
  /\ updateMemberFunctions replaceAll (pruneTypeRefs idx)
     = pruneTypeRefs <$> updateMemberFunctions replaceAll idx
  /\ (forall idx', updateMemberFunctions replaceAll idx = Some idx' ->
        updateMemberFunctions replaceAll (pruneMethods idx)
        = Some (pruneMethods idx')).
Proof.
  split; [apply updateMemberFunctions_resolveNamespaces|].
  split; [apply updateMemberFunctions_updateRecordNames|].
  split; [apply updateMemberFunctions_pruneTypeRefs|].
  apply updateMemberFunctions_pruneMethods.
Qed.

Lemma updateMemberFunctions_commutes_with_passes_witness :
  exists idx',
    updateMemberFunctions StringUtils.replaceAll Examples.idxS = Some idx'
    /\ updateMemberFunctions StringUtils.replaceAll
         (pruneMethods Examples.idxS)
       = Some (pruneMethods idx').
Proof.
  eexists. split; [vm_compute; reflexivity|].
  apply (proj2 (proj2 (proj2 (updateMemberFunctions_commutes_with_passes
                                StringUtils.replaceAll Examples.idxS)))).
  vm_compute. reflexivity.
Defined.
End MemberFunctionsOrder.

(** ** The ignore tests of the matchers *)

Module IgnoreTheorems.
Import Clang Matchers MatcherProps.

Lemma contains_empty s : Str.contains s "" = true.
Proof. unfold Str.contains, Str.find. by destruct s. Qed.

Lemma existsb_occurs (l : list string) (s : string) :
  existsb (fun substr => Str.contains s substr) l = true
  <-> exists sub, sub ∈ l /\ occurs_in sub s.
Proof.
  rewrite existsb_exists. split.
  - intros (x & Hx & Hc). exists x. by rewrite list_elem_of_In.
  - intros (x & Hx & Hc). exists x. by rewrite <- list_elem_of_In.
Qed.

Lemma enclosingNamespaceInList_iff dc (l : list string) :
  enclosingNamespaceInList dc l = true
  <-> exists nm sub, nm ∈ namedNamespaces dc /\ sub ∈ l /\ occurs_in sub nm.
Proof.
  induction dc as [|anon nm parent IH|nm parent IH|parent IH|parent IH];
    cbn [enclosingNamespaceInList namedNamespaces]; try exact IH.
  - split; [done|]. intros (nm & sub & H & _). by apply elem_of_nil in H.
  - destruct anon; [exact IH|].
    destruct (existsb _ l) eqn:E.
    + split; [intros _|done]. apply existsb_occurs in E as (sub & Hs & Ho).
      exists nm, sub. split; [apply elem_of_cons; by left|done].
    + rewrite IH. split.
      * intros (nm' & sub & Hn & Hs & Ho). exists nm', sub.
        split; [apply elem_of_cons; by right|done].
      * intros (nm' & sub & Hn & Hs & Ho).
        apply elem_of_cons in Hn as [->|Hn]; [|by exists nm', sub].
        assert (existsb (fun substr => Str.contains nm substr) l = true)
          by (apply existsb_occurs; eauto).
        congruence.
Qed.

(** X12. isEnclosingNamespaceInList answers true exactly when one of the
    non-anonymous namespaces enclosing the declaration, at any depth, has
    a name in which one of the listed strings occurs; anonymous namespaces,
    records and functions on the way up are stepped over.  Hence an empty
    list matches nothing, and a list that holds the empty string matches
    every declaration that lies in a named namespace. *)
Theorem isEnclosingNamespaceInList_iff (decl : Decl) (list : list string) :
  (isEnclosingNamespaceInList decl list = true
   <-> exists nm sub, nm ∈ namedNamespaces (getDeclContext decl)
                      /\ sub ∈ list /\ occurs_in sub nm)
  /\ isEnclosingNamespaceInList decl [] = false
  /\ (isEnclosingNamespaceInList decl ("" :: list) = true
      <-> namedNamespaces (getDeclContext decl) <> []).
Proof.
  unfold isEnclosingNamespaceInList. split; [apply enclosingNamespaceInList_iff|].
  split.
  - apply not_true_iff_false. rewrite enclosingNamespaceInList_iff.
    intros (nm & sub & _ & H & _). by apply elem_of_nil in H.
  - rewrite enclosingNamespaceInList_iff. split.
    + intros (nm & sub & Hn & _ & _) E. rewrite E in Hn.
      by apply elem_of_nil in Hn.
    + intros Hne. destruct (namedNamespaces (getDeclContext decl)) as [|nm l];
        [done|].
      exists nm, "". split; [apply elem_of_cons; by left|].
      split; [apply elem_of_cons; by left|]. apply contains_empty.
Qed.

Section shouldBeIgnored.
Variable relative : string -> string -> string.

(** X13. shouldBeIgnored filters a declaration out exactly when
    ignorePaths is not empty, the expansion location of the declaration
    is valid, its file entry exists, and either one of the ignorePaths
    strings occurs in the file name taken relative to rootDir or
    isEnclosingNamespaceInList holds for ignoreNamespaces.  A
    declaration with an invalid location or without a file entry is
    never filtered out; and when ignorePaths holds the empty string,
    every declaration with a valid location and a file entry is. *)
Theorem shouldBeIgnored_iff (cfg : Config) (Node : Decl) :
  (shouldBeIgnored relative cfg Node = true
   <-> ignorePaths cfg <> [] /\ expansionLocIsValid Node = true
       /\ exists fileName,
            fileEntryName Node = Some fileName
            /\ ((exists sub, sub ∈ ignorePaths cfg
                             /\ occurs_in sub (relative fileName (rootDir cfg)))
                \/ isEnclosingNamespaceInList Node (ignoreNamespaces cfg)
                   = true))
  /\ ("" ∈ ignorePaths cfg ->
      shouldBeIgnored relative cfg Node
      = expansionLocIsValid Node
        && bool_decide (is_Some (fileEntryName Node))).
Proof.
  unfold shouldBeIgnored.
  destruct (ignorePaths cfg) as [|p ps] eqn:Ep.
  { split; [|intros H; by apply elem_of_nil in H].
    cbn. split; [done|]. by intros [? _]. }
  replace (Z.of_nat (length (p :: ps)) =? 0) with false
    by (symmetry; apply Z.eqb_neq; cbn [length]; lia).
  destruct (expansionLocIsValid Node); cbn [negb andb].
  2: { split; [|done]. split; [done|]. by intros (_ & ? & _). }
  destruct (fileEntryName Node) as [fileName|].
  2: { split; [|by rewrite bool_decide_eq_false_2 by (by intros [? ?])].
       split; [done|]. by intros (_ & _ & ? & ? & _). }
  split.
  - destruct (existsb _ (p :: ps)) eqn:E.
    + split; [intros _|done]. split; [done|]. split; [done|].
      exists fileName. split; [done|]. left. by apply existsb_occurs.
    + split.
      * intros H. split; [done|]. split; [done|]. exists fileName.
        split; [done|]. by right.
      * intros (_ & _ & fn & [= <-] & [H|H]); [|done].
        apply existsb_occurs in H. congruence.
  - intros Hin. rewrite bool_decide_eq_true_2 by eauto.
    assert (E : existsb (fun substr => Str.contains
                           (relative fileName (rootDir cfg)) substr)
                  (p :: ps) = true).
    { apply existsb_occurs. exists "". split; [done|]. apply contains_empty. }
    by rewrite E.
Qed.
End shouldBeIgnored.
End IgnoreTheorems.

(** ** templateArgsToStrings *)

Module TemplateArgsTheorems.
Import Clang Matchers MatcherProps.

Lemma nextFallback_letter k : nextFallback (fallbackLetter k) = fallbackLetter (S k).
Proof.
  unfold fallbackLetter. replace (19 + S k)%nat with (19 + k + 1)%nat by lia.
  rewrite (Nat.Div0.add_mod (19 + k) 1 26).
  pose proof (Nat.mod_upper_bound (19 + k) 26 ltac:(lia)) as Hm.
  set (m := ((19 + k) mod 26)%nat) in *. clearbody m.
  do 26 (destruct m as [|m]; [vm_compute; reflexivity|]). lia.
Qed.

Section strings.
Variable regex_replace : string -> string -> string -> string.

(** The string pushed for [arg] when [k] fallback names are in use. *)
Local Abbreviation argString :=
  (fun (record : RecordSymbol) (k : nat) (arg : TemplateArgument) =>
     if Str.starts_with (printed arg) "type-parameter-" then
       if String.eqb (typeParameterName arg record) "" then
         String (fallbackLetter k) ""
       else typeParameterName arg record
     else regex_replace (printed arg) "<.*>" "<...>").

Lemma templateArgToString_step record a k acc :
  templateArgToString regex_replace record a (fallbackLetter k, acc)
  = (fallbackLetter (k + (if usesFallback record a then 1 else 0))%nat,
     acc ++ [argString record k a]).
Proof.
  unfold templateArgToString, usesFallback.
  destruct (Str.starts_with (printed a) "type-parameter-"); cbn [andb].
  - destruct (String.eqb (typeParameterName a record) "").
    + rewrite nextFallback_letter. do 2 f_equal. lia.
    + by rewrite Nat.add_0_r.
  - by rewrite Nat.add_0_r.
Qed.

Lemma fallbacksBefore_cons record a args i :
  fallbacksBefore record (a :: args) (S i)
  = ((if usesFallback record a then 1 else 0)
     + fallbacksBefore record args i)%nat.
Proof.
  unfold fallbacksBefore. cbn [take]. rewrite filter_cons.
  destruct (usesFallback record a).
  - by rewrite decide_True.
  - by rewrite decide_False.
Qed.

Lemma templateArgs_loop record args k acc :
  for_each args (templateArgToString regex_replace record)
           (fallbackLetter k, acc)
  = (fallbackLetter
       (k + length (filter (fun arg => usesFallback record arg = true) args))%nat,
     acc ++ imap (fun i arg =>
                    argString record (k + fallbacksBefore record args i)%nat arg)
                 args).
Proof.
  unfold for_each. revert k acc.
  induction args as [|a args IH]; intros k acc.
  - cbn. by rewrite Nat.add_0_r, app_nil_r.
  - cbn [foldl imap]. rewrite templateArgToString_step, IH.
    rewrite <- app_assoc. cbn [app]. f_equal.
    + f_equal. rewrite filter_cons. destruct (usesFallback record a).
      * rewrite decide_True by done. cbn [length]. lia.
      * rewrite decide_False by done. lia.
    + f_equal. f_equal.
      * unfold fallbacksBefore. cbn. by rewrite Nat.add_0_r.
      * apply imap_ext. intros i x _. unfold compose. cbv beta.
        rewrite fallbacksBefore_cons. by rewrite Nat.add_assoc.
Qed.

(** X14. templateArgsToStrings yields one string per template argument,
    in order.  An argument that is not printed as a placeholder yields
    its printed form with every [<...>] part cut down by the regular
    expression; a placeholder yields the name found for it, and when
    none is found a fallback name of one capital letter.  The fallback
    names are handed out in the order T, U, ..., Z, A, B, ..., Z, A, ...:
    the argument that uses a fallback after [k] earlier ones gets the
    letter at position [(19 + k) mod 26] of the alphabet, so the name
    never leaves the capital letters. *)
Theorem templateArgsToStrings_strings (args : list TemplateArgument)
    (record : RecordSymbol) :
  let ret := templateArgsToStrings regex_replace args record in
  length ret = length args
  /\ forall i arg,
       args !! i = Some arg ->
       ret !! i
       = Some (if Str.starts_with (printed arg) "type-parameter-" then
                 if String.eqb (typeParameterName arg record) "" then
                   String (fallbackLetter (fallbacksBefore record args i)) ""
                 else typeParameterName arg record
               else regex_replace (printed arg) "<.*>" "<...>").
Proof.
  intros ret. subst ret. unfold templateArgsToStrings.
  change "T"%char with (fallbackLetter 0).
  rewrite templateArgs_loop. cbn [snd app]. split.
  - apply length_imap.
  - intros i arg Hi. by rewrite list_lookup_imap, Hi.
Qed.
End strings.
End TemplateArgsTheorems.

(** ** The match callbacks on a declaration seen again *)

Module CallbackTheorems.
Import Clang Matchers MatcherProps.

Lemma reserved_contains {T : Type} (db : Database T) id k dflt v :
  Db.contains (Db.update k v (Db.reserve dflt id db)) id = true.
Proof.
  unfold Db.contains, Db.update, Db.reserve. cbn [entries].
  apply bool_decide_eq_true. apply MatcherTheorems.insert_reserved.
Qed.

Section callbacks.
Variable regex_replace : string -> string -> string -> string.
Variable isInIgnoreList : Decl -> Config -> bool.
Variable isInAnonymousNamespace : Decl -> bool.
Variable buildID : Decl -> SymbolID.
Variable fillOutSymbol : Symbol -> Decl -> string -> Symbol.
Variable fillNamespace : Symbol -> Decl -> Config -> Symbol.
Variable processSymbolComment : Symbol -> Comment -> Symbol.
Variable getFunctionSignature : FunctionSymbol -> FunctionSymbol * string.
Variable getRecordProto : RecordSymbol -> string.
Variable exprToString : Expr -> string.
Variable getParaCommentContents : string -> string.

Local Abbreviation runFunction :=
  (FunctionMatcher_run regex_replace isInIgnoreList isInAnonymousNamespace
     buildID fillOutSymbol fillNamespace processSymbolComment
     getFunctionSignature exprToString).
Local Abbreviation runUsing :=
  (UsingMatcher_run isInIgnoreList buildID fillOutSymbol fillNamespace
     processSymbolComment).
Local Abbreviation runRecord :=
  (RecordMatcher_run regex_replace isInIgnoreList isInAnonymousNamespace
     buildID fillOutSymbol fillNamespace processSymbolComment getRecordProto
     exprToString getParaCommentContents).
Local Abbreviation runEnum :=
  (EnumMatcher_run isInIgnoreList isInAnonymousNamespace buildID
     fillOutSymbol fillNamespace processSymbolComment getParaCommentContents).
Local Abbreviation runNamespace :=
  (NamespaceMatcher_run isInIgnoreList isInAnonymousNamespace buildID
     fillOutSymbol fillNamespace).

Lemma FunctionMatcher_run_again cfg res index :
  runFunction cfg res (runFunction cfg res index)
  = if isDeletedAsWritten res || isCXXDeductionGuideDecl res
    then runFunction cfg res index
    else counted_functions (runFunction cfg res index).
Proof.
  unfold FunctionMatcher_run, counted_functions.
  destruct (isDeletedAsWritten res); [done|].
  destruct (isCXXDeductionGuideDecl res); [done|]. cbn [orb].
  destruct (FunctionMatcher_ignores _ _ _ _); [done|].
  destruct (Db.contains (functions (set_functions (Db.countMatch
              (functions index)) index)) (buildID (fd_decl res))) eqn:E;
    (match goal with
     | |- (if Db.contains ?d ?k then _ else _) = _ =>
         assert (E' : Db.contains d k = true);
         [ first [ by destruct index
                 | destruct index; cbn; apply reserved_contains ]
         | by rewrite E' ]
     end).
Qed.

Lemma UsingMatcher_run_again cfg res index :
  runUsing cfg res (runUsing cfg res index)
  = if isAlias (nd_kind res)
       && negb (isFunctionOrMethod (getDeclContext (nd_decl res)))
    then counted_aliases (runUsing cfg res index)
    else runUsing cfg res index.
Proof.
  unfold UsingMatcher_run, counted_aliases.
  destruct (isAlias (nd_kind res)); [|done]. cbn [negb andb].
  destruct (isFunctionOrMethod _); [done|]. cbn [negb].
  destruct (UsingMatcher_ignores _ _ _); [done|].
  destruct (Db.contains (aliases (set_aliases (Db.countMatch
              (aliases index)) index)) (buildID (nd_decl res))) eqn:E;
    (match goal with
     | |- (if Db.contains ?d ?k then _ else _) = _ =>
         assert (E' : Db.contains d k = true);
         [ first [ by destruct index
                 | destruct index; cbn; apply reserved_contains ]
         | by rewrite E' ]
     end).
Qed.

Lemma RecordMatcher_run_again cfg res index :
  runRecord cfg res (runRecord cfg res index)
  = counted_records (runRecord cfg res index).
Proof.
  unfold RecordMatcher_run, counted_records.
  destruct (RecordMatcher_ignores _ _ _ _); [done|].
  destruct (String.eqb (getNameAsString (rd_decl res)) "" && _); [done|].
  destruct (match asSpecialization res with
            | Some s => negb (hasTypeAsWritten s)
            | None => false
            end); [done|].
  destruct (Db.contains (records (set_records (Db.countMatch
              (records index)) index)) (buildID (rd_decl res))) eqn:E;
    (match goal with
     | |- (if Db.contains ?d ?k then _ else _) = _ =>
         assert (E' : Db.contains d k = true);
         [ first [ by destruct index
                 | destruct index; cbn; apply reserved_contains ]
         | by rewrite E' ]
     end).
Qed.

Lemma EnumMatcher_run_again cfg res index :
  runEnum cfg res (runEnum cfg res index)
  = counted_enums (runEnum cfg res index).
Proof.
  unfold EnumMatcher_run, counted_enums.
  destruct (EnumMatcher_ignores _ _ _ _); [done|].
  destruct (Db.contains (enums (set_enums (Db.countMatch
              (enums index)) index)) (buildID (ed_decl res))) eqn:E;
    (match goal with
     | |- (if Db.contains ?d ?k then _ else _) = _ =>
         assert (E' : Db.contains d k = true);
         [ first [ by destruct index
                 | destruct index; cbn; apply reserved_contains ]
         | by rewrite E' ]
     end).
Qed.

Lemma NamespaceMatcher_run_again cfg res index :
  runNamespace cfg res (runNamespace cfg res index)
  = counted_namespaces (runNamespace cfg res index).
Proof.
  unfold NamespaceMatcher_run, counted_namespaces.
  destruct (NamespaceMatcher_ignores _ _ _ _); [done|].
  destruct (Db.contains (namespaces (set_namespaces (Db.countMatch
              (namespaces index)) index)) (buildID (nsd_decl res))) eqn:E;
    (match goal with
     | |- (if Db.contains ?d ?k then _ else _) = _ =>
         assert (E' : Db.contains d k = true);
         [ first [ by destruct index
                 | destruct index; cbn; apply reserved_contains ]
         | by rewrite E' ]
     end).
Qed.

(** X15. A declaration is indexed once.  When a callback is handed a
    declaration it has already been handed (the same header seen from a
    second translation unit), the second run changes nothing but the
    match counter: no entry is added, overwritten or removed, whatever
    the helpers do, because the first run either dropped the
    declaration or left its ID reserved.  The record, enum and namespace
    callbacks count the second sighting always; the function callback
    counts it unless the function is deleted or a deduction guide, and
    the alias callback counts it when the node is an alias outside
    function scope. *)
Theorem callbacks_index_once (cfg : Config) (index : Index) :
  (forall res,
     let once :=
       FunctionMatcher_run regex_replace isInIgnoreList
         isInAnonymousNamespace buildID fillOutSymbol fillNamespace
         processSymbolComment getFunctionSignature exprToString cfg res
         index in
     FunctionMatcher_run regex_replace isInIgnoreList
       isInAnonymousNamespace buildID fillOutSymbol fillNamespace
       processSymbolComment getFunctionSignature exprToString cfg res once
     = if isDeletedAsWritten res || isCXXDeductionGuideDecl res
       then once else counted_functions once)
  /\ (forall res,
        let once :=
          UsingMatcher_run isInIgnoreList buildID fillOutSymbol
            fillNamespace processSymbolComment cfg res index in
        UsingMatcher_run isInIgnoreList buildID fillOutSymbol
          fillNamespace processSymbolComment cfg res once
        = if isAlias (nd_kind res)
             && negb (isFunctionOrMethod (getDeclContext (nd_decl res)))
          then counted_aliases once else once)
  /\ (forall res,
        let once :=
          RecordMatcher_run regex_replace isInIgnoreList
            isInAnonymousNamespace buildID fillOutSymbol fillNamespace
            processSymbolComment getRecordProto exprToString
            getParaCommentContents cfg res index in
        RecordMatcher_run regex_replace isInIgnoreList
          isInAnonymousNamespace buildID fillOutSymbol fillNamespace
          processSymbolComment getRecordProto exprToString
          getParaCommentContents cfg res once
        = counted_records once)
  /\ (forall res,
        let once :=
          EnumMatcher_run isInIgnoreList isInAnonymousNamespace buildID
            fillOutSymbol fillNamespace processSymbolComment
            getParaCommentContents cfg res index in
        EnumMatcher_run isInIgnoreList isInAnonymousNamespace buildID
          fillOutSymbol fillNamespace processSymbolComment
          getParaCommentContents cfg res once
        = counted_enums once)
  /\ (forall res,
        let once :=
          NamespaceMatcher_run isInIgnoreList isInAnonymousNamespace
            buildID fillOutSymbol fillNamespace cfg res index in
        NamespaceMatcher_run isInIgnoreList isInAnonymousNamespace buildID
          fillOutSymbol fillNamespace cfg res once
        = counted_namespaces once).
Proof.
  split; [intros res; apply FunctionMatcher_run_again|].
  split; [intros res; apply UsingMatcher_run_again|].
  split; [intros res; apply RecordMatcher_run_again|].
  split; [intros res; apply EnumMatcher_run_again|].
  intros res; apply NamespaceMatcher_run_again.
Qed.

(** **** What a callback leaves alone *)

Lemma dom_update_reserve {T : Type} (db : Database T) id k dflt v :
  dom (entries db)
  ⊆ dom (entries (Db.update k v (Db.reserve dflt id (Db.countMatch db)))).
Proof.
  unfold Db.update, Db.reserve, Db.countMatch. cbn [entries].
  rewrite !dom_insert. set_solver.
Qed.

(** X16. Every callback writes to its own database only, and only by
    adding: the four other databases are left exactly as they are, and
    no key of its own database is removed.  The record, enum and
    namespace callbacks increment their match counter (a 64-bit counter)
    on every call, before any test; the alias callback increments it
    for an alias node outside function scope and not otherwise. *)
Theorem callbacks_frame (cfg : Config) (index : Index) :
  (forall res,
     let index' :=
       FunctionMatcher_run regex_replace isInIgnoreList
         isInAnonymousNamespace buildID fillOutSymbol fillNamespace
         processSymbolComment getFunctionSignature exprToString cfg res
         index in
     set_functions (functions index) index' = index
     /\ dom (entries (functions index)) ⊆ dom (entries (functions index')))
  /\ (forall res,
        let index' :=
          UsingMatcher_run isInIgnoreList buildID fillOutSymbol
            fillNamespace processSymbolComment cfg res index in
        set_aliases (aliases index) index' = index
        /\ dom (entries (aliases index)) ⊆ dom (entries (aliases index'))
        /\ numMatches (aliases index')
           = if isAlias (nd_kind res)
                && negb (isFunctionOrMethod (getDeclContext (nd_decl res)))
             then (numMatches (aliases index) + 1) mod 2 ^ 64
             else numMatches (aliases index))
  /\ (forall res,
        let index' :=
          RecordMatcher_run regex_replace isInIgnoreList
            isInAnonymousNamespace buildID fillOutSymbol fillNamespace
            processSymbolComment getRecordProto exprToString
            getParaCommentContents cfg res index in
        set_records (records index) index' = index
        /\ dom (entries (records index)) ⊆ dom (entries (records index'))
        /\ numMatches (records index')
           = (numMatches (records index) + 1) mod 2 ^ 64)
  /\ (forall res,
        let index' :=
          EnumMatcher_run isInIgnoreList isInAnonymousNamespace buildID
            fillOutSymbol fillNamespace processSymbolComment
            getParaCommentContents cfg res index in
        set_enums (enums index) index' = index
        /\ dom (entries (enums index)) ⊆ dom (entries (enums index'))
        /\ numMatches (enums index')
           = (numMatches (enums index) + 1) mod 2 ^ 64)
  /\ (forall res,
        let index' :=
          NamespaceMatcher_run isInIgnoreList isInAnonymousNamespace
            buildID fillOutSymbol fillNamespace cfg res index in
        set_namespaces (namespaces index) index' = index
        /\ dom (entries (namespaces index))
           ⊆ dom (entries (namespaces index'))
        /\ numMatches (namespaces index')
           = (numMatches (namespaces index) + 1) mod 2 ^ 64).
Proof.
  destruct index as [fs rs es ns als].
  split; [|split; [|split; [|split]]]; intros res index'; subst index'.
  - unfold FunctionMatcher_run.
    destruct (isDeletedAsWritten res); [done|].
    destruct (isCXXDeductionGuideDecl res); [done|].
    destruct (FunctionMatcher_ignores _ _ _ _); [done|].
    destruct (Db.contains _ _); [done|].
    split; [done|]. cbn [functions set_functions]. apply dom_update_reserve.
  - unfold UsingMatcher_run.
    destruct (isAlias (nd_kind res)); [|done]. cbn [negb andb].
    destruct (isFunctionOrMethod _); [done|]. cbn [negb].
    destruct (UsingMatcher_ignores _ _ _); [done|].
    destruct (Db.contains _ _); [done|].
    split; [done|].
    split; [cbn [records enums namespaces aliases set_records set_enums
                 set_namespaces set_aliases]; apply dom_update_reserve|done].
  - unfold RecordMatcher_run.
    destruct (RecordMatcher_ignores _ _ _ _); [done|].
    destruct (String.eqb (getNameAsString (rd_decl res)) "" && _); [done|].
    destruct (match asSpecialization res with
              | Some s => negb (hasTypeAsWritten s)
              | None => false
              end); [done|].
    destruct (Db.contains _ _); [done|].
    split; [done|].
    split; [cbn [records enums namespaces aliases set_records set_enums
                 set_namespaces set_aliases]; apply dom_update_reserve|done].
  - unfold EnumMatcher_run.
    destruct (EnumMatcher_ignores _ _ _ _); [done|].
    destruct (Db.contains _ _); [done|].
    split; [done|].
    split; [cbn [records enums namespaces aliases set_records set_enums
                 set_namespaces set_aliases]; apply dom_update_reserve|done].
  - unfold NamespaceMatcher_run.
    destruct (NamespaceMatcher_ignores _ _ _ _); [done|].
    destruct (Db.contains _ _); [done|].
    split; [done|].
    split; [cbn [records enums namespaces aliases set_records set_enums
                 set_namespaces set_aliases]; apply dom_update_reserve|done].
Qed.
(** **** Private members *)

Lemma memberIgnored_private cfg d :
  ignorePrivateMembers cfg = true ->
  memberIgnored isInIgnoreList isInAnonymousNamespace cfg d = false ->
  getAccess d <> AS_private.
Proof.
  intros Hc Hm Ha. unfold memberIgnored, isIgnoredPrivate in Hm.
  rewrite Hc, Ha in Hm. rewrite bool_decide_eq_true_2 in Hm by done.
  by rewrite !orb_true_r in Hm.
Qed.

Lemma collectMethods_elem cfg ms ids mid :
  mid ∈ collectMethods isInIgnoreList isInAnonymousNamespace buildID cfg ms ids ->
  mid ∈ ids
  \/ exists m, m ∈ ms
       /\ memberIgnored isInIgnoreList isInAnonymousNamespace cfg
            (method_decl m) = false
       /\ mid = buildID (getCanonicalDecl m).
Proof.
  unfold collectMethods, for_each. revert ids.
  induction ms as [|m ms IH]; intros ids; cbn [foldl]; [by left|].
  intros H. apply IH in H as [H|(m' & Hm' & Hi & ->)].
  - destruct (memberIgnored _ _ cfg (method_decl m)) eqn:E; [by left|].
    apply elem_of_app in H as [H|H]; [by left|].
    apply list_elem_of_singleton in H as ->. right. exists m.
    split; [apply elem_of_cons; by left|done].
  - right. exists m'. split; [apply elem_of_cons; by right|done].
Qed.

Lemma collectDecl_elem cfg ds st :
  let st' := for_each ds (collectDecl isInIgnoreList isInAnonymousNamespace
                            buildID cfg) st in
  (forall mid, mid ∈ st'.1 ->
     mid ∈ st.1
     \/ exists d, MemberFunctionTemplate d ∈ ds
          /\ memberIgnored isInIgnoreList isInAnonymousNamespace cfg d = false
          /\ mid = buildID d)
  /\ (forall aid, aid ∈ st'.2 ->
        aid ∈ st.2
        \/ exists d, (MemberUsingShadow d ∈ ds \/ MemberUsing d ∈ ds
                      \/ MemberTypeAlias d ∈ ds)
             /\ memberIgnored isInIgnoreList isInAnonymousNamespace cfg d
                = false
             /\ aid = buildID d).
Proof.
  unfold for_each. revert st.
  induction ds as [|d ds IH]; intros st; cbn [foldl].
  - split; intros x H; by left.
  - destruct (IH (collectDecl isInIgnoreList isInAnonymousNamespace buildID
                    cfg d st)) as [IH1 IH2].
    assert (Hin : forall x : MemberDecl, x ∈ ds -> x ∈ d :: ds)
      by (intros x Hx; apply elem_of_cons; by right).
    assert (Hd : d ∈ d :: ds) by (apply elem_of_cons; by left).
    split.
    + intros mid H. apply IH1 in H as [H|(d' & Hd' & Hi & ->)].
      2: { right. exists d'. split; [by apply Hin|done]. }
      unfold collectDecl in H.
      destruct d as [ftd|a|a|a|v|]; try (by left);
        destruct (memberIgnored _ _ cfg _) eqn:E; try (by left).
      cbn [fst] in H. apply elem_of_app in H as [H|H]; [by left|].
      apply list_elem_of_singleton in H as ->. right. by exists ftd.
    + intros aid H. apply IH2 in H as [H|(d' & Hd' & Hi & ->)].
      2: { right. exists d'. split; [|done].
           destruct Hd' as [?|[?|?]]; [left|right; left|right; right];
             by apply Hin. }
      unfold collectDecl in H.
      destruct d as [ftd|a|a|a|v|]; try (by left);
        destruct (memberIgnored _ _ cfg _) eqn:E; try (by left);
        cbn [snd] in H; apply elem_of_app in H as [H|H]; try (by left);
        apply list_elem_of_singleton in H as ->; right; exists a;
        (split; [|done]); [left|right; left|right; right]; done.
Qed.

Lemma recordSymbol_lists cfg res id cachedName :
  let c := recordSymbol regex_replace isInIgnoreList isInAnonymousNamespace
             buildID fillOutSymbol fillNamespace processSymbolComment
             getRecordProto exprToString getParaCommentContents cfg res id
             cachedName in
  let st := for_each (decls res)
              (collectDecl isInIgnoreList isInAnonymousNamespace buildID cfg)
              (collectMethods isInIgnoreList isInAnonymousNamespace buildID
                 cfg (methods res) [], []) in
  methodIDs c = st.1 /\ aliasIDs c = st.2
  /\ baseRecords c
     = (if isThisDeclarationADefinition res
        then for_each (bases res) (collectBase buildID) [] else [])
  /\ vars c
     = for_each (decls res)
         (collectStatic buildID exprToString getParaCommentContents cfg)
         (for_each (fields res)
            (collectField buildID exprToString getParaCommentContents cfg) []).
Proof.
  intros c st. subst c st. unfold recordSymbol.
  by destruct (for_each (decls res) _ _) as [m a].
Qed.

(** X17. With ignorePrivateMembers set, the parts of the extraction that
    do test the access leave private members out: the function callback
    and the alias callback store nothing for a private declaration, and
    in the record symbol built for a record no member variable (field or
    static member) is private, every method ID comes from a method or a
    member function template that is not private, and every alias ID
    from a member alias that is not private. *)
Theorem private_members_filtered (cfg : Config)
    (Hcfg : ignorePrivateMembers cfg = true) :
  (forall res index,
     getAccess (fd_decl res) = AS_private ->
     entries (functions
                (FunctionMatcher_run regex_replace isInIgnoreList
                   isInAnonymousNamespace buildID fillOutSymbol
                   fillNamespace processSymbolComment getFunctionSignature
                   exprToString cfg res index))
     = entries (functions index))
  /\ (forall res index,
        getAccess (nd_decl res) = AS_private ->
        entries (aliases
                   (UsingMatcher_run isInIgnoreList buildID fillOutSymbol
                      fillNamespace processSymbolComment cfg res index))
        = entries (aliases index))
  /\ (forall res id cachedName,
        let c := recordSymbol regex_replace isInIgnoreList
                   isInAnonymousNamespace buildID fillOutSymbol
                   fillNamespace processSymbolComment getRecordProto
                   exprToString getParaCommentContents cfg res id
                   cachedName in
        Forall (fun v => mv_access v <> AS_private) (vars c)
        /\ (forall mid, mid ∈ methodIDs c ->
              (exists m, m ∈ methods res
                 /\ getAccess (method_decl m) <> AS_private
                 /\ mid = buildID (getCanonicalDecl m))
              \/ (exists d, MemberFunctionTemplate d ∈ decls res
                    /\ getAccess d <> AS_private /\ mid = buildID d))
        /\ (forall aid, aid ∈ aliasIDs c ->
              exists d, (MemberUsingShadow d ∈ decls res
                         \/ MemberUsing d ∈ decls res
                         \/ MemberTypeAlias d ∈ decls res)
                   /\ getAccess d <> AS_private /\ aid = buildID d)).
Proof.
  split; [|split].
  - intros res index Ha. by apply MatcherTheorems.FunctionMatcher_drops_private.
  - intros res index Ha. by apply MatcherTheorems.UsingMatcher_drops_private.
  - intros res id cachedName c.
    destruct (recordSymbol_lists cfg res id cachedName)
      as (Hm & Ha & _ & Hv).
    fold c in Hm, Ha, Hv. rewrite Hm, Ha, Hv.
    destruct (collectDecl_elem cfg (decls res)
                (collectMethods isInIgnoreList isInAnonymousNamespace
                   buildID cfg (methods res) [], [])) as [D1 D2].
    split; [|split].
    + apply MatcherTheorems.collectStatic_no_private; [done|].
      by apply MatcherTheorems.collectField_no_private.
    + intros mid H. apply D1 in H as [H|(d & Hd & Hi & ->)].
      * cbn [fst] in H. apply collectMethods_elem in H
          as [H|(m & Hin & Hi & ->)]; [by apply elem_of_nil in H|].
        left. exists m. split; [done|]. split; [|done].
        by apply (memberIgnored_private cfg).
      * right. exists d. split; [done|]. split; [|done].
        by apply (memberIgnored_private cfg).
    + intros aid H. apply D2 in H as [H|(d & Hd & Hi & ->)];
        [by apply elem_of_nil in H|].
      exists d. split; [done|]. split; [|done].
      by apply (memberIgnored_private cfg).
Qed.

(** X18. The base records of the symbol built for a record: when the
    declaration is the definition, one entry for each base specifier
    whose type is a record, in the order of the base list, holding the
    SymbolID of the base, the access of the base specifier as the front
    end reports it, and the name of the base, prefixed with [std::] when
    the base lies in the standard namespace; a base whose type is no
    record (a dependent type) is skipped.  For a declaration that is not
    the definition the list is empty. *)
Theorem recordSymbol_baseRecords (cfg : Config) (res : CXXRecordDecl)
    (id : SymbolID) (cachedName : string) :
  baseRecords
    (recordSymbol regex_replace isInIgnoreList isInAnonymousNamespace
       buildID fillOutSymbol fillNamespace processSymbolComment
       getRecordProto exprToString getParaCommentContents cfg res id
       cachedName)
  = if isThisDeclarationADefinition res then
      omap (fun base =>
              match getAsCXXRecordDecl base with
              | Some (baseRecord, isInStdNamespace) =>
                  Some (mkBaseRecord (buildID baseRecord)
                          (getAccessSpecifier base)
                          ((if isInStdNamespace then "std::" else "")
                           +:+ getNameAsString baseRecord))
              | None => None
              end)
           (bases res)
    else [].
Proof.
  destruct (recordSymbol_lists cfg res id cachedName) as (_ & _ & Hb & _).
  rewrite Hb. destruct (isThisDeclarationADefinition res); [|done].
  apply MatcherTheorems.collectBase_entries.
Qed.

(** **** Documentation comments of members *)

Lemma concat_empty_cons x xs :
  String.concat "" (x :: xs) = x +:+ String.concat "" xs.
Proof.
  destruct xs as [|y ys]; cbn; [by rewrite StrFacts.app_nil_r|done].
Qed.

Lemma allParagraphs_from cs doc :
  for_each cs
    (fun c doc => match c with
                  | ParagraphComment p => doc +:+ getParaCommentContents p
                  | OtherBlock => doc
                  end) doc
  = doc +:+ String.concat ""
              (getParaCommentContents <$> paragraphs (Some cs)).
Proof.
  unfold for_each, paragraphs, default, from_option, id. revert doc.
  induction cs as [|c cs IH]; intros doc.
  - cbn. by rewrite StrFacts.app_nil_r.
  - destruct c as [p|]; cbn [foldl omap list_omap fmap list_fmap];
      rewrite IH; [|done].
    rewrite concat_empty_cons. by rewrite StrFacts.app_assoc.
Qed.

Lemma lastParagraph_from cs doc :
  for_each cs
    (fun c doc => match c with
                  | ParagraphComment p => getParaCommentContents p
                  | OtherBlock => doc
                  end) doc
  = default doc (getParaCommentContents <$> last (paragraphs (Some cs))).
Proof.
  unfold for_each, paragraphs, default, from_option, id. revert doc.
  induction cs as [|c cs IH]; intros doc; [done|].
  destruct c as [p|]; cbn [foldl omap list_omap]; rewrite IH; [|done].
  destruct (omap _ cs) as [|q qs] eqn:E; [done|].
  rewrite last_cons_cons. destruct (last (q :: qs)) eqn:El; [done|].
  by apply last_None in El.
Qed.

(** X19. The documentation comment stored for a member.  For a member
    variable every paragraph of its comment overwrites the one before,
    so what is stored is the text of the last paragraph only; for an
    enumerator the paragraphs are appended, so what is stored is the
    text of all paragraphs, joined without a separator.  A member
    without a comment, or with a comment without paragraphs, gets the
    empty string. *)
Theorem member_doc_comments (comment : option Comment) :
  lastParagraph getParaCommentContents comment ""
  = default "" (getParaCommentContents <$> last (paragraphs comment))
  /\ allParagraphs getParaCommentContents comment ""
     = String.concat "" (getParaCommentContents <$> paragraphs comment).
Proof.
  unfold lastParagraph, allParagraphs.
  destruct comment as [cs|]; cbn [default].
  - split; [apply lastParagraph_from|]. by rewrite allParagraphs_from.
  - done.
Qed.

(** **** getTypeSymbolID *)

(** X20. getTypeSymbolID gives a type, a pointer to it and a reference
    to it the same SymbolID: that of the tag declaration of the type, or
    of its non-specialized version when the tag is a template
    specialization.  A type that is no tag, no pointer to a tag and no
    reference to a tag (a builtin, a pointer to a pointer) gets the null
    ID. *)
Theorem getTypeSymbolID_consistent (typ : QualType) :
  (forall t, getAsTagDecl typ = Some t ->
             getTypeSymbolID buildID typ = tagID buildID t)
  /\ (forall t, getAsTagDecl typ = None -> isPointerType typ = true ->
                pointeeAsTagDecl typ = Some t ->
                getTypeSymbolID buildID typ = tagID buildID t)
  /\ (forall t, getAsTagDecl typ = None ->
                isPointerType typ = false \/ pointeeAsTagDecl typ = None ->
                isReferenceType typ = true ->
                nonReferenceAsTagDecl typ = Some t ->
                getTypeSymbolID buildID typ = tagID buildID t)
  /\ (getAsTagDecl typ = None ->
      isPointerType typ = false \/ pointeeAsTagDecl typ = None ->
      isReferenceType typ = false \/ nonReferenceAsTagDecl typ = None ->
      getTypeSymbolID buildID typ = nullID).
Proof.
  unfold getTypeSymbolID, tagID. repeat split.
  - by intros t ->.
  - intros t -> -> ->. by rewrite bool_decide_eq_true_2 by eauto.
  - intros t -> Hp -> ->.
    rewrite (bool_decide_eq_true_2 (is_Some (Some t))) by eauto.
    destruct Hp as [-> | ->]; [done|].
    rewrite bool_decide_eq_false_2 by (by intros [? ?]).
    by rewrite andb_false_r.
  - intros -> Hp Hr.
    assert (E1 : isPointerType typ
                 && bool_decide (is_Some (pointeeAsTagDecl typ)) = false).
    { destruct Hp as [-> | ->]; [done|].
      rewrite bool_decide_eq_false_2 by (by intros [? ?]).
      by rewrite andb_false_r. }
    assert (E2 : isReferenceType typ
                 && bool_decide (is_Some (nonReferenceAsTagDecl typ)) = false).
    { destruct Hr as [-> | ->]; [done|].
      rewrite bool_decide_eq_false_2 by (by intros [? ?]).
      by rewrite andb_false_r. }
    by rewrite E1, E2.
Qed.
(** **** Symbols are stored under their own ID *)

Section keyed.
Hypothesis fillOutSymbol_ID : forall y d root,
  ID (fillOutSymbol y d root) = ID y.
Hypothesis fillNamespace_ID : forall y d cfg,
  ID (fillNamespace y d cfg) = ID y.
Hypothesis processSymbolComment_ID : forall y c,
  ID (processSymbolComment y c) = ID y.
Hypothesis getFunctionSignature_ID : forall f,
  ID (f_sym (getFunctionSignature f).1) = ID (f_sym f).

Lemma attachComment_ID y d : ID (attachComment processSymbolComment y d) = ID y.
Proof.
  unfold attachComment. destruct (getCommentForDecl d); [|done].
  apply processSymbolComment_ID.
Qed.

Lemma functionSymbol_ID cfg res id :
  ID (f_sym (functionSymbol regex_replace buildID fillOutSymbol
               fillNamespace processSymbolComment getFunctionSignature
               exprToString cfg res id)) = id.
Proof.
  unfold functionSymbol.
  match goal with
  | |- context [getFunctionSignature ?f] =>
      pose proof (getFunctionSignature_ID f) as H;
      destruct (getFunctionSignature f) as [f' proto]
  end.
  cbn [fst f_sym] in *. rewrite fillNamespace_ID, H.
  destruct (isCtorOrDtor _); cbn [set_name ID];
    rewrite attachComment_ID; cbn [set_access ID];
    by rewrite fillOutSymbol_ID.
Qed.

Lemma aliasSymbol_ID cfg res id :
  ID (a_sym (aliasSymbol buildID fillOutSymbol fillNamespace
               processSymbolComment cfg res id)) = id.
Proof.
  unfold aliasSymbol. cbn [a_sym].
  rewrite fillNamespace_ID, attachComment_ID.
  destruct (isCXXClassMember _); cbn [set_access ID];
    by rewrite fillOutSymbol_ID.
Qed.

Lemma recordSymbol_ID cfg res id cachedName :
  ID (r_sym (recordSymbol regex_replace isInIgnoreList
               isInAnonymousNamespace buildID fillOutSymbol fillNamespace
               processSymbolComment getRecordProto exprToString
               getParaCommentContents cfg res id cachedName)) = id.
Proof.
  unfold recordSymbol.
  destruct (for_each (decls res) _ _) as [m a]. cbn [r_sym].
  rewrite fillNamespace_ID, attachComment_ID.
  destruct (asSpecialization res); cbn [set_name ID];
    destruct (getDeclContext (rd_decl res)); cbn [set_name ID];
    destruct (String.eqb _ ""); cbn [set_name ID];
    by rewrite fillOutSymbol_ID.
Qed.

Lemma enumSymbol_ID cfg res id :
  ID (e_sym (enumSymbol fillOutSymbol fillNamespace processSymbolComment
               getParaCommentContents cfg res id)) = id.
Proof.
  unfold enumSymbol. cbn [e_sym].
  rewrite fillNamespace_ID, attachComment_ID.
  destruct (getDeclContext (ed_decl res)); cbn [set_name ID];
    by rewrite fillOutSymbol_ID.
Qed.

Lemma namespaceSymbol_ID cfg res id :
  ID (n_sym (namespaceSymbol fillOutSymbol fillNamespace cfg res id)) = id.
Proof.
  unfold namespaceSymbol. cbn [n_sym].
  by rewrite fillNamespace_ID, fillOutSymbol_ID.
Qed.

Lemma keyed_stored {T : Type} (sym : T -> Symbol) (db : Database T) id dflt v :
  ID (sym v) = id -> Props.keyed_by_ID sym db ->
  Props.keyed_by_ID sym
    (Db.update (ID (sym v)) v (Db.reserve dflt id (Db.countMatch db))).
Proof.
  intros Hv Hk. unfold Props.keyed_by_ID, Db.update, Db.reserve, Db.countMatch.
  cbn [entries]. rewrite Hv, insert_insert_eq.
  by apply map_Forall_insert_2.
Qed.

(** X21. Provided the helpers that fill a symbol leave its ID alone,
    the callbacks keep the Index in the shape resolveNamespaces
    expects: every function, record, enum, namespace and alias is
    stored under its own ID (the placeholder that [reserve] creates
    is overwritten by the symbol built for the declaration), and
    every namespace is stored without children. *)
Theorem callbacks_keep_index_keyed (cfg : Config) (index : Index)
    (Hk : well_keyed index) :
  (forall res,
     well_keyed
       (FunctionMatcher_run regex_replace isInIgnoreList
          isInAnonymousNamespace buildID fillOutSymbol fillNamespace
          processSymbolComment getFunctionSignature exprToString cfg res
          index))
  /\ (forall res,
        well_keyed
          (UsingMatcher_run isInIgnoreList buildID fillOutSymbol
             fillNamespace processSymbolComment cfg res index))
  /\ (forall res,
        well_keyed
          (RecordMatcher_run regex_replace isInIgnoreList
             isInAnonymousNamespace buildID fillOutSymbol fillNamespace
             processSymbolComment getRecordProto exprToString
             getParaCommentContents cfg res index))
  /\ (forall res,
        well_keyed
          (EnumMatcher_run isInIgnoreList isInAnonymousNamespace buildID
             fillOutSymbol fillNamespace processSymbolComment
             getParaCommentContents cfg res index))
  /\ (forall res,
        well_keyed
          (NamespaceMatcher_run isInIgnoreList isInAnonymousNamespace
             buildID fillOutSymbol fillNamespace cfg res index)).
Proof.
  destruct Hk as (Kf & Kr & Ke & Kn & Ka & Kc).
  destruct index as [fs rs es ns als].
  cbn [functions records enums namespaces aliases] in *.
  split; [|split; [|split; [|split]]]; intros res.
  - unfold FunctionMatcher_run.
    destruct (isDeletedAsWritten res); [done|].
    destruct (isCXXDeductionGuideDecl res); [done|].
    destruct (FunctionMatcher_ignores _ _ _ _); [done|].
    destruct (Db.contains _ _); [done|].
    unfold well_keyed.
    cbn [functions records enums namespaces aliases set_functions].
    split_and!; try done.
    apply keyed_stored; [apply functionSymbol_ID|done].
  - unfold UsingMatcher_run.
    destruct (negb _); [done|].
    destruct (isFunctionOrMethod _); [done|].
    destruct (UsingMatcher_ignores _ _ _); [done|].
    destruct (Db.contains _ _); [done|].
    unfold well_keyed.
    cbn [functions records enums namespaces aliases set_aliases].
    split_and!; try done.
    apply keyed_stored; [apply aliasSymbol_ID|done].
  - unfold RecordMatcher_run.
    destruct (RecordMatcher_ignores _ _ _ _); [done|].
    destruct (String.eqb (getNameAsString (rd_decl res)) "" && _); [done|].
    destruct (match asSpecialization res with
              | Some s => negb (hasTypeAsWritten s)
              | None => false
              end); [done|].
    destruct (Db.contains _ _); [done|].
    unfold well_keyed.
    cbn [functions records enums namespaces aliases set_records].
    split_and!; try done.
    apply keyed_stored; [apply recordSymbol_ID|done].
  - unfold EnumMatcher_run.
    destruct (EnumMatcher_ignores _ _ _ _); [done|].
    destruct (Db.contains _ _); [done|].
    unfold well_keyed.
    cbn [functions records enums namespaces aliases set_enums].
    split_and!; try done.
    apply keyed_stored; [apply enumSymbol_ID|done].
  - pose proof (MatcherTheorems.NamespaceMatcher_run_no_children
                  isInIgnoreList isInAnonymousNamespace buildID
                  fillOutSymbol fillNamespace cfg res
                  (mkIndex fs rs es ns als) Kc) as Hc.
    revert Hc. unfold NamespaceMatcher_run.
    destruct (NamespaceMatcher_ignores _ _ _ _); [done|].
    destruct (Db.contains _ _); [done|]. intros Hc.
    unfold well_keyed.
    cbn [functions records enums namespaces aliases set_namespaces].
    split_and!; try done.
    apply keyed_stored; [apply namespaceSymbol_ID|done].
Qed.
End keyed.
End callbacks.

(** [class Box] has a private field and a private method; with
    ignorePrivateMembers set, the member variables of its symbol are not
    private. *)
Lemma private_members_filtered_witness :
  Forall (fun v => mv_access v <> AS_private)
    (vars (recordSymbol Examples.regex_replace Examples.isInIgnoreList
             Examples.isInAnonymousNamespace Examples.buildID
             Examples.fillOutSymbol Examples.fillNamespace
             Examples.processSymbolComment Examples.getRecordProto
             Examples.exprToString Examples.getParaCommentContents
             Examples.cfgPrivate MoreExamples.declBox 1 "")).
Proof.
  exact (proj1 (proj2 (proj2 (private_members_filtered
           Examples.regex_replace Examples.isInIgnoreList
           Examples.isInAnonymousNamespace Examples.buildID
           Examples.fillOutSymbol Examples.fillNamespace
           Examples.processSymbolComment Examples.getFunctionSignature
           Examples.getRecordProto Examples.exprToString
           Examples.getParaCommentContents Examples.cfgPrivate eq_refl))
           MoreExamples.declBox 1 "")).
Defined.

(** [Node], [Node*] and [Node&] get the SymbolID of [struct Node]. *)
Lemma getTypeSymbolID_consistent_witness :
  getTypeSymbolID Examples.buildID MoreExamples.typeNodePtr
  = getTypeSymbolID Examples.buildID MoreExamples.typeNode
  /\ getTypeSymbolID Examples.buildID MoreExamples.typeNodeRef
     = getTypeSymbolID Examples.buildID MoreExamples.typeNode.
Proof.
  pose proof (proj1 (getTypeSymbolID_consistent Examples.buildID
                       MoreExamples.typeNode) MoreExamples.tagNode eq_refl)
    as H0.
  pose proof (proj1 (proj2 (getTypeSymbolID_consistent Examples.buildID
                              MoreExamples.typeNodePtr))
                MoreExamples.tagNode eq_refl eq_refl eq_refl) as H1.
  pose proof (proj1 (proj2 (proj2 (getTypeSymbolID_consistent Examples.buildID
                                     MoreExamples.typeNodeRef)))
                MoreExamples.tagNode eq_refl (or_introl eq_refl) eq_refl
                eq_refl) as H2.
  split; congruence.
Defined.

(** The function callback, run on [void g();] and the empty Index with
    helpers that leave the ID alone. *)
Lemma callbacks_keep_index_keyed_witness :
  well_keyed
    (FunctionMatcher_run Examples.regex_replace Examples.isInIgnoreList
       Examples.isInAnonymousNamespace Examples.buildID
       Examples.fillOutSymbol Examples.fillNamespace
       Examples.processSymbolComment Examples.getFunctionSignature
       Examples.exprToString Examples.cfgPrivate Examples.declPlain
       Examples.emptyIndex).
Proof.
  refine (proj1 (callbacks_keep_index_keyed
            Examples.regex_replace Examples.isInIgnoreList
            Examples.isInAnonymousNamespace Examples.buildID
            Examples.fillOutSymbol Examples.fillNamespace
            Examples.processSymbolComment Examples.getFunctionSignature
            Examples.getRecordProto Examples.exprToString
            Examples.getParaCommentContents _ _ _ _ Examples.cfgPrivate
            Examples.emptyIndex _) Examples.declPlain); done.
Defined.
End CallbackTheorems.
